(** * SignTool-Local: the watch folder signer (watch_folder.py)

    A shallow embedding of [WatchFolderSigner] and the properties of its
    stable-detection, dispatch and outcome-routing loop.

    The program is effectful Python: it mutates the set [processed_files],
    prints log lines, touches the file system, sleeps and spawns the signer.
    It is embedded as a state-and-exception monad over an explicit [State];
    everything the outside world decides (the clock, failing system calls,
    the signer's exit status, what other processes do to the watch folder
    while the script sleeps) is read from a [World] of oracles indexed by a
    tick counter, so that two calls of the same operation may answer
    differently. *)

From Stdlib Require Import String Ascii List ZArith NArith Lia DecimalString.
From stdpp Require Import base option list strings gmap.

Local Open Scope string_scope.
Local Open Scope list_scope.

(** ** Strings and paths (pathlib) *)

(** A resolved absolute path is the list of its components below the root.
    [Path.resolve()] on such a path is the identity. The entries of the
    watch folder are the one place where the script resolves paths that are
    not resolved yet (they may be symbolic links): there the answer is the
    [World]'s, see [realpath]. *)
Abbreviation Path := (list string).

Definition resolve (p : Path) : Path := p.

(** [folder / name] *)
Definition joinpath (d : Path) (n : string) : Path := d ++ [n].
Infix "//" := joinpath (at level 40, left associativity).

(** [p.name], [p.parent] and [str(p)] *)
Definition name (p : Path) : string := List.last p "".
Definition parent (p : Path) : Path := List.removelast p.
Definition str_path (p : Path) : string := "/" +:+ String.concat "/" p.

(** [s.rfind('.')] *)
Fixpoint rfind_dot (s : string) : option nat :=
  match s with
  | EmptyString => None
  | String c s' =>
      match rfind_dot s' with
      | Some i => Some (S i)
      | None => if Ascii.eqb c "."%char then Some 0 else None
      end
  end.

(** pathlib: the suffix starts at the last dot of the name, unless that dot
    is the first or the last character. *)
Definition suffix_of (nm : string) : string :=
  match rfind_dot nm with
  | Some i =>
      if Nat.ltb 0 i && Nat.ltb i (String.length nm - 1)
      then substring i (String.length nm - i) nm else ""
  | None => ""
  end.

Definition stem_of (nm : string) : string :=
  match rfind_dot nm with
  | Some i =>
      if Nat.ltb 0 i && Nat.ltb i (String.length nm - 1)
      then substring 0 i nm else nm
  | None => nm
  end.

Definition stem (p : Path) : string := stem_of (name p).
Definition suffix (p : Path) : string := suffix_of (name p).

(** fnmatch of the pattern [*.ipa] *)
Definition matches_ipa (nm : string) : bool :=
  let n := String.length nm in
  Nat.leb 4 n && String.eqb (substring (n - 4) 4 nm) ".ipa".

(** Python truthiness of a [str] and of an [Optional[str]] *)
Definition truthy (s : string) : bool := negb (String.eqb s "").
Definition truthy_opt (o : option string) : bool :=
  match o with Some s => truthy s | None => false end.

(** ** datetime *)

Record DateTime := mkDateTime {
  dt_year : nat; dt_month : nat; dt_day : nat;
  dt_hour : nat; dt_minute : nat; dt_second : nat
}.

Definition digit (n : nat) : string :=
  String (ascii_of_nat (48 + n mod 10)) EmptyString.
Definition pad2 (n : nat) : string := digit (n / 10) +:+ digit n.
Definition pad4 (n : nat) : string :=
  digit (n / 1000) +:+ digit (n / 100) +:+ digit (n / 10) +:+ digit n.

(** [strftime("%Y%m%d_%H%M%S")], the suffix of a colliding move *)
Definition strftime_compact (t : DateTime) : string :=
  pad4 (dt_year t) +:+ pad2 (dt_month t) +:+ pad2 (dt_day t) +:+ "_" +:+
  pad2 (dt_hour t) +:+ pad2 (dt_minute t) +:+ pad2 (dt_second t).

(** [strftime("%Y-%m-%d %H:%M:%S")], the prefix of a log line *)
Definition strftime_log (t : DateTime) : string :=
  pad4 (dt_year t) +:+ "-" +:+ pad2 (dt_month t) +:+ "-" +:+ pad2 (dt_day t)
  +:+ " " +:+
  pad2 (dt_hour t) +:+ ":" +:+ pad2 (dt_minute t) +:+ ":" +:+ pad2 (dt_second t).

(** Durations are kept in milliseconds: [time.sleep(0.5)] sleeps 500. A
    duration is a [float] the script does not check: it can be negative. *)
Definition str_N (n : N) : string := NilEmpty.string_of_uint (N.to_uint n).

(** [str] of a float holding a whole number of milliseconds, in seconds:
    [2.0], [0.5], [1.25], [-1.5] *)
Definition str_seconds (ms : Z) : string :=
  let a := Z.abs_N ms in
  let frac := (a mod 1000)%N in
  let d1 := N.to_nat (frac / 100) in
  let d2 := N.to_nat (frac / 10) in
  let d3 := N.to_nat frac in
  (if (ms <? 0)%Z then "-" else "") +:+
  str_N (a / 1000) +:+ "." +:+ digit d1 +:+
  (if (frac mod 100 =? 0)%N then ""
   else digit d2 +:+ (if (frac mod 10 =? 0)%N then "" else digit d3)).

(** ** The file system *)

(** A regular file has contents and an execute permission; the contents of
    directories are the nodes below them. *)
Inductive Node :=
| File (data : string) (executable : bool)
| Dir.

Abbreviation FS := (gmap Path Node).

(** [p.exists()], [p.is_file()], [p.is_dir()], [os.access(p, os.X_OK)] *)
Definition exists_ (fs : FS) (p : Path) : bool :=
  match fs !! p with Some _ => true | None => false end.
Definition is_file (fs : FS) (p : Path) : bool :=
  match fs !! p with Some (File _ _) => true | _ => false end.
Definition is_dir (fs : FS) (p : Path) : bool :=
  match fs !! p with Some Dir => true | _ => false end.
Definition access_X_OK (fs : FS) (p : Path) : bool :=
  match fs !! p with
  | Some (File _ x) => x
  | Some Dir => true
  | None => false
  end.

(** The prefixes of a path from the root down to the path itself: the
    directories [mkdir(parents=True)] walks through. *)
Fixpoint prefixes (p : Path) : list Path :=
  [] :: match p with
        | [] => []
        | c :: r => map (cons c) (prefixes r)
        end.

Definition ensure_dir (fs : FS) (q : Path) : FS :=
  match fs !! q with
  | None => <[q := Dir]> fs
  | Some _ => fs
  end.

Definition make_dirs (fs : FS) (p : Path) : FS :=
  foldl ensure_dir fs (prefixes p).

(** [folder.glob("*.ipa")] filtered by [is_file()]; the order is the one the
    directory listing happens to have. *)
Definition glob_ipa (fs : FS) (folder : Path) : list Path :=
  map fst
    (filter (λ e : Path * Node,
               bool_decide (e.1 ≠ []) && bool_decide (parent e.1 = folder)
               && matches_ipa (name e.1) && is_file fs e.1 = true)
            (map_to_list fs)).

(** ** Exceptions *)

Inductive Exn :=
| FileNotFoundError (msg : string)
| FileExistsError (msg : string)
| NotADirectoryError (msg : string)
| PermissionError (msg : string)
| OSError (msg : string)
| ShutilError (msg : string)
| TimeoutExpired (msg : string)
| RuntimeError (msg : string)
| ValueError (msg : string)
| OtherException (msg : string)
| KeyboardInterrupt.

Definition is_FileNotFoundError (e : Exn) : bool :=
  match e with FileNotFoundError _ => true | _ => false end.

Definition is_TimeoutExpired (e : Exn) : bool :=
  match e with TimeoutExpired _ => true | _ => false end.

(** [shutil.Error] derives from [OSError]. *)
Definition is_OSError (e : Exn) : bool :=
  match e with
  | FileNotFoundError _ | FileExistsError _ | NotADirectoryError _
  | PermissionError _ | OSError _ | ShutilError _ => true
  | _ => false
  end.

(** [KeyboardInterrupt] is a [BaseException] only. *)
Definition is_Exception (e : Exn) : bool :=
  match e with KeyboardInterrupt => false | _ => true end.

Definition exn_str (e : Exn) : string :=
  match e with
  | FileNotFoundError m | FileExistsError m | NotADirectoryError m
  | PermissionError m | OSError m | ShutilError m | TimeoutExpired m
  | RuntimeError m | ValueError m | OtherException m => m
  | KeyboardInterrupt => ""
  end.

(** ** State, world and monad *)

Record CompletedProcess := mkCompleted {
  returncode : Z;
  stdout : string;
  stderr : string
}.

Inductive Outcome (A : Type) :=
| Ok (a : A)
| Raise (e : Exn).
Arguments Ok {A} a.
Arguments Raise {A} e.

(** The calls that leave the process, each with what it answered, and two
    marks for the temporal claims: every search for the executable, with
    what it found, and every start of a scan. *)
Inductive Event :=
| EvResolve (found : option Path)
| EvScan
| EvStat (p : Path) (r : Outcome nat)
| EvSleep (ms : Z)
| EvMkdir (p : Path) (r : Outcome unit)
| EvSpawn (cmd : list string) (timeout_s : N) (r : Outcome CompletedProcess)
| EvMove (src dst : Path) (r : Outcome Path).

(** The file system, the attribute [self.processed_files], what was printed
    and what was appended to the log file, the events so far and the
    clock of the oracles. *)
Record State := mkState {
  fs : FS;
  processed_files : gset Path;
  console : list string;
  logfile : list string;
  trace : list Event;
  ticks : nat
}.

(** What [stat] answers for the size of an entry. *)
Definition st_size (fs : FS) (p : Path) : Outcome nat :=
  match fs !! p with
  | Some (File data _) => Ok (String.length data)
  | Some Dir => Ok 0
  | None => Raise (FileNotFoundError (str_path p))
  end.

(** What the script does not decide. The first argument of an oracle is the
    tick at which it is asked.
    - [now]: the clock read by [datetime.now()];
    - [mkdir_fault], [move_fault]: the exception, if any, the operating
      system answers a [mkdir] or a [shutil.move] with (permissions, a
      vanished volume, a race with another process, Ctrl+C);
    - [logfile_fault]: the text of the [Exception], if any, that opening or
      writing the log file ends with (an [OSError]: permissions, a full
      disk); a Ctrl+C that arrives during that write is not an [Exception]
      and is the business of [Interrupts] below;
    - [realpath]: what [Path.resolve()] answers for an entry of the watch
      folder, itself unless a symbolic link is involved;
    - [subprocess_run]: how the signer ends on a command line (completed
      with an exit status and its two captured streams, or an exception of
      [subprocess.run] such as [TimeoutExpired]) and the file system it
      leaves;
    - [interfere]: what other processes do to the file system while the
      script sleeps;
    - the environment variable [SIGNTOOLS_PATH], the directory of the
      script, the working directory and [shutil.which("SignTools")]. *)
Record World := mkWorld {
  now : nat → DateTime;
  mkdir_fault : nat → Path → option Exn;
  move_fault : nat → Path → Path → option Exn;
  logfile_fault : nat → option string;
  subprocess_run : nat → list string → FS → Outcome CompletedProcess * FS;
  interfere : nat → FS → FS;
  realpath : FS → Path → Path;
  environ_SIGNTOOLS_PATH : option Path;
  script_dir : Path;
  cwd : Path;
  which_SignTools : FS → option Path
}.

(** Ctrl+C while the log file is being written, by the tick at which the
    write is attempted. [log] catches [Exception] only, so this
    [KeyboardInterrupt] leaves it. A theorem that binds an [Interrupts]
    holds for every schedule of such interrupts; a theorem that binds none
    is about the runs in which none arrives ([no_ctrl_c]). Below the
    handler of [run] no [except] clause catches [KeyboardInterrupt], so
    that an interrupt of this kind only cuts a run short ([cut_short]):
    the runs that return are the runs without one. *)
Class Interrupts := { ctrl_c_in_log : nat → bool }.

#[global] Instance no_ctrl_c : Interrupts := {| ctrl_c_in_log := λ _, false |}.

(** A user who leans on Ctrl+C. *)
Definition ctrl_c_at_once : Interrupts := {| ctrl_c_in_log := λ _, true |}.

(** The monad of the script: a state transformer that returns a value or
    raises. *)
Definition M (A : Type) : Type := State → Outcome A * State.

Definition ret {A} (a : A) : M A := λ st, (Ok a, st).
Definition raise {A} (e : Exn) : M A := λ st, (Raise e, st).
Definition bind {A B} (m : M A) (k : A → M B) : M B :=
  λ st, match m st with
        | (Ok a, st') => k a st'
        | (Raise e, st') => (Raise e, st')
        end.

Declare Scope sign_scope.
Delimit Scope sign_scope with sign.
Notation "x <- m ;; k" := (bind m (λ x, k))
  (at level 100, m at next level, right associativity) : sign_scope.
Notation "m ;;; k" := (bind m (λ _, k))
  (at level 100, right associativity) : sign_scope.
Local Open Scope sign_scope.

(** [try: body except ...]: the handler picks the clause that matches the
    exception, or [None] when no clause does and it propagates. *)
Definition try_except {A} (body : M A) (handler : Exn → option (M A)) : M A :=
  λ st, match body st with
        | (Ok a, st') => (Ok a, st')
        | (Raise e, st') =>
            match handler e with
            | Some h => h st'
            | None => (Raise e, st')
            end
        end.

Fixpoint for_each {A} (l : list A) (body : A → M unit) : M unit :=
  match l with
  | [] => ret tt
  | x :: r => body x ;;; for_each r body
  end.

Definition set_fs (f : FS) (st : State) : State :=
  mkState f (processed_files st) (console st) (logfile st) (trace st) (ticks st).
Definition set_claims (c : gset Path) (st : State) : State :=
  mkState (fs st) c (console st) (logfile st) (trace st) (ticks st).
Definition print (line : string) (st : State) : State :=
  mkState (fs st) (processed_files st) (console st ++ [line]) (logfile st)
          (trace st) (ticks st).
Definition write_logfile (line : string) (st : State) : State :=
  mkState (fs st) (processed_files st) (console st) (logfile st ++ [line])
          (trace st) (ticks st).
Definition record (ev : Event) (st : State) : State :=
  mkState (fs st) (processed_files st) (console st) (logfile st)
          (trace st ++ [ev]) (ticks st).
Definition tick (st : State) : State :=
  mkState (fs st) (processed_files st) (console st) (logfile st) (trace st)
          (S (ticks st)).

Definition get_fs : M FS := λ st, (Ok (fs st), st).
Definition get_claims : M (gset Path) := λ st, (Ok (processed_files st), st).
Definition emit (ev : Event) : M unit := λ st, (Ok tt, record ev st).

(** [self.processed_files.add(p)] and [self.processed_files.discard(p)] *)
Definition claims_add (p : Path) : M unit :=
  λ st, (Ok tt, set_claims ({[p]} ∪ processed_files st) st).
Definition claims_discard (p : Path) : M unit :=
  λ st, (Ok tt, set_claims (processed_files st ∖ {[p]}) st).

(** ** The system calls *)

Section Signer.

Context {I : Interrupts}.
Variable W : World.

(** [datetime.now()] *)
Definition datetime_now : M DateTime :=
  λ st, (Ok (now W (ticks st)), tick st).

(** [time.sleep(secs)]: a negative duration is refused with a
    [ValueError] before anything happens; otherwise other processes run
    meanwhile. *)
Definition sleep (ms : Z) : M unit :=
  match ms with
  | Zneg _ => raise (ValueError "sleep length must be non-negative")
  | _ => λ st, (Ok tt, tick (set_fs (interfere W (ticks st) (fs st))
                                    (record (EvSleep ms) st)))
  end.

(** [p.stat().st_size]: it fails when the entry is missing; the size of a
    directory is not tracked. *)
Definition stat_size (p : Path) : M nat :=
  λ st, (st_size (fs st) p, record (EvStat p (st_size (fs st) p)) st).

(** [p.mkdir(parents=True, exist_ok=True)] *)
Definition mkdir (p : Path) : M unit :=
  λ st, let r := if is_file (fs st) p then
                    Raise (FileExistsError (str_path p))
                  else if existsb (is_file (fs st)) (prefixes p) then
                    Raise (NotADirectoryError (str_path p))
                  else match mkdir_fault W (ticks st) p with
                       | Some e => Raise e
                       | None => Ok tt
                       end in
        let st' := tick (record (EvMkdir p r) st) in
        match r with
        | Ok _ => (r, set_fs (make_dirs (fs st) p) st')
        | Raise _ => (r, st')
        end.

(** [shutil.move(src, dst)] of a regular file: into [dst] when [dst] is a
    directory (refusing to replace an entry there), and otherwise onto
    [dst], replacing a file that is already there. *)
Definition shutil_move (src dst : Path) : M Path :=
  λ st, let plan : Outcome (Path * Node) :=
          match move_fault W (ticks st) src dst with
          | Some e => Raise e
          | None =>
              match fs st !! src with
              | None => Raise (FileNotFoundError (str_path src))
              | Some node =>
                  if is_dir (fs st) dst then
                    if exists_ (fs st) (dst // name src) then
                      Raise (ShutilError (str_path (dst // name src)))
                    else Ok (dst // name src, node)
                  else Ok (dst, node)
              end
          end in
        match plan with
        | Ok (real_dst, node) =>
            (Ok real_dst,
             set_fs (<[real_dst := node]> (delete src (fs st)))
                    (tick (record (EvMove src dst (Ok real_dst)) st)))
        | Raise e => (Raise e, tick (record (EvMove src dst (Raise e)) st))
        end.

(** [subprocess.run(cmd, capture_output=True, text=True, timeout=t)] *)
Definition subprocess_run_ (cmd : list string) (timeout_s : N)
  : M CompletedProcess :=
  λ st, let '(r, fs') := subprocess_run W (ticks st) cmd (fs st) in
        (r, tick (set_fs fs' (record (EvSpawn cmd timeout_s r) st))).

(** ** WatchFolderSigner *)

Record Signer := mkSigner {
  watch_folder : Path;
  output_folder : Path;
  profile : string;
  sign_args : string;
  bundle_id : option string;
  processed_folder : option Path;
  failed_folder : option Path;
  log_file : option Path;
  poll_interval : Z;
  sign_tools_path : option Path
}.

Definition newline : string := String (ascii_of_nat 10) EmptyString.

(** [log]: the line goes to the console and, when a log file is set, is
    appended to it; a write that fails with an [Exception] is reported on
    the console only, and a Ctrl+C during the write leaves [log] as a
    [KeyboardInterrupt], the line already printed. The log file is kept as
    a channel of its own. *)
Definition log (self : Signer) (message : string) (level : string) : M unit :=
  timestamp <- datetime_now ;;
  let log_message :=
    "[" +:+ strftime_log timestamp +:+ "] [" +:+ level +:+ "] " +:+ message in
  λ st,
    let st1 := print log_message st in
    match log_file self with
    | None => (Ok tt, st1)
    | Some _ =>
        if ctrl_c_in_log (ticks st) then (Raise KeyboardInterrupt, tick st1)
        else
          match logfile_fault W (ticks st) with
          | Some msg =>
              (Ok tt, tick (print ("Failed to write to log file: " +:+ msg) st1))
          | None => (Ok tt, tick (write_logfile (log_message +:+ newline) st1))
          end
    end.

Definition log_info (self : Signer) (message : string) : M unit :=
  log self message "INFO".

(** *** find_sign_tools *)

Definition usable (fs : FS) (p : Path) : bool :=
  exists_ fs p && access_X_OK fs p.

Definition candidates (d : Path) : list Path :=
  [ d // "SignTools";
    d // "SignTools.app" // "Contents" // "MacOS" // "SignTools.bin";
    d // "SignTools.app" // "Contents" // "MacOS" // "SignTools" ].

(** The loop over [range(5)] that climbs from the script directory. *)
Fixpoint search_up (levels : nat) (fs : FS) (current : Path) : option Path :=
  match levels with
  | 0 => None
  | S levels' =>
      let found :=
        if exists_ fs (current // "signer-cfg.yml")
           || exists_ fs (current // "go.mod")
        then List.find (usable fs) (candidates current)
        else None in
      match found with
      | Some c => Some c
      | None => search_up levels' fs (parent current)
      end
  end.

(** A step of the search either returns from the method or falls through
    to the next one. *)
Definition or_else {A} (m : M (option A)) (next : M (option A)) : M (option A) :=
  r <- m ;;
  match r with
  | Some a => ret (Some a)
  | None => next
  end.

Definition find_sign_tools (self : Signer) : M (option Path) :=
  fs <- get_fs ;;
  found <- or_else
    match sign_tools_path self with
    | Some p =>
        if usable fs p then ret (Some p)
        else
          log self ("Warning: Specified SignTools path does not exist or is not executable: "
                    +:+ str_path p) "WARN" ;;;
          ret None
    | None => ret None
    end
  (or_else
    match environ_SIGNTOOLS_PATH W with
    | Some p =>
        if usable fs p then ret (Some p)
        else
          log self ("Warning: SIGNTOOLS_PATH environment variable points to invalid path: "
                    +:+ str_path p) "WARN" ;;;
          ret None
    | None => ret None
    end
  (ret
    match List.find (usable fs) (candidates (script_dir W)) with
    | Some c => Some c
    | None =>
    match List.find (usable fs) (candidates (parent (script_dir W))) with
    | Some c => Some c
    | None =>
    match search_up 5 fs (script_dir W) with
    | Some c => Some c
    | None =>
    match which_SignTools W fs with
    | Some c => Some c
    | None => List.find (usable fs) (candidates (cwd W))
    end end end end)) ;;
  emit (EvResolve found) ;;;
  ret found.

(** The lines both [sign_ipa] and [run] print after their first line when no
    executable is found. *)
Definition log_searched (self : Signer) : M unit :=
  log self "Searched in:" "ERROR" ;;;
  log self "  1. Explicitly specified path (config/argument)" "ERROR" ;;;
  log self "  2. SIGNTOOLS_PATH environment variable" "ERROR" ;;;
  log self "  3. Script directory" "ERROR" ;;;
  log self "  4. Parent directory (project root)" "ERROR" ;;;
  log self "  5. Project root (detected by signer-cfg.yml or go.mod)" "ERROR" ;;;
  log self "  6. PATH environment variable" "ERROR" ;;;
  log self "  7. Current working directory" "ERROR" ;;;
  log self "" "ERROR" ;;;
  log self "Please specify the path using one of the following methods:" "ERROR" ;;;
  log self "  - Set SIGNTOOLS_PATH environment variable" "ERROR" ;;;
  log self "  - Add 'sign_tools_path' to config file" "ERROR" ;;;
  log self "  - Use --sign-tools-path argument" "ERROR".

(** *** move_file *)

(** Where the file goes: under its own name, or with a timestamp when that
    name is taken at the destination. *)
Definition pick_dest_path (dest_folder abs_file_path : Path) : M Path :=
  fs <- get_fs ;;
  if exists_ fs (dest_folder // name abs_file_path) then
    timestamp <- datetime_now ;;
    ret (dest_folder // (stem abs_file_path +:+ "_"
                         +:+ strftime_compact timestamp
                         +:+ suffix abs_file_path))
  else ret (dest_folder // name abs_file_path).

Definition move_file (self : Signer) (file_path : Path)
    (dest_folder : option Path) : M bool :=
  match dest_folder with
  | None =>
      let abs_file_path := resolve file_path in
      claims_discard abs_file_path ;;;
      ret true
  | Some dest =>
      (* Ensure destination folder exists *)
      early <- try_except (mkdir dest ;;; ret None)
                 (λ e, if is_Exception e then
                         Some (log self ("Failed to create destination folder "
                                         +:+ str_path dest +:+ ": " +:+ exn_str e)
                                   "ERROR" ;;;
                               ret (Some false))
                       else None) ;;
      match early with
      | Some b => ret b
      | None =>
          try_except
            (let abs_file_path := resolve file_path in
             fs <- get_fs ;;
             if negb (exists_ fs abs_file_path) then
               log self ("File no longer exists: " +:+ name abs_file_path) "WARN" ;;;
               claims_discard abs_file_path ;;;
               ret true
             else
               dest_path <- pick_dest_path dest abs_file_path ;;
               shutil_move abs_file_path dest_path ;;;
               log_info self ("Moved " +:+ name abs_file_path +:+ " to "
                              +:+ str_path dest) ;;;
               claims_discard abs_file_path ;;;
               ret true)
            (λ e,
               let abs_file_path := resolve file_path in
               if is_FileNotFoundError e then
                 Some (log self ("File not found (may have been deleted): "
                                 +:+ name abs_file_path) "WARN" ;;;
                       claims_discard abs_file_path ;;;
                       ret true)
               else if is_Exception e then
                 Some (log self ("Failed to move " +:+ name abs_file_path
                                 +:+ ": " +:+ exn_str e) "ERROR" ;;;
                       claims_discard abs_file_path ;;;
                       ret false)
               else None)
      end
  end.

(** *** sign_ipa *)

(** The [if self.failed_folder: ... else: ...] every failure path ends with. *)
Definition route_failure (self : Signer) (abs_ipa_path : Path) : M unit :=
  match failed_folder self with
  | Some d => move_file self abs_ipa_path (Some d) ;;; ret tt
  | None => claims_discard abs_ipa_path
  end.

Definition build_cmd (self : Signer) (sign_tools abs_ipa_path output_path : Path)
  : list string :=
  let cmd := [ str_path sign_tools;
               "-headless";
               "-ipa"; str_path abs_ipa_path;
               "-profile"; profile self;
               "-output"; str_path output_path ] in
  let cmd := if truthy (sign_args self)
             then cmd ++ ["-args"; sign_args self] else cmd in
  match bundle_id self with
  | Some b => if truthy b then cmd ++ ["-bundle-id"; b] else cmd
  | None => cmd
  end.

Definition sign_ipa (self : Signer) (ipa_path : Path) : M bool :=
  let abs_ipa_path := resolve ipa_path in
  claims <- get_claims ;;
  if bool_decide (abs_ipa_path ∈ claims) then ret false
  else
    log_info self ("Processing: " +:+ name ipa_path) ;;;
    claims_add abs_ipa_path ;;;
    let output_name := stem abs_ipa_path +:+ "_signed.ipa" in
    let output_path := output_folder self // output_name in
    sign_tools <- find_sign_tools self ;;
    match sign_tools with
    | None =>
        log self "Error: SignTools executable not found" "ERROR" ;;;
        log_searched self ;;;
        route_failure self abs_ipa_path ;;;
        ret false
    | Some sign_tools =>
        let cmd := build_cmd self sign_tools abs_ipa_path output_path in
        try_except
          (log_info self ("Running: " +:+ String.concat " " cmd) ;;;
           result <- subprocess_run_ cmd 1800 ;;
           if (returncode result =? 0)%Z then
             log_info self ("Successfully signed: " +:+ name output_path) ;;;
             match processed_folder self with
             | Some d => move_file self abs_ipa_path (Some d) ;;; ret true
             | None => claims_discard abs_ipa_path ;;; ret true
             end
           else
             log self ("Signing failed for " +:+ name ipa_path +:+ ": "
                       +:+ stderr result) "ERROR" ;;;
             log self ("Output: " +:+ stdout result) "ERROR" ;;;
             route_failure self abs_ipa_path ;;;
             ret false)
          (λ e,
             if is_TimeoutExpired e then
               Some (log self ("Signing timed out for " +:+ name ipa_path) "ERROR" ;;;
                     route_failure self abs_ipa_path ;;;
                     ret false)
             else if is_Exception e then
               Some (log self ("Error signing " +:+ name ipa_path +:+ ": "
                               +:+ exn_str e) "ERROR" ;;;
                     route_failure self abs_ipa_path ;;;
                     ret false)
             else None)
    end.

(** *** scan_and_process *)

(** The body of the loop over the [*.ipa] files of the watch folder. *)
Definition scan_candidate (self : Signer) (ipa_file : Path) : M unit :=
  claims <- get_claims ;;
  if bool_decide (ipa_file ∈ claims) then ret tt
  else
    stable <- try_except
                (file_size_before <- stat_size ipa_file ;;
                 sleep 500 ;;;
                 file_size_after <- stat_size ipa_file ;;
                 ret (Nat.eqb file_size_before file_size_after))
                (λ e, if is_OSError e then Some (ret false) else None) ;;
    if stable then sign_ipa self ipa_file ;;; ret tt
    else ret tt.

Definition scan_and_process (self : Signer) : M unit :=
  emit EvScan ;;;
  fs <- get_fs ;;
  if negb (exists_ fs (watch_folder self)) then
    log self ("Watch folder does not exist: " +:+ str_path (watch_folder self))
        "ERROR"
  else
    let ipa_files := map (realpath W fs) (glob_ipa fs (watch_folder self)) in
    for_each ipa_files (scan_candidate self).

(** *** run *)

(** [while True: scan_and_process(); sleep(poll_interval)], followed for
    [cycles] rounds, after which the user presses Ctrl+C. *)
Fixpoint poll_loop (self : Signer) (cycles : nat) : M unit :=
  match cycles with
  | 0 => raise KeyboardInterrupt
  | S cycles' =>
      scan_and_process self ;;;
      sleep (poll_interval self) ;;;
      poll_loop self cycles'
  end.

Definition run (self : Signer) (cycles : nat) : M unit :=
  sign_tools <- find_sign_tools self ;;
  match sign_tools with
  | None =>
      log self "Error: SignTools executable not found at startup" "ERROR" ;;;
      log_searched self ;;;
      raise (RuntimeError "SignTools executable not found")
  | Some sign_tools =>
      log_info self "Starting Watch Folder Signer" ;;;
      log_info self ("SignTools: " +:+ str_path sign_tools) ;;;
      log_info self ("Watch folder: " +:+ str_path (watch_folder self)) ;;;
      log_info self ("Output folder: " +:+ str_path (output_folder self)) ;;;
      log_info self ("Profile: " +:+ profile self) ;;;
      log_info self ("Sign args: " +:+
                     (if truthy (sign_args self) then sign_args self
                      else "(none)")) ;;;
      log_info self ("Poll interval: " +:+ str_seconds (poll_interval self)
                     +:+ " seconds") ;;;
      log_info self "Press Ctrl+C to stop" ;;;
      log_info self "" ;;;
      try_except (poll_loop self cycles)
        (λ e,
           match e with
           | KeyboardInterrupt => Some (log_info self "Stopped by user")
           | _ => Some (log self ("Unexpected error: " +:+ exn_str e) "ERROR" ;;;
                        raise e)
           end)
  end.

(** *** The constructor and the end of main *)

(** [WatchFolderSigner.__init__], given the folders already expanded and
    resolved ([None] stands for an option left out or empty). *)
Definition init (cfg : Signer) : M Signer :=
  (λ st, (Ok tt, set_claims ∅ st)) ;;;
  mkdir (watch_folder cfg) ;;;
  mkdir (output_folder cfg) ;;;
  match processed_folder cfg with
  | Some d => mkdir d
  | None => ret tt
  end ;;;
  match failed_folder cfg with
  | Some d => mkdir d
  | None => ret tt
  end ;;;
  ret cfg.

(** The last two statements of [main]: build the signer and run it. *)
Definition main (cfg : Signer) (cycles : nat) : M unit :=
  signer <- init cfg ;;
  run signer cycles.

(** The exit status of the interpreter: 0 when [main] returns, 1 when an
    exception escapes it. *)
Definition exit_status (r : Outcome unit) : Z :=
  match r with
  | Ok _ => 0
  | Raise _ => 1
  end.

End Signer.

(** ** What an operation did *)

(** The events an operation appended to the trace, between the state it
    started in and the state it left. *)
Definition events_of (st st' : State) : list Event :=
  drop (length (trace st)) (trace st').

(** The state [log] leaves: only the console, the log file and the clock
    move. *)
Definition log_state (W : World) (self : Signer) (message level : string)
    (st : State) : State :=
  (log W self message level st).2.

Definition log_searched_state (W : World) (self : Signer) (st : State) : State :=
  (log_searched W self st).2.

(** Whether Ctrl+C cuts the call of [log] that starts in this state, and
    the state it then leaves: the line is on the console, the log file is
    as it was. *)
Definition log_is_cut {I : Interrupts} (self : Signer) (st : State) : bool :=
  match log_file self with
  | Some _ => ctrl_c_in_log (S (ticks st))
  | None => false
  end.

Definition log_cut (W : World) (self : Signer) (message level : string)
    (st : State) : State :=
  tick (print ("[" +:+ strftime_log (now W (ticks st)) +:+ "] [" +:+ level
               +:+ "] " +:+ message) (tick st)).

(** A log write was interrupted: there is a log file, and Ctrl+C came at
    some tick. *)
Definition cut {I : Interrupts} (self : Signer) : Prop :=
  is_Some (log_file self) ∧ ∃ t, ctrl_c_in_log t = true.

(** How [move_file] ends after its last step on the disk: it returns [b]
    with the claim released, or its log line was cut and the claim set is
    as it was. *)
Definition ends {I : Interrupts} (self : Signer) (p : Path) (st : State)
    (b : bool) (r : Outcome bool) (st' : State) : Prop :=
  (r = Ok b ∧ processed_files st' = processed_files st ∖ {[p]})
  ∨ (r = Raise KeyboardInterrupt ∧ cut self
     ∧ processed_files st' = processed_files st).

(** [cut_short self m m0]: a run of [m] is the run of [m0] from the same
    state, unless the [KeyboardInterrupt] of a log write ends it. *)
Definition cut_short {I : Interrupts} {A} (self : Signer) (m m0 : M A)
  : Prop :=
  ∀ st r st', m st = (r, st') →
    m0 st = (r, st') ∨ (r = Raise KeyboardInterrupt ∧ cut self).

Definition find_result (W : World) (self : Signer) (st : State) : option Path :=
  match (find_sign_tools W self st).1 with
  | Ok r => r
  | Raise _ => None
  end.

Definition find_state (W : World) (self : Signer) (st : State) : State :=
  (find_sign_tools W self st).2.

(** What a caller sees of a routing step that ran inside [sign_ipa]. *)
Definition after {A} (r : Outcome A) (b : bool) : Outcome bool :=
  match r with
  | Ok _ => Ok b
  | Raise e => Raise e
  end.

(** The events of routing a file. *)
Definition routing (ev : Event) : Prop :=
  match ev with
  | EvMkdir _ _ | EvMove _ _ _ => True
  | _ => False
  end.

(** [runs R E m]: every run of [m] relates the state it starts in to the
    state it ends in by [R], and raises exceptions of [E] only. *)
Definition runs {A} (R : State → State → Prop) (E : Exn → Prop) (m : M A)
  : Prop :=
  ∀ st r st', m st = (r, st') → R st st' ∧ ∀ e, r = Raise e → E e.

Definition only_interrupt (e : Exn) : Prop := e = KeyboardInterrupt.
Definition any_exn (e : Exn) : Prop := True.
Definition os_error (e : Exn) : Prop := is_OSError e = true.
(** The events of a signing job. *)
Definition inner (ev : Event) : Prop :=
  match ev with
  | EvResolve _ | EvSpawn _ _ _ | EvMkdir _ _ | EvMove _ _ _ => True
  | _ => False
  end.

(** The folders the constructor creates, in the order it creates them. *)
Definition folders (cfg : Signer) : list Path :=
  watch_folder cfg :: output_folder cfg
  :: option_list (processed_folder cfg) ++ option_list (failed_folder cfg).

(** ** Scenarios *)

Module Scenario.

Definition noon : DateTime := mkDateTime 2026 1 1 12 0 0.

Definition exe : Path := ["opt"; "signtools"; "SignTools"].
Definition watch : Path := ["watch"].
Definition done : Path := ["done"].
Definition app : Path := ["watch"; "app.ipa"].

(** A quiet machine: nothing fails, the signer exits 0, nobody else touches
    the folders. *)
Definition calm : World := {|
  now := λ _, noon;
  mkdir_fault := λ _ _, None;
  move_fault := λ _ _ _, None;
  logfile_fault := λ _, None;
  subprocess_run := λ _ _ fs, (Ok (mkCompleted 0 "" ""), fs);
  interfere := λ _ fs, fs;
  realpath := λ _ p, p;
  environ_SIGNTOOLS_PATH := None;
  script_dir := ["opt"; "signtools"];
  cwd := ["home"];
  which_SignTools := λ _, None |}.

(** The same machine with a destination that cannot be created. *)
Definition readonly : World := {|
  now := now calm;
  mkdir_fault := λ _ _, Some (PermissionError "Permission denied");
  move_fault := move_fault calm;
  logfile_fault := logfile_fault calm;
  subprocess_run := subprocess_run calm;
  interfere := interfere calm;
  realpath := realpath calm;
  environ_SIGNTOOLS_PATH := None;
  script_dir := script_dir calm;
  cwd := cwd calm;
  which_SignTools := which_SignTools calm |}.


(** A producer that is still writing [app.ipa] while the script sleeps. *)
Definition writing : World := {|
  now := now calm;
  mkdir_fault := mkdir_fault calm;
  move_fault := move_fault calm;
  logfile_fault := logfile_fault calm;
  subprocess_run := subprocess_run calm;
  interfere := λ _ fs, <[app := File "payload and more" false]> fs;
  realpath := realpath calm;
  environ_SIGNTOOLS_PATH := None;
  script_dir := script_dir calm;
  cwd := cwd calm;
  which_SignTools := which_SignTools calm |}.

Definition signer : Signer := {|
  watch_folder := watch;
  output_folder := ["out"];
  profile := "dev";
  sign_args := "-a -d";
  bundle_id := Some "com.example.app";
  processed_folder := Some done;
  failed_folder := Some ["failed"];
  log_file := None;
  poll_interval := 2000;
  sign_tools_path := None |}.

(** [app.ipa] waits in the watch folder; there is no processed folder
    yet. *)
Definition fresh : FS :=
  <[ [] := Dir ]>
  (<[ ["opt"] := Dir ]>
  (<[ ["opt"; "signtools"] := Dir ]>
  (<[ exe := File "signer" true ]>
  (<[ watch := Dir ]>
  (<[ app := File "payload" false ]> ∅))))).

(** The same with a processed folder that holds an older [app.ipa]. *)
Definition disk : FS :=
  <[ done := Dir ]>
  (<[ done // "app.ipa" := File "first" false ]> fresh).

(** The processed folder also holds the file an earlier collision left
    there in the same second. *)
Definition crowded : FS :=
  <[ done // "app_20260101_120000.ipa" := File "second" false ]> disk.

(** No signer executable anywhere. *)
Definition bare : FS := delete exe disk.

Definition boot (f : FS) (claims : gset Path) : State :=
  mkState f claims [] [] [] 0.

End Scenario.

(** ** The verdict on a run of the signer *)

(** What [sign_ipa] answers for a run of the signer: [True] after an exit
    status 0 and [False] otherwise; and the folder the file is routed to:
    the processed folder after a [True], the failed folder after a
    [False]. *)
Definition verdict_of (res : Outcome CompletedProcess) : bool :=
  match res with
  | Ok cp => (returncode cp =? 0)%Z
  | Raise _ => false
  end.

Definition target_of (self : Signer) (verdict : bool) : option Path :=
  if verdict then processed_folder self else failed_folder self.

(** A line of the given level and text is on the console, whatever its time
    stamp. *)
Definition printed (st : State) (level message : string) : Prop :=
  ∃ stamp,
    ("[" +:+ stamp +:+ "] [" +:+ level +:+ "] " +:+ message) ∈ console st.

(** The log file has received, line for line and each followed by a line
    feed, what the console has received between two states. *)
Definition mirrored (st st' : State) : Prop :=
  ∃ lines,
    console st' = console st ++ lines
    ∧ logfile st' = logfile st ++ map (λ line, line +:+ newline) lines.

(** Nothing is lost from [f] to [f'], and what is new are directories on
    the way to one of the folders [ds]. *)
Definition grown_by (ds : list Path) (f f' : FS) : Prop :=
  (∀ q n, f !! q = Some n → f' !! q = Some n)
  ∧ (∀ q n, f' !! q = Some n → f !! q = None →
       n = Dir ∧ ∃ d, d ∈ ds ∧ q `prefix_of` d).

(** ** More scenarios *)

Module Cases.

(** A checkout of the project: [go.mod] sits next to the executable, the
    script two directories below. *)
Definition project : FS :=
  <[ ["opt"; "signtools"; "go.mod"] := File "module SignTools" false ]>
  (<[ ["opt"; "signtools"; "scripts"] := Dir ]> Scenario.fresh).

(** The quiet machine with [SIGNTOOLS_PATH] pointing at the executable,
    and nothing else to find it by. *)
Definition with_env : World := {|
  now := now Scenario.calm;
  mkdir_fault := mkdir_fault Scenario.calm;
  move_fault := move_fault Scenario.calm;
  logfile_fault := logfile_fault Scenario.calm;
  subprocess_run := subprocess_run Scenario.calm;
  interfere := interfere Scenario.calm;
  realpath := realpath Scenario.calm;
  environ_SIGNTOOLS_PATH := Some Scenario.exe;
  script_dir := ["home"; "scripts"];
  cwd := ["home"];
  which_SignTools := λ _, None |}.

(** A signer told where the executable is, wrongly and rightly. *)
Definition misled : Signer := {|
  watch_folder := Scenario.watch;
  output_folder := ["out"];
  profile := "dev";
  sign_args := "";
  bundle_id := None;
  processed_folder := None;
  failed_folder := None;
  log_file := Some ["var"; "log"; "watch.log"];
  poll_interval := 500;
  sign_tools_path := Some ["usr"; "bin"; "SignTools"] |}.

Definition pinned : Signer := {|
  watch_folder := Scenario.watch;
  output_folder := ["out"];
  profile := "dev";
  sign_args := "";
  bundle_id := None;
  processed_folder := None;
  failed_folder := None;
  log_file := None;
  poll_interval := 500;
  sign_tools_path := Some Scenario.exe |}.


(** The quiet machine with a signer that does not do its work: it exits 1,
    it is interrupted by Ctrl+C, or it runs for more than half an hour. *)
Definition with_signer
    (run : Outcome CompletedProcess) : World := {|
  now := now Scenario.calm;
  mkdir_fault := mkdir_fault Scenario.calm;
  move_fault := move_fault Scenario.calm;
  logfile_fault := logfile_fault Scenario.calm;
  subprocess_run := λ _ _ fs, (run, fs);
  interfere := interfere Scenario.calm;
  realpath := realpath Scenario.calm;
  environ_SIGNTOOLS_PATH := None;
  script_dir := script_dir Scenario.calm;
  cwd := cwd Scenario.calm;
  which_SignTools := which_SignTools Scenario.calm |}.

Definition rejected : CompletedProcess :=
  mkCompleted 1 "reading app.ipa" "invalid profile".

Definition failing : World := with_signer (Ok rejected).
Definition interrupted_sign : World := with_signer (Raise KeyboardInterrupt).
Definition slow : World :=
  with_signer (Raise (TimeoutExpired "timed out after 1800 seconds")).

(** Two candidates in the watch folder, and a neighbour who empties the
    folder while the script waits. *)
Definition other : Path := ["watch"; "beta.ipa"].

Definition pair : FS := <[other := File "second" false]> Scenario.disk.

Definition sweeping : World := {|
  now := now Scenario.calm;
  mkdir_fault := mkdir_fault Scenario.calm;
  move_fault := move_fault Scenario.calm;
  logfile_fault := logfile_fault Scenario.calm;
  subprocess_run := subprocess_run Scenario.calm;
  interfere := λ _ fs, delete Scenario.app (delete other fs);
  realpath := realpath Scenario.calm;
  environ_SIGNTOOLS_PATH := None;
  script_dir := script_dir Scenario.calm;
  cwd := cwd Scenario.calm;
  which_SignTools := which_SignTools Scenario.calm |}.

(** [app.ipa] in the watch folder is a symbolic link to a file in another
    folder. *)
Definition vault : Path := ["vault"; "app.ipa"].

Definition linked_disk : FS := <[vault := File "payload" false]> Scenario.disk.

Definition linked : World := {|
  now := now Scenario.calm;
  mkdir_fault := mkdir_fault Scenario.calm;
  move_fault := move_fault Scenario.calm;
  logfile_fault := logfile_fault Scenario.calm;
  subprocess_run := subprocess_run Scenario.calm;
  interfere := interfere Scenario.calm;
  realpath := λ _ p, if decide (p = Scenario.app) then vault else p;
  environ_SIGNTOOLS_PATH := None;
  script_dir := script_dir Scenario.calm;
  cwd := cwd Scenario.calm;
  which_SignTools := which_SignTools Scenario.calm |}.

(** A signer configured with a negative poll interval. *)
Definition hasty : Signer := {|
  watch_folder := Scenario.watch;
  output_folder := ["out"];
  profile := "dev";
  sign_args := "";
  bundle_id := None;
  processed_folder := None;
  failed_folder := None;
  log_file := None;
  poll_interval := -1000;
  sign_tools_path := Some Scenario.exe |}.

End Cases.

(** ** Lemmas on logging and on the search for the executable *)

Lemma events_of_app st st' d :
  trace st' = trace st ++ d → events_of st st' = d.
Proof.
  unfold events_of. intros ->. by rewrite drop_app_length.
Qed.

Lemma events_of_refl st : events_of st st = [].
Proof. apply events_of_app. by rewrite app_nil_r. Qed.

Lemma not_elem_of_discard (p : Path) (X : gset Path) : p ∉ X ∖ {[p]}.
Proof. set_solver. Qed.

Section Logging.

Variable W : World.

Lemma log_eq self m l st :
  log W self m l st = (Ok tt, log_state W self m l st).
Proof.
  unfold log_state, log, bind, datetime_now.
  destruct (log_file self); [destruct (logfile_fault _ _) |]; reflexivity.
Qed.

Lemma fs_log_state self m l st : fs (log_state W self m l st) = fs st.
Proof.
  unfold log_state, log, bind, datetime_now.
  destruct (log_file self); [destruct (logfile_fault _ _) |]; reflexivity.
Qed.

Lemma claims_log_state self m l st :
  processed_files (log_state W self m l st) = processed_files st.
Proof.
  unfold log_state, log, bind, datetime_now.
  destruct (log_file self); [destruct (logfile_fault _ _) |]; reflexivity.
Qed.

Lemma trace_log_state self m l st : trace (log_state W self m l st) = trace st.
Proof.
  unfold log_state, log, bind, datetime_now.
  destruct (log_file self); [destruct (logfile_fault _ _) |]; reflexivity.
Qed.

Lemma log_searched_eq self st :
  log_searched W self st = (Ok tt, log_searched_state W self st).
Proof.
  unfold log_searched_state, log_searched, bind.
  repeat rewrite log_eq. reflexivity.
Qed.

Lemma fs_log_searched self st : fs (log_searched_state W self st) = fs st.
Proof.
  unfold log_searched_state, log_searched, bind.
  repeat rewrite log_eq. cbn [snd]. by rewrite !fs_log_state.
Qed.

Lemma claims_log_searched self st :
  processed_files (log_searched_state W self st) = processed_files st.
Proof.
  unfold log_searched_state, log_searched, bind.
  repeat rewrite log_eq. cbn [snd]. by rewrite !claims_log_state.
Qed.

Lemma trace_log_searched self st :
  trace (log_searched_state W self st) = trace st.
Proof.
  unfold log_searched_state, log_searched, bind.
  repeat rewrite log_eq. cbn [snd]. by rewrite !trace_log_state.
Qed.

End Logging.

(** Unfold the monad and run the steps whose outcome is known. *)
Ltac run_steps :=
  repeat first
    [ rewrite log_eq
    | rewrite log_searched_eq
    | progress cbv beta iota zeta delta
        [bind ret raise try_except get_fs get_claims emit
         claims_add claims_discard log_info resolve fst snd negb]
    | progress cbn [is_FileNotFoundError is_Exception is_TimeoutExpired
                    is_OSError] ].

Ltac split_search :=
  repeat match goal with
         | |- context [match ?x with _ => _ end] =>
             match x with
             | sign_tools_path _ => destruct x
             | environ_SIGNTOOLS_PATH _ => destruct x
             | usable _ _ => destruct x
             end; run_steps
         end.

Section Resolving.

Variable W : World.

Lemma find_sign_tools_eq self st :
  find_sign_tools W self st = (Ok (find_result W self st), find_state W self st).
Proof.
  unfold find_result, find_state, find_sign_tools, or_else. run_steps.
  split_search; reflexivity.
Qed.

Lemma fs_find_state self st : fs (find_state W self st) = fs st.
Proof.
  unfold find_state, find_sign_tools, or_else. run_steps.
  split_search; cbn [snd fs record]; by rewrite ?fs_log_state.
Qed.

Lemma claims_find_state self st :
  processed_files (find_state W self st) = processed_files st.
Proof.
  unfold find_state, find_sign_tools, or_else. run_steps.
  split_search; cbn [snd processed_files record]; by rewrite ?claims_log_state.
Qed.

Lemma trace_find_state self st :
  trace (find_state W self st)
  = trace st ++ [EvResolve (find_result W self st)].
Proof.
  unfold find_result, find_state, find_sign_tools, or_else. run_steps.
  split_search; cbn [fst snd trace record]; by rewrite ?trace_log_state.
Qed.

Lemma find_sign_tools_cases self st :
  ∃ found sf,
    find_sign_tools W self st = (Ok found, sf)
    ∧ fs sf = fs st ∧ processed_files sf = processed_files st
    ∧ trace sf = trace st ++ [EvResolve found].
Proof.
  exists (find_result W self st), (find_state W self st).
  split; [apply find_sign_tools_eq|].
  by rewrite fs_find_state, claims_find_state, trace_find_state.
Qed.

End Resolving.

Ltac exec := run_steps.

Tactic Notation "exec" "in" hyp(H) :=
  repeat first
    [ rewrite log_eq in H
    | rewrite log_searched_eq in H
    | progress cbv beta iota zeta delta
        [bind ret raise try_except get_fs get_claims emit
         claims_add claims_discard log_info resolve fst snd negb] in H
    | progress cbn [is_FileNotFoundError is_Exception is_TimeoutExpired
                    is_OSError] in H ].

(** Read the file system, the claim set and the trace through the steps
    that leave them alone. *)
Ltac frames :=
  repeat first
    [ rewrite fs_log_state | rewrite claims_log_state | rewrite trace_log_state
    | rewrite fs_log_searched | rewrite claims_log_searched
    | rewrite trace_log_searched
    | progress cbn [fs processed_files trace ticks set_claims set_fs record
                    tick print] ].

Tactic Notation "frames" "in" hyp(H) :=
  repeat first
    [ rewrite fs_log_state in H | rewrite claims_log_state in H
    | rewrite trace_log_state in H
    | rewrite fs_log_searched in H | rewrite claims_log_searched in H
    | rewrite trace_log_searched in H
    | progress cbn [fs processed_files trace ticks set_claims set_fs record
                    tick print] in H ].

(** ** Lemmas on directories *)

Lemma prefixes_self p : p ∈ prefixes p.
Proof.
  induction p as [|c r IH]; cbn; [set_solver|].
  right. apply list_elem_of_fmap. eauto.
Qed.

Lemma prefixes_length (p q : Path) :
  q ∈ prefixes p → (length q ≤ length p)%nat.
Proof.
  revert q. induction p as [|c r IH]; intros q; cbn.
  - intros ->%list_elem_of_singleton. done.
  - intros [->|(q' & -> & Hq')%list_elem_of_fmap]%elem_of_cons; cbn; [lia|].
    apply IH in Hq'. lia.
Qed.

Lemma ensure_dir_keeps (f : FS) x q n :
  f !! q = Some n → ensure_dir f x !! q = Some n.
Proof.
  intros H. unfold ensure_dir. destruct (f !! x) eqn:Hx; [done|].
  rewrite lookup_insert_ne; [done | congruence].
Qed.

Lemma ensure_dir_other (f : FS) x q :
  x ≠ q → ensure_dir f x !! q = f !! q.
Proof.
  intros H. unfold ensure_dir. destruct (f !! x); [done|].
  by rewrite lookup_insert_ne.
Qed.

Lemma foldl_ensure_dir_keeps l : ∀ (f : FS) q n,
  f !! q = Some n → foldl ensure_dir f l !! q = Some n.
Proof.
  induction l as [|x l IH]; intros f q n H; cbn; [done|].
  apply IH. by apply ensure_dir_keeps.
Qed.

Lemma foldl_ensure_dir_other l : ∀ (f : FS) q,
  q ∉ l → foldl ensure_dir f l !! q = f !! q.
Proof.
  induction l as [|x l IH]; intros f q H; cbn; [done|].
  apply not_elem_of_cons in H as [H1 H2].
  rewrite IH by done. by apply ensure_dir_other.
Qed.

Lemma foldl_ensure_dir_dirs l : ∀ (f : FS) q,
  (∀ x, x ∈ l → is_file f x = false) → q ∈ l →
  is_dir (foldl ensure_dir f l) q = true.
Proof.
  induction l as [|x l IH]; intros f q Hl Hq; [by apply elem_of_nil in Hq|].
  cbn. assert (Hx : ensure_dir f x !! x = Some Dir).
  { unfold ensure_dir. specialize (Hl x (list_elem_of_here _ _)).
    unfold is_file in Hl. destruct (f !! x) as [[]|] eqn:E; try done.
    by rewrite lookup_insert_eq. }
  apply elem_of_cons in Hq as [->|Hq].
  - unfold is_dir. by rewrite (foldl_ensure_dir_keeps _ _ _ _ Hx).
  - apply IH; [|done]. intros y Hy. unfold is_file.
    destruct (decide (x = y)) as [->|Hne]; [by rewrite Hx|].
    rewrite ensure_dir_other by done. apply (Hl y). by right.
Qed.

Lemma make_dirs_keeps (f : FS) p q n :
  f !! q = Some n → make_dirs f p !! q = Some n.
Proof. apply foldl_ensure_dir_keeps. Qed.

Lemma make_dirs_below (f : FS) (p q : Path) :
  (length p < length q)%nat → make_dirs f p !! q = f !! q.
Proof.
  intros H. apply foldl_ensure_dir_other. intros Hq%prefixes_length. lia.
Qed.

Lemma make_dirs_is_dir (f : FS) p :
  existsb (is_file f) (prefixes p) = false → is_dir (make_dirs f p) p = true.
Proof.
  intros H. apply foldl_ensure_dir_dirs; [|apply prefixes_self].
  intros x Hx. destruct (is_file f x) eqn:E; [|done].
  assert (existsb (is_file f) (prefixes p) = true); [|congruence].
  apply existsb_exists. exists x. split; [by apply list_elem_of_In|done].
Qed.

Lemma is_dir_keeps (f : FS) p q :
  is_dir f q = true → is_dir (make_dirs f p) q = true.
Proof.
  unfold is_dir. destruct (f !! q) as [[]|] eqn:E; try done.
  intros _. by rewrite (make_dirs_keeps _ _ _ _ E).
Qed.

(** ** Lemmas on moving a file *)

Section Routing.

Variable W : World.

Lemma mkdir_cases d st r st1 :
  mkdir W d st = (r, st1) →
  processed_files st1 = processed_files st
  ∧ trace st1 = trace st ++ [EvMkdir d r]
  ∧ match r with
    | Ok _ => fs st1 = make_dirs (fs st) d ∧ is_dir (fs st1) d = true
    | Raise _ => fs st1 = fs st
    end.
Proof.
  unfold mkdir.
  destruct (is_file (fs st) d); [|destruct (existsb _ _) eqn:Hpre;
    [|destruct (mkdir_fault _ _ _)]]; intros [= <- <-]; frames; try done.
  repeat split. by apply make_dirs_is_dir.
Qed.

Lemma shutil_move_cases src dst st r st2 :
  shutil_move W src dst st = (r, st2) →
  processed_files st2 = processed_files st
  ∧ trace st2 = trace st ++ [EvMove src dst r]
  ∧ match r with
    | Ok q =>
        ∃ node, fs st !! src = Some node
          ∧ fs st2 = <[q := node]> (delete src (fs st))
          ∧ (q = dst ∧ is_dir (fs st) dst = false
             ∨ q = dst // name src ∧ is_dir (fs st) dst = true
               ∧ exists_ (fs st) q = false)
    | Raise _ => fs st2 = fs st
    end.
Proof.
  unfold shutil_move.
  destruct (move_fault _ _ _ _); [intros [= <- <-]; frames; done|].
  destruct (fs st !! src) as [node|] eqn:Hsrc; [|intros [= <- <-]; frames; done].
  destruct (is_dir (fs st) dst) eqn:Hd;
    [destruct (exists_ (fs st) (dst // name src)) eqn:Hx|];
    intros [= <- <-]; frames; eauto 10.
Qed.

Lemma pick_dest_path_cases d p st :
  ∃ dst st2, pick_dest_path W d p st = (Ok dst, st2)
    ∧ fs st2 = fs st ∧ processed_files st2 = processed_files st
    ∧ trace st2 = trace st
    ∧ (exists_ (fs st) (d // name p) = false ∧ dst = d // name p
       ∨ exists_ (fs st) (d // name p) = true
         ∧ ∃ t, dst = d // (stem p +:+ "_" +:+ strftime_compact t +:+ suffix p)).
Proof.
  unfold pick_dest_path, datetime_now. exec.
  destruct (exists_ (fs st) (d // name p)); do 2 eexists;
    (split; [reflexivity|]); frames; eauto 10.
Qed.

(** Every way [move_file] can go once a destination is given. *)
Lemma move_file_some self p d st r st' :
  move_file W self p (Some d) st = (r, st') →
  ∃ rm st1, mkdir W d st = (rm, st1) ∧
    match rm with
    | Raise e =>
        trace st' = trace st1 ∧ fs st' = fs st1
        ∧ processed_files st' = processed_files st
        ∧ r = (if is_Exception e then Ok false else Raise e)
    | Ok _ =>
        (exists_ (fs st1) p = false ∧ trace st' = trace st1
         ∧ fs st' = fs st1
         ∧ processed_files st' = processed_files st ∖ {[p]} ∧ r = Ok true)
        ∨ (∃ dst rmv,
             exists_ (fs st1) p = true
             ∧ (exists_ (fs st1) (d // name p) = false ∧ dst = d // name p
                ∨ exists_ (fs st1) (d // name p) = true
                  ∧ ∃ t, dst = d // (stem p +:+ "_" +:+ strftime_compact t
                                     +:+ suffix p))
             ∧ trace st' = trace st1 ++ [EvMove p dst rmv]
             ∧ match rmv with
               | Ok q =>
                   (∃ node, fs st1 !! p = Some node
                      ∧ fs st' = <[q := node]> (delete p (fs st1))
                      ∧ (q = dst ∧ is_dir (fs st1) dst = false
                         ∨ q = dst // name p ∧ is_dir (fs st1) dst = true
                           ∧ exists_ (fs st1) q = false))
                   ∧ processed_files st' = processed_files st ∖ {[p]}
                   ∧ r = Ok true
               | Raise e =>
                   fs st' = fs st1
                   ∧ (if is_Exception e
                      then processed_files st' = processed_files st ∖ {[p]}
                           ∧ r = Ok (is_FileNotFoundError e)
                      else processed_files st' = processed_files st
                           ∧ r = Raise e)
               end)
    end.
Proof.
  intros H. unfold move_file in H. exec in H.
  destruct (mkdir W d st) as [rm st1] eqn:Hmk.
  destruct (mkdir_cases _ _ _ _ Hmk) as (Hc1 & Ht1 & Hf1).
  exists rm, st1. split; [done|].
  destruct rm as [[]|e]; exec in H.
  - destruct (exists_ (fs st1) p) eqn:Hex; exec in H.
    + destruct (pick_dest_path_cases d p st1)
        as (dst & st2 & Hpick & Hf2 & Hc2 & Ht2 & Hdst).
      rewrite Hpick in H. exec in H.
      destruct (shutil_move W p dst st2) as [rmv st3] eqn:Hmv.
      destruct (shutil_move_cases _ _ _ _ _ Hmv) as (Hc3 & Ht3 & Hf3).
      rewrite Hf2 in Hf3. rewrite Ht2 in Ht3. rewrite Hc2, Hc1 in Hc3.
      right. exists dst, rmv. split; [done|]. split; [done|].
      destruct rmv as [q|e]; exec in H.
      * injection H as <- <-. frames. rewrite Hc3. done.
      * destruct e; exec in H; injection H as <- <-; frames;
          rewrite ?Hc3; done.
    + injection H as <- <-. left. frames. by rewrite Hc1.
  - destruct (is_Exception e) eqn:He; exec in H; injection H as <- <-;
      frames; done.
Qed.

End Routing.

(** ** Lemmas on signing *)

Ltac pick_event H :=
  repeat match type of H with
         | _ ∈ _ :: _ => apply elem_of_cons in H as [H|H]
         | _ ∈ _ ++ _ => apply elem_of_app in H as [H|H]
         | _ ∈ [] => by apply elem_of_nil in H
         end.

Section Signing.

Variable W : World.

Lemma move_file_raises self p dest st e st' :
  move_file W self p dest st = (Raise e, st') → is_Exception e = false.
Proof.
  destruct dest as [d|]; [|by unfold move_file; exec].
  intros H. apply move_file_some in H as (rm & st1 & _ & H).
  destruct rm as [[]|e1].
  - destruct H as [(_ & _ & _ & _ & ?) | (dst & rmv & _ & _ & _ & H)]; [done|].
    destruct rmv as [q|e2]; [by destruct H as (_ & _ & ?)|].
    destruct H as (_ & H). destruct (is_Exception e2) eqn:E; [by destruct H|].
    destruct H as [_ [= ->]]. done.
  - destruct H as (_ & _ & _ & H).
    destruct (is_Exception e1) eqn:E; [done|]. by injection H as ->.
Qed.

Lemma route_failure_raises self p st e st' :
  route_failure W self p st = (Raise e, st') → is_Exception e = false.
Proof.
  unfold route_failure. destruct (failed_folder self) as [d|]; exec; [|done].
  destruct (move_file W self p (Some d) st) as [[b|e1] sm] eqn:H; [done|].
  intros [= <- <-]. by apply move_file_raises in H.
Qed.

Lemma subprocess_run_cases cmd t st r st1 :
  subprocess_run_ W cmd t st = (r, st1) →
  processed_files st1 = processed_files st
  ∧ trace st1 = trace st ++ [EvSpawn cmd t r].
Proof.
  unfold subprocess_run_. destruct (subprocess_run W _ _ _) as [r0 f0].
  intros [= <- <-]. done.
Qed.

(** Every way [sign_ipa] can go on a path that is not claimed yet: [sb] is
    the state in which the file is routed. *)
Lemma sign_ipa_cases self p st r st' :
  p ∉ processed_files st →
  sign_ipa W self p st = (r, st') →
  let out := output_folder self // (stem p +:+ "_signed.ipa") in
  ∃ sb, processed_files sb = {[p]} ∪ processed_files st ∧
    ((trace sb = trace st ++ [EvResolve None]
      ∧ ∃ rf, route_failure W self p sb = (rf, st') ∧ r = after rf false)
     ∨ ∃ exe res,
         trace sb = trace st ++ [EvResolve (Some exe);
                                  EvSpawn (build_cmd self exe p out) 1800 res]
         ∧ match res with
           | Ok cp =>
               if (returncode cp =? 0)%Z then
                 match processed_folder self with
                 | Some d =>
                     ∃ rm, move_file W self p (Some d) sb = (rm, st')
                           ∧ r = after rm true
                 | None =>
                     fs st' = fs sb ∧ trace st' = trace sb
                     ∧ processed_files st' = processed_files sb ∖ {[p]}
                     ∧ r = Ok true
                 end
               else
                 ∃ rf, route_failure W self p sb = (rf, st') ∧ r = after rf false
           | Raise e =>
               if is_Exception e then
                 ∃ rf, route_failure W self p sb = (rf, st') ∧ r = after rf false
               else st' = sb ∧ r = Raise e
           end).
Proof.
  intros Hp H out. unfold sign_ipa in H. exec in H.
  rewrite bool_decide_eq_false_2 in H by done. exec in H.
  match type of H with
  | context [find_sign_tools W self ?s] =>
      destruct (find_sign_tools_cases W self s)
        as (found & sf & Hfind & _ & Hcf & Htf)
  end.
  rewrite Hfind in H. frames in Hcf. frames in Htf. exec in H.
  destruct found as [exe|].
  - exec in H.
    match type of H with
    | context [subprocess_run_ W ?c ?t ?s] =>
        destruct (subprocess_run_ W c t s) as [res s1] eqn:Hsp
    end.
    apply subprocess_run_cases in Hsp as (Hc1 & Ht1).
    frames in Hc1. frames in Ht1. rewrite Hcf in Hc1.
    rewrite Htf, <- app_assoc in Ht1.
    destruct res as [cp|e]; exec in H.
    + destruct (returncode cp =? 0)%Z eqn:Hrc; exec in H.
      * destruct (processed_folder self) as [d|] eqn:Hpf; exec in H.
        -- match type of H with
           | context [move_file W self p (Some d) ?s] =>
               exists s; destruct (move_file W self p (Some d) s)
                 as [rm sm] eqn:Hmf
           end.
           frames. split; [done|]. right. exists exe, (Ok cp).
           split; [done|]. rewrite Hrc.
           destruct rm as [b|e]; exec in H.
           ++ injection H as <- <-. eauto.
           ++ rewrite (move_file_raises _ _ _ _ _ _ Hmf) in H.
              assert (is_TimeoutExpired e = false) as He.
              { apply move_file_raises in Hmf. by destruct e. }
              rewrite He in H. injection H as <- <-. eauto.
        -- match type of H with
           | (_, set_claims _ ?s) = _ => exists s
           end.
           injection H as <- <-. frames. split; [done|]. right. exists exe, (Ok cp).
           split; [done|]. rewrite Hrc. frames. done.
      * match type of H with
        | context [route_failure W self p ?s] =>
            exists s; destruct (route_failure W self p s) as [rf sm] eqn:Hrf
        end.
        frames. split; [done|]. right. exists exe, (Ok cp).
        split; [done|]. rewrite Hrc.
        destruct rf as [b|e]; exec in H.
        -- injection H as <- <-. eauto.
        -- rewrite (route_failure_raises _ _ _ _ _ Hrf) in H.
           assert (is_TimeoutExpired e = false) as He.
           { apply route_failure_raises in Hrf. by destruct e. }
           rewrite He in H. injection H as <- <-. eauto.
    + destruct (is_TimeoutExpired e) eqn:Hto; exec in H.
      * match type of H with
        | context [route_failure W self p ?s] =>
            exists s; destruct (route_failure W self p s) as [rf sm] eqn:Hrf
        end.
        frames. split; [done|]. right. exists exe, (Raise e).
        split; [done|]. assert (is_Exception e = true) as -> by by destruct e.
        destruct rf; injection H as <- <-; eauto.
      * destruct (is_Exception e) eqn:He; exec in H.
        -- match type of H with
           | context [route_failure W self p ?s] =>
               exists s; destruct (route_failure W self p s) as [rf sm] eqn:Hrf
           end.
           frames. split; [done|]. right. exists exe, (Raise e).
           split; [done|]. rewrite He.
           destruct rf; injection H as <- <-; eauto.
        -- injection H as <- <-. exists s1. split; [done|]. right.
           exists exe, (Raise e). split; [done|]. by rewrite He.
  - exec in H.
    match type of H with
    | context [route_failure W self p ?s] =>
        exists s; destruct (route_failure W self p s) as [rf sm] eqn:Hrf
    end.
    frames. split; [done|]. left. split; [done|].
    destruct rf; injection H as <- <-; eauto.
Qed.

End Signing.

(** ** What routing and signing leave alone *)

Section Frames.

Variable W : World.

Lemma move_file_frame self p dest st r st' :
  move_file W self p dest st = (r, st') →
  (∃ evs, trace st' = trace st ++ evs ∧ Forall routing evs)
  ∧ (processed_files st' = processed_files st
     ∨ processed_files st' = processed_files st ∖ {[p]}).
Proof.
  destruct dest as [d|].
  - intros H. apply move_file_some in H as (rm & st1 & Hmk & H).
    apply mkdir_cases in Hmk as (_ & Ht1 & _).
    destruct rm as [[]|e].
    + destruct H as [(_ & Ht & _ & Hc & _) | (dst & rmv & _ & _ & Ht & H)].
      * split; [|by right]. exists [EvMkdir d (Ok ())].
        rewrite Ht, Ht1. by repeat constructor.
      * split.
        { exists [EvMkdir d (Ok ()); EvMove p dst rmv].
          rewrite Ht, Ht1, <- app_assoc. by repeat constructor. }
        destruct rmv as [q|e]; [by right; destruct H as (_ & ? & _)|].
        destruct H as (_ & H). destruct (is_Exception e); destruct H; auto.
    + destruct H as (Ht & _ & Hc & _). split; [|by left].
      exists [EvMkdir d (Raise e)]. rewrite Ht, Ht1. by repeat constructor.
  - unfold move_file. exec. intros [= <- <-]. frames. split; [|by right].
    exists []. by rewrite app_nil_r.
Qed.

Lemma route_failure_frame self p st r st' :
  route_failure W self p st = (r, st') →
  (∃ evs, trace st' = trace st ++ evs ∧ Forall routing evs)
  ∧ (processed_files st' = processed_files st
     ∨ processed_files st' = processed_files st ∖ {[p]}).
Proof.
  unfold route_failure. destruct (failed_folder self) as [d|]; exec.
  - destruct (move_file W self p (Some d) st) as [rm sm] eqn:H.
    apply move_file_frame in H. by destruct rm; intros [= <- <-].
  - intros [= <- <-]. frames. split; [|by right].
    exists []. by rewrite app_nil_r.
Qed.

Lemma sign_ipa_claimed self p st :
  p ∈ processed_files st → sign_ipa W self p st = (Ok false, st).
Proof.
  intros H. unfold sign_ipa. exec. by rewrite bool_decide_eq_true_2.
Qed.

(** [sign_ipa] on an unclaimed path asks for the executable first, spawns
    the signer at most once, and then only routes the file; of the claim
    set it touches the path it was given and nothing else. *)
Lemma sign_ipa_frame self p st r st' :
  p ∉ processed_files st →
  sign_ipa W self p st = (r, st') →
  let out := output_folder self // (stem p +:+ "_signed.ipa") in
  (∃ found spawned evs,
     trace st' = trace st ++ EvResolve found :: spawned ++ evs
     ∧ Forall routing evs
     ∧ match found with
       | None => spawned = []
       | Some exe =>
           ∃ res, spawned = [EvSpawn (build_cmd self exe p out) 1800 res]
       end)
  ∧ (processed_files st' = {[p]} ∪ processed_files st
     ∨ processed_files st' = processed_files st).
Proof.
  intros Hp H out.
  apply sign_ipa_cases in H as (sb & Hcb & H); [|done].
  assert (({[p]} ∪ processed_files st) ∖ {[p]} = processed_files st) as Hdrop
    by set_solver.
  assert (∀ s', (processed_files s' = processed_files sb
                 ∨ processed_files s' = processed_files sb ∖ {[p]}) →
                processed_files s' = {[p]} ∪ processed_files st
                ∨ processed_files s' = processed_files st) as Hclaims.
  { intros s' [->| ->]; rewrite Hcb, ?Hdrop; auto. }
  destruct H as [(Ht & rf & Hrf & _) | (exe & res & Ht & H)].
  - apply route_failure_frame in Hrf as ((evs & Hte & Hev) & Hc).
    split; [|by apply Hclaims].
    exists None, [], evs. rewrite Hte, Ht, <- app_assoc. done.
  - set (shape := λ s' : State,
           ∃ found spawned evs0,
             trace s' = trace st ++ EvResolve found :: spawned ++ evs0
             ∧ Forall routing evs0
             ∧ match found with
               | None => spawned = []
               | Some exe =>
                   ∃ res, spawned = [EvSpawn (build_cmd self exe p out) 1800 res]
               end).
    change (shape st' ∧ (processed_files st' = {[p]} ∪ processed_files st
                         ∨ processed_files st' = processed_files st)).
    assert (∀ s' evs, trace s' = trace sb ++ evs → Forall routing evs →
                      shape s') as Hshape.
    { intros s' evs Hte Hev.
      exists (Some exe), [EvSpawn (build_cmd self exe p out) 1800 res], evs.
      rewrite Hte, Ht, <- app_assoc. eauto. }
    assert (∀ rf s', route_failure W self p sb = (rf, s') →
              shape s' ∧ (processed_files s' = {[p]} ∪ processed_files st
                          ∨ processed_files s' = processed_files st))
      as Hroute.
    { intros rf s' Hrf.
      apply route_failure_frame in Hrf as ((evs & Hte & Hev) & Hc). eauto. }
    destruct res as [cp|e].
    + destruct (returncode cp =? 0)%Z.
      * destruct (processed_folder self) as [d|].
        -- destruct H as (rm & Hmf & _).
           apply move_file_frame in Hmf as ((evs & Hte & Hev) & Hc). eauto.
        -- destruct H as (Hf & Hte & Hc & _). split.
           ++ apply (Hshape _ []); [by rewrite app_nil_r | constructor].
           ++ apply Hclaims. auto.
      * destruct H as (rf & Hrf & _). eauto.
    + destruct (is_Exception e).
      * destruct H as (rf & Hrf & _). eauto.
      * destruct H as [-> _]. split.
        -- apply (Hshape _ []); [by rewrite app_nil_r | constructor].
        -- apply Hclaims. auto.
Qed.

End Frames.

(** ** Ctrl+C during a log write *)

(** What follows holds for every schedule of interrupts. A call of [log]
    either is cut, and then raises [KeyboardInterrupt] with its line on the
    console, or runs as in the sections above. *)
Section Interrupted.

Context {I : Interrupts}.
Variable W : World.

Lemma log_run self m l st :
  log W self m l st
  = if log_is_cut self st
    then (Raise KeyboardInterrupt, log_cut W self m l st)
    else (Ok tt, log_state W self m l st).
Proof.
  unfold log_is_cut, log_cut, log_state, log, bind, datetime_now.
  destruct (log_file self); [|reflexivity]. cbn [ticks tick].
  destruct (ctrl_c_in_log (S (ticks st))); [reflexivity|].
  by destruct (logfile_fault _ _).
Qed.

Lemma log_is_cut_true self st : log_is_cut self st = true → cut self.
Proof.
  unfold log_is_cut, cut. destruct (log_file self); [|done]. eauto.
Qed.

Lemma console_log_cut self m l st :
  ∃ stamp, console (log_cut W self m l st)
           = console st ++ ["[" +:+ stamp +:+ "] [" +:+ l +:+ "] " +:+ m].
Proof. by eexists. Qed.

End Interrupted.

(** Take the next call of [log] in [H] apart. *)
Ltac split_log H :=
  match type of H with
  | context [log ?W ?self ?m ?l ?s] =>
      rewrite (log_run W self m l s) in H;
      let C := fresh "Hcut" in
      destruct (log_is_cut self s) eqn:C; exec in H
  end.

Ltac frames_cut :=
  repeat first
    [ progress frames
    | progress cbn [fs processed_files trace ticks console logfile log_cut
                    set_claims set_fs record tick print] ].

Section InterruptedRouting.

Context {I : Interrupts}.
Variable W : World.

(** Every way through [move_file] with a destination folder. *)
Lemma move_file_run self p d st r st' :
  move_file W self p (Some d) st = (r, st') →
  ∃ rm st1, mkdir W d st = (rm, st1) ∧
    match rm with
    | Raise e =>
        trace st' = trace st1 ∧ fs st' = fs st1
        ∧ processed_files st' = processed_files st
        ∧ (if is_Exception e
           then r = Ok false ∨ (r = Raise KeyboardInterrupt ∧ cut self)
           else r = Raise e)
    | Ok _ =>
        (exists_ (fs st1) p = false ∧ trace st' = trace st1
         ∧ fs st' = fs st1 ∧ ends self p st true r st')
        ∨ (∃ dst rmv,
             exists_ (fs st1) p = true
             ∧ (if exists_ (fs st1) (d // name p)
                then dst = d // (stem p +:+ "_"
                                 +:+ strftime_compact (now W (ticks st1))
                                 +:+ suffix p)
                else dst = d // name p)
             ∧ trace st' = trace st1 ++ [EvMove p dst rmv]
             ∧ match rmv with
               | Ok q =>
                   (∃ node, fs st1 !! p = Some node
                      ∧ fs st' = <[q := node]> (delete p (fs st1))
                      ∧ (q = dst ∧ is_dir (fs st1) dst = false
                         ∨ q = dst // name p ∧ is_dir (fs st1) dst = true
                           ∧ exists_ (fs st1) q = false))
                   ∧ ends self p st true r st'
               | Raise e =>
                   fs st' = fs st1
                   ∧ (if is_Exception e
                      then ends self p st (is_FileNotFoundError e) r st'
                      else processed_files st' = processed_files st
                           ∧ r = Raise e)
               end)
    end.
Proof.
  intros H. unfold ends. unfold move_file in H. exec in H.
  destruct (mkdir W d st) as [rm st1] eqn:Hmk.
  destruct (mkdir_cases _ _ _ _ _ Hmk) as (Hc1 & Ht1 & Hf1).
  exists rm, st1. split; [done|].
  destruct rm as [[]|e]; exec in H.
  - destruct (exists_ (fs st1) p) eqn:Hex; exec in H.
    + unfold pick_dest_path, datetime_now in H. exec in H.
      right.
      destruct (exists_ (fs st1) (d // name p)) eqn:Hcol; exec in H.
      * match type of H with
        | context [shutil_move W p ?dst ?s2] =>
            destruct (shutil_move W p dst s2) as [rmv st3] eqn:Hmv;
            exists dst, rmv
        end.
        destruct (shutil_move_cases _ _ _ _ _ _ Hmv) as (Hc3 & Ht3 & Hf3).
        frames in Hc3. frames in Ht3. frames in Hf3.
        split; [done|]. split; [done|].
        destruct rmv as [q|e]; exec in H.
        -- split_log H; injection H as <- <-; frames_cut;
             (split; [done|]); (split; [done|]);
             [right; split; [done|]; split; [by eapply log_is_cut_true|];
              by rewrite Hc3, Hc1
             |left; split; [done|]; by rewrite Hc3, Hc1].
        -- destruct (is_FileNotFoundError e) eqn:Hfnf; exec in H.
           ++ assert (is_Exception e = true) as -> by (by destruct e).
              split_log H; injection H as <- <-; frames_cut;
                (split; [done|]); (split; [done|]);
                [right; split; [done|]; split; [by eapply log_is_cut_true|];
                 by rewrite Hc3, Hc1
                |left; split; [done|]; by rewrite Hc3, Hc1].
           ++ destruct (is_Exception e) eqn:Hexn; exec in H.
              ** split_log H; injection H as <- <-; frames_cut;
                   (split; [done|]); (split; [done|]);
                   [right; split; [done|];
                    split; [by eapply log_is_cut_true|];
                    by rewrite Hc3, Hc1
                   |left; split; [done|]; by rewrite Hc3, Hc1].
              ** injection H as <- <-. frames_cut.
                 split; [done|]. split; [done|]. by rewrite Hc3, Hc1.
      * match type of H with
        | context [shutil_move W p ?dst ?s2] =>
            destruct (shutil_move W p dst s2) as [rmv st3] eqn:Hmv;
            exists dst, rmv
        end.
        destruct (shutil_move_cases _ _ _ _ _ _ Hmv) as (Hc3 & Ht3 & Hf3).
        split; [done|]. split; [done|].
        destruct rmv as [q|e]; exec in H.
        -- split_log H; injection H as <- <-; frames_cut;
             (split; [done|]); (split; [done|]);
             [right; split; [done|]; split; [by eapply log_is_cut_true|];
              by rewrite Hc3, Hc1
             |left; split; [done|]; by rewrite Hc3, Hc1].
        -- destruct (is_FileNotFoundError e) eqn:Hfnf; exec in H.
           ++ assert (is_Exception e = true) as -> by (by destruct e).
              split_log H; injection H as <- <-; frames_cut;
                (split; [done|]); (split; [done|]);
                [right; split; [done|]; split; [by eapply log_is_cut_true|];
                 by rewrite Hc3, Hc1
                |left; split; [done|]; by rewrite Hc3, Hc1].
           ++ destruct (is_Exception e) eqn:Hexn; exec in H.
              ** split_log H; injection H as <- <-; frames_cut;
                   (split; [done|]); (split; [done|]);
                   [right; split; [done|];
                    split; [by eapply log_is_cut_true|];
                    by rewrite Hc3, Hc1
                   |left; split; [done|]; by rewrite Hc3, Hc1].
              ** injection H as <- <-. frames_cut.
                 split; [done|]. split; [done|]. by rewrite Hc3, Hc1.
    + left. split; [done|].
      split_log H; injection H as <- <-; frames_cut;
        (split; [done|]); (split; [done|]);
        [right; split; [done|]; split; [by eapply log_is_cut_true|done]
        |left; split; [done|]; by rewrite Hc1].
  - destruct (is_Exception e) eqn:He; exec in H.
    + split_log H; injection H as <- <-; frames_cut;
        do 3 (split; [done|]);
        [right; split; [done|]; by eapply log_is_cut_true|by left].
    + injection H as <- <-. by frames_cut.
Qed.

End InterruptedRouting.

(** ** Ctrl+C during a log write only cuts a run short *)

(** Below the handler of [run], no [except] clause catches
    [KeyboardInterrupt]: a run with interrupts is the run without them, or
    ends at the log write that was cut. What is proved of the runs without
    such an interrupt is thereby proved of every run that returns. *)
Section CutShort.

Context {I : Interrupts}.
Variable W : World.
Variable self : Signer.

Lemma cut_short_refl {A} (m : M A) : cut_short self m m.
Proof. intros st r st' H. by left. Qed.

Lemma cut_short_bind {A B} (m m0 : M A) (k k0 : A → M B) :
  cut_short self m m0 → (∀ a, cut_short self (k a) (k0 a)) →
  cut_short self (bind m k) (bind m0 k0).
Proof.
  intros Hm Hk st r st' H. unfold bind in *.
  destruct (m st) as [r1 s1] eqn:H1.
  apply Hm in H1 as [H1 | [-> Hcut]].
  - rewrite H1. destruct r1 as [a|e]; [by apply Hk|by left].
  - injection H as <- _. by right.
Qed.

Lemma cut_short_try {A} (m m0 : M A) (h h0 : Exn → option (M A)) :
  cut_short self m m0 →
  (∀ e, match h e, h0 e with
        | Some k, Some k0 => cut_short self k k0
        | None, None => True
        | _, _ => False
        end) →
  h KeyboardInterrupt = None →
  cut_short self (try_except m h) (try_except m0 h0).
Proof.
  intros Hm Hh Hki st r st' H. unfold try_except in *.
  destruct (m st) as [r1 s1] eqn:H1.
  apply Hm in H1 as [H1 | [-> Hcut]].
  - rewrite H1. destruct r1 as [a|e]; [by left|].
    specialize (Hh e). destruct (h e) as [k|], (h0 e) as [k0|]; try done.
    + by apply Hh.
    + by left.
  - rewrite Hki in H. injection H as <- _. by right.
Qed.

Lemma cut_short_for_each {A} (l : list A) (body body0 : A → M unit) :
  (∀ a, cut_short self (body a) (body0 a)) →
  cut_short self (for_each l body) (for_each l body0).
Proof.
  intros Hb. induction l as [|a l IH]; cbn [for_each].
  - apply cut_short_refl.
  - apply cut_short_bind; [apply Hb|]. by intros _.
Qed.

Lemma cut_short_log m l :
  cut_short self (log W self m l) (log (I := no_ctrl_c) W self m l).
Proof.
  intros st r st' H. rewrite log_run in H. rewrite log_eq.
  destruct (log_is_cut self st) eqn:Hcut; injection H as <- <-.
  - right. split; [done|]. by eapply log_is_cut_true.
  - by left.
Qed.

(** Take two runs apart side by side. *)
Ltac pair_step :=
  first
    [ apply cut_short_log
    | apply cut_short_bind; [|intros ?]
    | match goal with
      | |- cut_short _ (match ?x with _ => _ end) _ => destruct x
      | |- cut_short _ (let _ := _ in _) _ => cbv zeta
      end
    | apply cut_short_refl ].

Lemma cut_short_log_searched :
  cut_short self (log_searched W self) (log_searched (I := no_ctrl_c) W self).
Proof. unfold log_searched. repeat pair_step. Qed.

Lemma cut_short_find_sign_tools :
  cut_short self (find_sign_tools W self)
            (find_sign_tools (I := no_ctrl_c) W self).
Proof.
  unfold find_sign_tools, or_else.
  apply cut_short_bind; [apply cut_short_refl|]. intros f.
  apply cut_short_bind; [|intros ?; apply cut_short_refl].
  apply cut_short_bind.
  { destruct (sign_tools_path self) as [p|]; [|apply cut_short_refl].
    destruct (usable f p); [apply cut_short_refl|]. repeat pair_step. }
  intros [a|]; [apply cut_short_refl|].
  apply cut_short_bind; [|intros ?; apply cut_short_refl].
  destruct (environ_SIGNTOOLS_PATH W) as [p|]; [|apply cut_short_refl].
  destruct (usable f p); [apply cut_short_refl|]. repeat pair_step.
Qed.

Lemma cut_short_move_file p dest :
  cut_short self (move_file W self p dest)
            (move_file (I := no_ctrl_c) W self p dest).
Proof.
  unfold move_file. destruct dest as [d|]; [|apply cut_short_refl].
  apply cut_short_bind.
  - apply cut_short_try; [apply cut_short_refl| |done].
    intros e. destruct (is_Exception e); [|done]. repeat pair_step.
  - intros [b|]; [apply cut_short_refl|].
    apply cut_short_try; [| |done].
    + cbv zeta. apply cut_short_bind; [apply cut_short_refl|]. intros f.
      destruct (negb _).
      * apply cut_short_bind; [apply cut_short_log|]. intros _.
        apply cut_short_refl.
      * apply cut_short_bind; [apply cut_short_refl|]. intros dst.
        apply cut_short_bind; [apply cut_short_refl|]. intros _.
        apply cut_short_bind; [apply cut_short_log|]. intros _.
        apply cut_short_refl.
    + intros e. cbv zeta. destruct (is_FileNotFoundError e).
      * apply cut_short_bind; [apply cut_short_log|]. intros _.
        apply cut_short_refl.
      * destruct (is_Exception e); [|done].
        apply cut_short_bind; [apply cut_short_log|]. intros _.
        apply cut_short_refl.
Qed.

Lemma cut_short_route_failure p :
  cut_short self (route_failure W self p)
            (route_failure (I := no_ctrl_c) W self p).
Proof.
  unfold route_failure. destruct (failed_folder self).
  - apply cut_short_bind; [apply cut_short_move_file|]. intros _.
    apply cut_short_refl.
  - apply cut_short_refl.
Qed.

Lemma cut_short_sign_ipa p :
  cut_short self (sign_ipa W self p) (sign_ipa (I := no_ctrl_c) W self p).
Proof.
  unfold sign_ipa. cbv zeta.
  apply cut_short_bind; [apply cut_short_refl|]. intros claims.
  destruct (bool_decide _); [apply cut_short_refl|].
  apply cut_short_bind; [apply cut_short_log|]. intros _.
  apply cut_short_bind; [apply cut_short_refl|]. intros _.
  apply cut_short_bind; [apply cut_short_find_sign_tools|]. intros [exe|].
  2:{ apply cut_short_bind; [apply cut_short_log|]. intros _.
      apply cut_short_bind; [apply cut_short_log_searched|]. intros _.
      apply cut_short_bind; [apply cut_short_route_failure|]. intros _.
      apply cut_short_refl. }
  apply cut_short_try; [| |done].
  - apply cut_short_bind; [apply cut_short_log|]. intros _.
    apply cut_short_bind; [apply cut_short_refl|]. intros cp.
    destruct (returncode cp =? 0)%Z.
    + apply cut_short_bind; [apply cut_short_log|]. intros _.
      destruct (processed_folder self); [|apply cut_short_refl].
      apply cut_short_bind; [apply cut_short_move_file|]. intros _.
      apply cut_short_refl.
    + apply cut_short_bind; [apply cut_short_log|]. intros _.
      apply cut_short_bind; [apply cut_short_log|]. intros _.
      apply cut_short_bind; [apply cut_short_route_failure|]. intros _.
      apply cut_short_refl.
  - intros e. destruct (is_TimeoutExpired e).
    + apply cut_short_bind; [apply cut_short_log|]. intros _.
      apply cut_short_bind; [apply cut_short_route_failure|]. intros _.
      apply cut_short_refl.
    + destruct (is_Exception e); [|done].
      apply cut_short_bind; [apply cut_short_log|]. intros _.
      apply cut_short_bind; [apply cut_short_route_failure|]. intros _.
      apply cut_short_refl.
Qed.

Lemma cut_short_scan_candidate f :
  cut_short self (scan_candidate W self f)
            (scan_candidate (I := no_ctrl_c) W self f).
Proof.
  unfold scan_candidate.
  apply cut_short_bind; [apply cut_short_refl|]. intros claims.
  destruct (bool_decide _); [apply cut_short_refl|].
  apply cut_short_bind; [apply cut_short_refl|]. intros [|].
  - apply cut_short_bind; [apply cut_short_sign_ipa|]. intros _.
    apply cut_short_refl.
  - apply cut_short_refl.
Qed.

Lemma cut_short_scan_and_process :
  cut_short self (scan_and_process W self)
            (scan_and_process (I := no_ctrl_c) W self).
Proof.
  unfold scan_and_process.
  apply cut_short_bind; [apply cut_short_refl|]. intros _.
  apply cut_short_bind; [apply cut_short_refl|]. intros f.
  destruct (negb _); [apply cut_short_log|].
  cbv zeta. apply cut_short_for_each, cut_short_scan_candidate.
Qed.

Lemma cut_short_poll_loop cycles :
  cut_short self (poll_loop W self cycles)
            (poll_loop (I := no_ctrl_c) W self cycles).
Proof.
  induction cycles as [|n IH]; cbn [poll_loop].
  - apply cut_short_refl.
  - apply cut_short_bind; [apply cut_short_scan_and_process|]. intros _.
    apply cut_short_bind; [apply cut_short_refl|]. by intros _.
Qed.

End CutShort.

(** X28: a Ctrl+C that arrives while a line is written to the log file
    only cuts a scan short. Whatever the schedule of such interrupts, a
    scan either runs exactly as it does without them, to the same result
    and the same state, or it ends with the [KeyboardInterrupt] of a log
    write that was cut; in particular a scan that returns has run
    undisturbed. *)
Theorem scan_interrupts_only_cut_short {I : Interrupts} W self st r st' :
  scan_and_process W self st = (r, st') →
  scan_and_process (I := no_ctrl_c) W self st = (r, st')
  ∨ (r = Raise KeyboardInterrupt ∧ cut self).
Proof. apply cut_short_scan_and_process. Qed.

Lemma scan_interrupts_only_cut_short_witness :
  let st := Scenario.boot Scenario.disk ∅ in
  let st' := (scan_and_process (I := ctrl_c_at_once) Scenario.calm
                Cases.misled st).2 in
  scan_and_process (I := no_ctrl_c) Scenario.calm Cases.misled st
  = (Raise KeyboardInterrupt, st')
  ∨ (@Raise unit KeyboardInterrupt = Raise KeyboardInterrupt
     ∧ cut (I := ctrl_c_at_once) Cases.misled).
Proof.
  intros st st'.
  apply (scan_interrupts_only_cut_short (I := ctrl_c_at_once) Scenario.calm
           Cases.misled st (Raise KeyboardInterrupt) st').
  vm_compute. reflexivity.
Defined.

(** X29: the same for a signing job: whatever the schedule of interrupts,
    [sign_ipa] either runs exactly as it does without them or ends with
    the [KeyboardInterrupt] of a log write that was cut; the path it
    claimed may then be left claimed. *)
Theorem sign_interrupts_only_cut_short {I : Interrupts} W self p st r st' :
  sign_ipa W self p st = (r, st') →
  sign_ipa (I := no_ctrl_c) W self p st = (r, st')
  ∨ (r = Raise KeyboardInterrupt ∧ cut self).
Proof. apply cut_short_sign_ipa. Qed.

Lemma sign_interrupts_only_cut_short_witness :
  let st := Scenario.boot Scenario.disk ∅ in
  let st' := (sign_ipa Scenario.calm Scenario.signer Scenario.app st).2 in
  sign_ipa (I := no_ctrl_c) Scenario.calm Scenario.signer Scenario.app st
  = (Ok true, st')
  ∨ (Ok true = Raise KeyboardInterrupt ∧ cut Scenario.signer).
Proof.
  intros st st'.
  apply (sign_interrupts_only_cut_short Scenario.calm Scenario.signer
           Scenario.app st (Ok true) st').
  vm_compute. reflexivity.
Defined.

(** With a log file and Ctrl+C at the first line written to it, the job is
    left with its path claimed and nothing else done. *)
Example sign_ipa_cut_at_first_line :
  let st := Scenario.boot Scenario.disk ∅ in
  let out := sign_ipa (I := ctrl_c_at_once) Scenario.calm Cases.misled
               Scenario.app st in
  out.1 = Raise KeyboardInterrupt
  ∧ events_of st out.2 = []
  ∧ processed_files out.2 = ∅
  ∧ console out.2 = ["[2026-01-01 12:00:00] [INFO] Processing: app.ipa"].
Proof. vm_compute. done. Qed.

(** ** The claims on [move_file] *)

(** A failing [mkdir] makes [move_file] give up with the claim untouched. *)
Lemma move_file_mkdir_failure W self p d st e st1 :
  mkdir W d st = (Raise e, st1) → is_Exception e = true →
  ∃ st', move_file W self p (Some d) st = (Ok false, st')
         ∧ processed_files st' = processed_files st.
Proof.
  intros Hmk He. destruct (move_file W self p (Some d) st) as [r st'] eqn:H.
  apply move_file_some in H as (rm & st1' & Hmk' & H).
  rewrite Hmk in Hmk'. injection Hmk' as <- <-.
  destruct H as (_ & _ & Hc & ->). rewrite He. eauto.
Qed.

(** C1 (the code departs from the claim): when the destination folder
    cannot be created, [move_file] logs the failure and returns [False]
    without releasing the claim. Evaluated on a claimed [app.ipa] and a
    processed folder whose creation is refused: the path is still in
    [processed_files] afterwards, the file is still in the watch folder, and
    the next [scan_and_process] skips it without reading its size. *)
Theorem move_file_unreachable_destination_keeps_claim :
  let st := Scenario.boot Scenario.fresh {[Scenario.app]} in
  let '(r, st') :=
    move_file Scenario.readonly Scenario.signer Scenario.app
              (Some Scenario.done) st in
  r = Ok false
  ∧ events_of st st'
    = [EvMkdir Scenario.done (Raise (PermissionError "Permission denied"))]
  ∧ Scenario.app ∈ processed_files st'
  ∧ fs st' !! Scenario.app = Some (File "payload" false)
  ∧ let '(r2, st'') :=
      scan_and_process Scenario.readonly Scenario.signer st' in
    r2 = Ok tt ∧ events_of st' st'' = [EvScan]
    ∧ Scenario.app ∈ processed_files st''.
Proof.
  vm_compute. repeat split; reflexivity.
Qed.

Lemma no_cut self : ¬ cut (I := no_ctrl_c) self.
Proof. by intros [_ [t ?]]. Qed.

Lemma mkdir_ticks W d st r st1 :
  mkdir W d st = (r, st1) → ticks st1 = S (ticks st).
Proof.
  unfold mkdir.
  destruct (is_file (fs st) d); [|destruct (existsb _ _);
    [|destruct (mkdir_fault _ _ _)]]; by intros [= <- <-].
Qed.




(** C3 (the code departs from the claim): the mover looks for a free name
    once and does not look whether the name with the time stamp is free.
    Evaluated with [app.ipa] and [app_20260101_120000.ipa] both in the
    processed folder and a move of [app.ipa] at 12:00:00 on 2026-01-01: the
    move goes onto the second file and replaces its contents. Three files
    were handed in, two are left. *)
Theorem move_file_overwrites_timestamped_name :
  let st := Scenario.boot Scenario.crowded {[Scenario.app]} in
  let taken := Scenario.done // "app_20260101_120000.ipa" in
  let '(r, st') :=
    move_file Scenario.calm Scenario.signer Scenario.app
              (Some Scenario.done) st in
  fs st !! (Scenario.done // name Scenario.app) = Some (File "first" false)
  ∧ fs st !! taken = Some (File "second" false)
  ∧ fs st !! Scenario.app = Some (File "payload" false)
  ∧ r = Ok true
  ∧ events_of st st'
    = [EvMkdir Scenario.done (Ok tt); EvMove Scenario.app taken (Ok taken)]
  ∧ fs st' !! taken = Some (File "payload" false)
  ∧ fs st' !! (Scenario.done // name Scenario.app) = Some (File "first" false)
  ∧ fs st' !! Scenario.app = None
  ∧ length (glob_ipa (fs st') Scenario.done) = 2%nat.
Proof.
  vm_compute. repeat split; reflexivity.
Qed.

(** X27: when the name of the moved file is taken at the destination, the
    move goes to [<stem>_<timestamp><suffix>] in the destination folder,
    with the time read once, right after the folder was ensured. When that
    name is free, the file arrives under it and every other entry of the
    file system, the same-named file included, is left as it was; when it
    is the name of a regular file, that file is replaced by the moved
    one. *)
Theorem move_file_collision {I : Interrupts} W self p d st r st' dst q node :
  move_file W self p (Some d) st = (r, st') →
  fs st !! p = Some node →
  exists_ (fs st) (d // name p) = true →
  EvMove p dst (Ok q) ∈ events_of st st' →
  dst = d // (stem p +:+ "_" +:+ strftime_compact (now W (S (ticks st)))
              +:+ suffix p)
  ∧ (exists_ (fs st) dst = false →
     q = dst ∧ fs st' !! dst = Some node
     ∧ ∀ x n, x ≠ p → fs st !! x = Some n → fs st' !! x = Some n)
  ∧ (is_file (fs st) dst = true → q = dst ∧ fs st' !! dst = Some node).
Proof.
  intros H Hp Hcol Hev.
  apply move_file_run in H as (rm & st1 & Hmk & H).
  pose proof (mkdir_ticks _ _ _ _ _ Hmk) as Hticks.
  apply mkdir_cases in Hmk as (Hc1 & Ht1 & Hf1).
  destruct rm as [[]|e].
  2:{ destruct H as (Ht & _). rewrite Ht1 in Ht.
      rewrite (events_of_app _ _ _ Ht) in Hev. pick_event Hev; done. }
  destruct Hf1 as [Hf1 _].
  assert (Hcol1 : exists_ (fs st1) (d // name p) = true).
  { unfold exists_ in *. rewrite Hf1.
    destruct (fs st !! (d // name p)) as [n|] eqn:E; [|done].
    by rewrite (make_dirs_keeps _ _ _ _ E). }
  destruct H as [(_ & Ht & _) | (dst0 & rmv & Hex & Hdst & Ht & H)].
  { rewrite Ht1 in Ht. rewrite (events_of_app _ _ _ Ht) in Hev.
    pick_event Hev; done. }
  rewrite Ht1, <- app_assoc in Ht.
  rewrite (events_of_app _ _ _ Ht) in Hev.
  assert (dst0 = dst ∧ rmv = Ok q) as [-> ->].
  { pick_event Hev; [done|]. by injection Hev as <- <-. }
  rewrite Hcol1, Hticks in Hdst. split; [done|].
  destruct H as ((node' & Hp1 & Hfs & Hq) & _).
  rewrite Hf1, (make_dirs_keeps _ _ _ _ Hp) in Hp1. injection Hp1 as <-.
  assert (Hlen : (length d < length dst)%nat).
  { rewrite Hdst. unfold joinpath. rewrite length_app. cbn. lia. }
  split.
  - intros Hfree.
    assert (Hdst1 : fs st1 !! dst = None).
    { rewrite Hf1, make_dirs_below by done. unfold exists_ in Hfree.
      by destruct (fs st !! dst). }
    assert (q = dst) as ->.
    { destruct Hq as [[-> _] | (_ & Hd & _)]; [done|].
      unfold is_dir in Hd. by rewrite Hdst1 in Hd. }
    split; [done|]. rewrite Hfs. split; [by rewrite lookup_insert_eq|].
    intros x n Hx Hn. rewrite lookup_insert_ne.
    + rewrite lookup_delete_ne by done. rewrite Hf1.
      by apply make_dirs_keeps.
    + intros <-. rewrite Hf1, (make_dirs_keeps _ _ _ _ Hn) in Hdst1. done.
  - intros Hfile.
    assert (is_dir (fs st1) dst = false) as Hnd.
    { unfold is_file in Hfile. unfold is_dir. rewrite Hf1.
      destruct (fs st !! dst) as [[]|] eqn:E; try done.
      by rewrite (make_dirs_keeps _ _ _ _ E). }
    assert (q = dst) as ->.
    { destruct Hq as [[-> _] | (_ & Hd & _)]; [done|congruence]. }
    split; [done|]. rewrite Hfs. by rewrite lookup_insert_eq.
Qed.

Lemma move_file_collision_witness :
  let st := Scenario.boot Scenario.disk {[Scenario.app]} in
  let dst := Scenario.done // "app_20260101_120000.ipa" in
  let st' := (move_file Scenario.calm Scenario.signer Scenario.app
                (Some Scenario.done) st).2 in
  dst = Scenario.done // (stem Scenario.app +:+ "_"
                          +:+ strftime_compact
                                (now Scenario.calm (S (ticks st)))
                          +:+ suffix Scenario.app)
  ∧ (exists_ (fs st) dst = false →
     dst = dst ∧ fs st' !! dst = Some (File "payload" false)
     ∧ ∀ x n, x ≠ Scenario.app → fs st !! x = Some n → fs st' !! x = Some n)
  ∧ (is_file (fs st) dst = true →
     dst = dst ∧ fs st' !! dst = Some (File "payload" false)).
Proof.
  intros st dst st'.
  apply (move_file_collision Scenario.calm Scenario.signer Scenario.app
           Scenario.done st (Ok true) st' dst dst (File "payload" false)).
  - vm_compute. reflexivity.
  - vm_compute. reflexivity.
  - vm_compute. reflexivity.
  - apply list_elem_of_In. vm_compute. right. left. reflexivity.
Defined.

(** ** The claims on [sign_ipa] *)


Lemma routing_not_spawn evs cmd t r :
  Forall routing evs → EvSpawn cmd t r ∉ evs.
Proof.
  intros Hall Hin. rewrite Forall_forall in Hall. exact (Hall _ Hin).
Qed.




(** C5: every signer process [sign_ipa] spawns is run with a timeout of
    1800 seconds on the executable found just before, followed by the
    headless flag, [-ipa] and the input path, [-profile] and the profile
    name, [-output] and the output path; then [-args] and the extra
    arguments exactly when [sign_args] is a non-empty string, then
    [-bundle-id] and the identifier exactly when a (non-empty) bundle id is
    configured. *)
Theorem sign_ipa_command W self p st r st' cmd t res :
  sign_ipa W self p st = (r, st') →
  EvSpawn cmd t res ∈ events_of st st' →
  t = 1800%N
  ∧ ∃ exe,
      EvResolve (Some exe) ∈ events_of st st'
      ∧ cmd = [ str_path exe; "-headless";
                "-ipa"; str_path p;
                "-profile"; profile self;
                "-output";
                str_path (output_folder self // (stem p +:+ "_signed.ipa")) ]
              ++ (if truthy (sign_args self)
                  then ["-args"; sign_args self] else [])
              ++ (if truthy_opt (bundle_id self)
                  then ["-bundle-id"; default "" (bundle_id self)] else []).
Proof.
  intros H Hin. destruct (decide (p ∈ processed_files st)) as [Hp|Hp].
  { rewrite sign_ipa_claimed in H by done. injection H as _ <-.
    rewrite events_of_refl in Hin. by apply elem_of_nil in Hin. }
  apply sign_ipa_frame in H as ((found & spawned & evs & Ht & Hev & Hsp) & _);
    [|done].
  rewrite (events_of_app _ _ _ Ht) in Hin |- *.
  apply elem_of_cons in Hin as [?|Hin]; [done|].
  apply elem_of_app in Hin as [Hin|Hin]; [|by apply routing_not_spawn in Hin].
  destruct found as [exe|]; [|subst; by apply elem_of_nil in Hin].
  destruct Hsp as [res0 ->]. apply list_elem_of_singleton in Hin.
  injection Hin as -> -> ->. split; [done|]. exists exe.
  split; [by left|]. unfold build_cmd, truthy_opt.
  destruct (truthy (sign_args self)); destruct (bundle_id self) as [b|];
    cbn [default]; try destruct (truthy b); reflexivity.
Qed.

Lemma sign_ipa_command_witness :
  let st := Scenario.boot Scenario.disk ∅ in
  let st' := (sign_ipa Scenario.calm Scenario.signer Scenario.app st).2 in
  1800%N = 1800%N
  ∧ ∃ exe,
      EvResolve (Some exe) ∈ events_of st st'
      ∧ [ "/opt/signtools/SignTools"; "-headless"; "-ipa"; "/watch/app.ipa";
          "-profile"; "dev"; "-output"; "/out/app_signed.ipa";
          "-args"; "-a -d"; "-bundle-id"; "com.example.app" ]
        = [ str_path exe; "-headless";
            "-ipa"; str_path Scenario.app;
            "-profile"; profile Scenario.signer;
            "-output";
            str_path (output_folder Scenario.signer
                      // (stem Scenario.app +:+ "_signed.ipa")) ]
          ++ (if truthy (sign_args Scenario.signer)
              then ["-args"; sign_args Scenario.signer] else [])
          ++ (if truthy_opt (bundle_id Scenario.signer)
              then ["-bundle-id"; default "" (bundle_id Scenario.signer)]
              else []).
Proof.
  intros st st'.
  apply (sign_ipa_command Scenario.calm Scenario.signer Scenario.app st
           (Ok true) st' _ 1800 (Ok (mkCompleted 0 "" ""))).
  - vm_compute. reflexivity.
  - apply list_elem_of_In. vm_compute. right. left. reflexivity.
Defined.

(** ** Lemmas on the scan *)

Lemma st_size_raises f p e : st_size f p = Raise e → is_OSError e = true.
Proof. unfold st_size. by destruct (f !! p) as [[]|]; intros [= <-]. Qed.

Section Scanning.

Variable W : World.

(** Every way the loop body can go on a candidate that is not claimed:
    [s2] is the state after the second reading of the size. *)
Lemma scan_candidate_cases self f st r st' :
  f ∉ processed_files st →
  scan_candidate W self f st = (r, st') →
  (∃ e, st' = record (EvStat f (Raise e)) st ∧ r = Ok tt)
  ∨ ∃ n1 r2 s2,
      processed_files s2 = processed_files st
      ∧ console s2 = console st
      ∧ trace s2 = trace st ++ [EvStat f (Ok n1); EvSleep 500; EvStat f r2]
      ∧ match r2 with
        | Ok n2 =>
            if Nat.eqb n1 n2
            then ∃ rs, sign_ipa W self f s2 = (rs, st')
                       ∧ r = match rs with Ok _ => Ok tt | Raise e => Raise e end
            else st' = s2 ∧ r = Ok tt
        | Raise _ => st' = s2 ∧ r = Ok tt
        end.
Proof.
  intros Hf H. unfold scan_candidate in H. exec in H.
  rewrite bool_decide_eq_false_2 in H by done.
  unfold stat_size, sleep in H. exec in H. cbn [fs set_fs record tick] in H.
  destruct (st_size (fs st) f) as [n1|e] eqn:H1; exec in H.
  - right.
    match type of H with
    | context [record (EvStat f ?r2) ?s] =>
        match r2 with
        | Ok _ => fail 1
        | _ => exists n1, r2, (record (EvStat f r2) s);
               destruct r2 as [n2|e] eqn:H2
        end
    end; exec in H; frames; rewrite <- !app_assoc; do 3 (split; [done|]).
    + destruct (Nat.eqb n1 n2); exec in H; [|by injection H as <- <-].
      match type of H with
      | context [sign_ipa W self f ?s] =>
          destruct (sign_ipa W self f s) as [rs ss] eqn:Hs
      end.
      exists rs. by destruct rs; injection H as <- <-.
    + rewrite (st_size_raises _ _ _ H2) in H. by injection H as <- <-.
  - left. exists e. rewrite (st_size_raises _ _ _ H1) in H.
    by injection H as <- <-.
Qed.

Lemma scan_candidate_claimed self f st :
  f ∈ processed_files st → scan_candidate W self f st = (Ok tt, st).
Proof.
  intros H. unfold scan_candidate. exec. by rewrite bool_decide_eq_true_2.
Qed.

(** The loop body only appends to the trace, and of the claim set it
    touches nothing but its own candidate. *)
Lemma scan_candidate_frame self f st r st' :
  scan_candidate W self f st = (r, st') →
  (∃ evs, trace st' = trace st ++ evs)
  ∧ ∀ p, p ≠ f → p ∈ processed_files st' ↔ p ∈ processed_files st.
Proof.
  intros H. destruct (decide (f ∈ processed_files st)) as [Hf|Hf].
  { rewrite scan_candidate_claimed in H by done. injection H as _ <-.
    split; [|done]. exists []. by rewrite app_nil_r. }
  apply scan_candidate_cases in H
    as [(e & -> & _) | (n1 & r2 & s2 & Hc & _ & Ht & H)]; [| |done].
  { split; [by eexists|done]. }
  assert (∀ rs, sign_ipa W self f s2 = (rs, st') →
            (∃ evs, trace st' = trace st ++ evs)
            ∧ ∀ p, p ≠ f → p ∈ processed_files st' ↔ p ∈ processed_files st)
    as Hsign.
  { intros rs Hs.
    apply sign_ipa_frame in Hs as ((found & sp & evs & Hts & _) & Hcs);
      [|by rewrite Hc].
    split; [eexists; by rewrite Hts, Ht, <- app_assoc|].
    intros p Hp. rewrite Hc in Hcs. destruct Hcs as [-> | ->]; set_solver. }
  assert ((∃ evs, trace s2 = trace st ++ evs)
          ∧ ∀ p, p ≠ f → p ∈ processed_files s2 ↔ p ∈ processed_files st)
    as Hskip.
  { split; [by eexists|]. intros p _. by rewrite Hc. }
  destruct r2 as [n2|e]; [destruct (Nat.eqb n1 n2)|].
  - destruct H as (rs & Hs & _). eauto.
  - by destruct H as [-> _].
  - by destruct H as [-> _].
Qed.

Lemma for_each_candidates_frame self l : ∀ st r st',
  for_each l (scan_candidate W self) st = (r, st') →
  (∃ evs, trace st' = trace st ++ evs)
  ∧ ∀ p, p ∈ processed_files st → p ∈ processed_files st'.
Proof.
  induction l as [|f l IH]; intros st r st' H; cbn [for_each] in H.
  - exec in H. injection H as _ <-. split; [|done].
    exists []. by rewrite app_nil_r.
  - unfold bind in H.
    destruct (scan_candidate W self f st) as [r1 s1] eqn:H1.
    assert ((∃ evs, trace s1 = trace st ++ evs)
            ∧ ∀ p, p ∈ processed_files st → p ∈ processed_files s1)
      as [[evs1 Ht1] Hc1].
    { destruct (decide (f ∈ processed_files st)) as [Hf|Hf].
      - rewrite scan_candidate_claimed in H1 by done. injection H1 as _ <-.
        split; [|done]. exists []. by rewrite app_nil_r.
      - apply scan_candidate_frame in H1 as [Ht Hc]. split; [done|].
        intros p Hp. apply Hc; [|done]. by intros ->. }
    destruct r1 as [[]|e].
    + apply IH in H as [[evs Ht] Hc]. split; [|by eauto].
      exists (evs1 ++ evs). by rewrite Ht, Ht1, app_assoc.
    + injection H as _ <-. eauto.
Qed.

(** A scan opens with its own event and releases no claim it did not
    take itself. *)
Lemma scan_and_process_frame self st r st' :
  scan_and_process W self st = (r, st') →
  (∃ evs, trace st' = trace st ++ EvScan :: evs)
  ∧ ∀ p, p ∈ processed_files st → p ∈ processed_files st'.
Proof.
  unfold scan_and_process. exec. cbn [fs record].
  destruct (exists_ (fs st) (watch_folder self)); exec.
  - intros H. apply for_each_candidates_frame in H as [[evs Ht] Hc].
    cbn [trace record] in Ht. split; [|done].
    exists evs. by rewrite Ht, <- app_assoc.
  - intros [= <- <-]. frames. split; [by eexists|done].
Qed.

(** A sleep either is refused, and then nothing has happened, or leaves
    its event; it prints nothing and touches no claim. *)
Lemma sleep_frame ms st r st' :
  sleep W ms st = (r, st') →
  (r = Raise (ValueError "sleep length must be non-negative")
   ∧ (ms < 0)%Z ∧ st' = st)
  ∨ (r = Ok tt ∧ (0 ≤ ms)%Z
     ∧ trace st' = trace st ++ [EvSleep ms]
     ∧ processed_files st' = processed_files st
     ∧ console st' = console st
     ∧ logfile st' = logfile st).
Proof.
  unfold sleep. destruct ms; intros [= <- <-]; [right|right|left]; done.
Qed.

Lemma poll_loop_frame self cycles : ∀ st r st',
  poll_loop W self cycles st = (r, st') →
  ∃ evs, trace st' = trace st ++ evs
    ∧ match cycles with
      | 0 => evs = []
      | S _ => ∃ rest, evs = EvScan :: rest
      end.
Proof.
  induction cycles as [|n IH]; intros st r st' H; cbn [poll_loop] in H.
  - exec in H. injection H as _ <-. exists []. by rewrite app_nil_r.
  - unfold bind in H.
    destruct (scan_and_process W self st) as [r1 s1] eqn:H1.
    apply scan_and_process_frame in H1 as [[evs1 Ht1] _].
    destruct r1 as [[]|e]; [|injection H as _ <-; eauto].
    destruct (sleep W (poll_interval self) s1) as [r2 s2] eqn:Hs.
    apply sleep_frame in Hs as [(-> & _ & ->) | (-> & _ & Ht2 & _)].
    + injection H as _ <-. eauto.
    + apply IH in H as (evs & Ht & _).
      exists (EvScan :: evs1 ++ [EvSleep (poll_interval self)] ++ evs).
      split; [|by eauto]. rewrite Ht, Ht2, Ht1, <- !app_assoc. done.
Qed.

End Scanning.

(** ** The steps that print nothing *)

Section Quiet.

Variable W : World.

Lemma quiet_mkdir d st r st1 :
  mkdir W d st = (r, st1) →
  console st1 = console st ∧ logfile st1 = logfile st.
Proof.
  unfold mkdir.
  destruct (is_file (fs st) d); [|destruct (existsb _ _);
    [|destruct (mkdir_fault _ _ _)]]; by intros [= <- <-].
Qed.

Lemma quiet_shutil_move src dst st r st1 :
  shutil_move W src dst st = (r, st1) →
  console st1 = console st ∧ logfile st1 = logfile st.
Proof.
  unfold shutil_move.
  destruct (move_fault _ _ _ _); [by intros [= <- <-]|].
  destruct (fs st !! src); [|by intros [= <- <-]].
  destruct (is_dir (fs st) dst); [destruct (exists_ _ _)|];
    by intros [= <- <-].
Qed.

Lemma quiet_pick_dest_path d p st r st1 :
  pick_dest_path W d p st = (r, st1) →
  console st1 = console st ∧ logfile st1 = logfile st.
Proof.
  unfold pick_dest_path, datetime_now. exec.
  destruct (exists_ (fs st) (d // name p)); by intros [= <- <-].
Qed.

Lemma quiet_subprocess_run cmd t st r st1 :
  subprocess_run_ W cmd t st = (r, st1) →
  console st1 = console st ∧ logfile st1 = logfile st.
Proof.
  unfold subprocess_run_. destruct (subprocess_run W _ _ _).
  by intros [= <- <-].
Qed.

Lemma console_subprocess_run cmd t st r st1 :
  subprocess_run_ W cmd t st = (r, st1) → console st1 = console st.
Proof. intros H. by apply quiet_subprocess_run in H as [? _]. Qed.

End Quiet.

Lemma not_Exception e : is_Exception e = false → e = KeyboardInterrupt.
Proof. by destruct e. Qed.

(** ** Every run, whenever Ctrl+C comes *)

(** The rules by which a property of the output and the exceptions that
    can leave are carried through the script, for every schedule of
    interrupts. *)
Section Runs.

Context {I : Interrupts}.
Variable W : World.
Variable self : Signer.
Variable R : State → State → Prop.
Variable P : Event → Prop.
Variable mine : Path → Prop.

Hypothesis R_trans : ∀ s1 s2 s3, R s1 s2 → R s2 s3 → R s1 s3.
Hypothesis R_log : ∀ m l st, R st (log_state W self m l st).
Hypothesis R_cut : ∀ m l st, R st (log_cut W self m l st).
Hypothesis R_step : ∀ st st' evs,
  console st' = console st → logfile st' = logfile st →
  (∀ q, ¬ mine q → q ∈ processed_files st' ↔ q ∈ processed_files st) →
  trace st' = trace st ++ evs → Forall P evs →
  R st st'.
Hypothesis P_inner : ∀ ev, inner ev → P ev.

Lemma R_same st : R st st.
Proof. apply (R_step _ _ []); by rewrite ?app_nil_r. Qed.

Lemma runs_ret {A} E (a : A) : runs R E (ret a).
Proof. intros st r st' [= <- <-]. split; [apply R_same|done]. Qed.


Lemma runs_bind {A B} E (m : M A) (k : A → M B) :
  runs R E m → (∀ a, runs R E (k a)) → runs R E (bind m k).
Proof.
  intros Hm Hk st r st' H. unfold bind in H.
  destruct (m st) as [r1 s1] eqn:H1. apply Hm in H1 as [R1 E1].
  destruct r1 as [a|e].
  - apply Hk in H as [R2 E2]. split; [by eapply R_trans|done].
  - injection H as <- <-. split; [done|]. intros ? [= <-]. by apply E1.
Qed.

Lemma runs_weaken {A} (E E' : Exn → Prop) (m : M A) :
  (∀ e, E e → E' e) → runs R E m → runs R E' m.
Proof.
  intros HE Hm st r st' H. apply Hm in H as [R1 E1]. split; [done|].
  intros e He. by apply HE, E1.
Qed.

Lemma runs_try {A} E E' (m : M A) h :
  runs R E m →
  (∀ e, E e → match h e with
              | Some k => runs R E' k
              | None => E' e
              end) →
  runs R E' (try_except m h).
Proof.
  intros Hm Hh st r st' H. unfold try_except in H.
  destruct (m st) as [r1 s1] eqn:H1. apply Hm in H1 as [R1 E1].
  destruct r1 as [a|e].
  - injection H as <- <-. by split.
  - specialize (Hh e (E1 e eq_refl)). destruct (h e) as [k|].
    + apply Hh in H as [R2 E2]. split; [by eapply R_trans|done].
    + injection H as <- <-. split; [done|]. by intros ? [= <-].
Qed.

Lemma runs_for_each {A} E (l : list A) (body : A → M unit) :
  (∀ a, a ∈ l → runs R E (body a)) → runs R E (for_each l body).
Proof.
  induction l as [|a l IH]; intros Hb; cbn [for_each].
  - apply runs_ret.
  - apply runs_bind; [apply Hb; by left|]. intros _. apply IH.
    intros b Hin. apply Hb. by right.
Qed.

(** The steps that print nothing. *)
Lemma runs_get_fs E : runs R E get_fs.
Proof. intros st r st' [= <- <-]. split; [apply R_same|done]. Qed.

Lemma runs_get_claims E : runs R E get_claims.
Proof. intros st r st' [= <- <-]. split; [apply R_same|done]. Qed.

Lemma runs_emit E ev : P ev → runs R E (emit ev).
Proof.
  intros Hev st r st' [= <- <-]. split; [|done].
  apply (R_step _ _ [ev]); try done. by apply Forall_singleton.
Qed.

Lemma runs_claims_add E p : mine p → runs R E (claims_add p).
Proof.
  intros Hp st r st' [= <- <-]. split; [|done].
  apply (R_step _ _ []); cbn; rewrite ?app_nil_r; try done.
  intros q Hq. assert (q ≠ p) by (by intros ->). set_solver.
Qed.

Lemma runs_claims_discard E p : mine p → runs R E (claims_discard p).
Proof.
  intros Hp st r st' [= <- <-]. split; [|done].
  apply (R_step _ _ []); cbn; rewrite ?app_nil_r; try done.
  intros q Hq. assert (q ≠ p) by (by intros ->). set_solver.
Qed.

Lemma runs_datetime_now E : runs R E (datetime_now W).
Proof.
  intros st r st' [= <- <-]. split; [|done].
  apply (R_step _ _ []); cbn; by rewrite ?app_nil_r.
Qed.

Lemma runs_mkdir d : runs R any_exn (mkdir W d).
Proof.
  intros st r st' H. split; [|done].
  pose proof (quiet_mkdir _ _ _ _ _ H) as [Hc Hl].
  apply mkdir_cases in H as (Hcl & Ht & _).
  refine (R_step _ _ _ Hc Hl _ Ht _); [by rewrite Hcl|].
  by apply Forall_singleton, P_inner.
Qed.

Lemma runs_shutil_move src dst : runs R any_exn (shutil_move W src dst).
Proof.
  intros st r st' H. split; [|done].
  pose proof (quiet_shutil_move _ _ _ _ _ _ H) as [Hc Hl].
  apply shutil_move_cases in H as (Hcl & Ht & _).
  refine (R_step _ _ _ Hc Hl _ Ht _); [by rewrite Hcl|].
  by apply Forall_singleton, P_inner.
Qed.

Lemma runs_subprocess_run cmd t : runs R any_exn (subprocess_run_ W cmd t).
Proof.
  intros st r st' H. split; [|done].
  pose proof (quiet_subprocess_run _ _ _ _ _ _ H) as [Hc Hl].
  apply subprocess_run_cases in H as (Hcl & Ht).
  refine (R_step _ _ _ Hc Hl _ Ht _); [by rewrite Hcl|].
  by apply Forall_singleton, P_inner.
Qed.

Lemma runs_stat_size p :
  (∀ r, P (EvStat p r)) → runs R os_error (stat_size p).
Proof.
  intros HP st r st' [= <- <-]. split.
  - apply (R_step _ _ [EvStat p (st_size (fs st) p)]); try done.
    by apply Forall_singleton.
  - intros e He. by apply st_size_raises in He.
Qed.

Lemma runs_sleep ms :
  P (EvSleep ms) →
  runs R (λ e, (ms < 0)%Z ∧ e = ValueError "sleep length must be non-negative")
       (sleep W ms).
Proof.
  intros HP st r st' H.
  apply sleep_frame in H as [(-> & Hms & ->) | (-> & _ & Ht & Hcl & Hc & Hl)].
  - split; [apply R_same|]. by intros ? [= <-].
  - split; [|done]. refine (R_step _ _ _ Hc Hl _ Ht _); [by rewrite Hcl|].
    by apply Forall_singleton.
Qed.

Lemma runs_sleep_wait E : P (EvSleep 500) → runs R E (sleep W 500).
Proof.
  intros HP st r st' H. apply (runs_sleep _ HP) in H as [HR HE].
  split; [done|]. intros e ->. destruct (HE e eq_refl) as [? _]. lia.
Qed.

Lemma runs_log E m l : E KeyboardInterrupt → runs R E (log W self m l).
Proof.
  intros He st r st' H. rewrite log_run in H.
  destruct (log_is_cut self st); injection H as <- <-.
  - split; [apply R_cut|]. by intros ? [= <-].
  - split; [apply R_log|done].
Qed.

(** Take a computation apart along the rules. *)
Ltac step :=
  first
    [ apply runs_ret
    | apply runs_get_fs | apply runs_get_claims
    | apply runs_emit; by apply P_inner
    | apply runs_claims_add; assumption
    | apply runs_claims_discard; assumption
    | apply runs_datetime_now
    | apply runs_log; first [reflexivity | done | by left]
    | apply runs_bind; [|intros ?]
    | match goal with
      | |- runs _ _ (match ?x with _ => _ end) => destruct x
      | |- runs _ _ (let _ := _ in _) => cbv zeta
      end ].

Lemma runs_log_info E m : E KeyboardInterrupt → runs R E (log_info W self m).
Proof. apply runs_log. Qed.

Lemma runs_log_searched : runs R only_interrupt (log_searched W self).
Proof. unfold log_searched. repeat step. Qed.

Lemma runs_find_sign_tools : runs R only_interrupt (find_sign_tools W self).
Proof. unfold find_sign_tools, or_else. repeat step. Qed.

Lemma runs_pick_dest_path E d p : runs R E (pick_dest_path W d p).
Proof. unfold pick_dest_path. repeat step. Qed.

Lemma runs_move_file p dest :
  mine p → runs R only_interrupt (move_file W self p dest).
Proof.
  intros Hp.   unfold move_file. destruct dest as [d|]; [|repeat step].
  apply runs_bind.
  - apply (runs_try any_exn).
    + apply runs_bind; [apply runs_mkdir|intros _; apply runs_ret].
    + intros e _. destruct (is_Exception e) eqn:He.
      * repeat step.
      * by apply not_Exception in He.
  - intros [b|]; [apply runs_ret|].
    apply (runs_try any_exn).
    + cbv zeta. apply runs_bind; [apply runs_get_fs|]. intros f.
      destruct (negb _).
      * apply (runs_weaken only_interrupt); [done|]. repeat step.
      * apply runs_bind; [apply runs_pick_dest_path|]. intros dst.
        apply runs_bind; [apply runs_shutil_move|]. intros _.
        repeat first [apply runs_log_info; done | step].
    + intros e _. cbv zeta. destruct (is_FileNotFoundError e).
      * repeat step.
      * destruct (is_Exception e) eqn:He; [repeat step|].
        by apply not_Exception in He.
Qed.

Lemma runs_route_failure p :
  mine p → runs R only_interrupt (route_failure W self p).
Proof.
  intros Hp.   unfold route_failure. destruct (failed_folder self).
  - apply runs_bind; [by apply runs_move_file|]. intros _. apply runs_ret.
  - by apply runs_claims_discard.
Qed.

Lemma runs_sign_ipa p :
  mine p → runs R only_interrupt (sign_ipa W self p).
Proof.
  intros Hp.   unfold sign_ipa. cbv zeta.
  apply runs_bind; [apply runs_get_claims|]. intros claims.
  destruct (bool_decide _); [apply runs_ret|].
  apply runs_bind; [by apply runs_log_info|]. intros _.
  apply runs_bind; [by apply runs_claims_add|]. intros _.
  apply runs_bind; [apply runs_find_sign_tools|]. intros [exe|].
  2:{ repeat first [by apply runs_route_failure | apply runs_log_searched | step]. }
  apply (runs_try any_exn).
  - apply runs_bind; [by apply runs_log_info|]. intros _.
    apply runs_bind; [apply runs_subprocess_run|]. intros cp.
    apply (runs_weaken only_interrupt); [done|].
    destruct (returncode cp =? 0)%Z.
    + apply runs_bind; [by apply runs_log_info|]. intros _.
      destruct (processed_folder self).
      * apply runs_bind; [by apply runs_move_file|]. intros _. apply runs_ret.
      * repeat step.
    + repeat first [by apply runs_route_failure | step].
  - intros e _. destruct (is_TimeoutExpired e).
    + repeat first [by apply runs_route_failure | step].
    + destruct (is_Exception e) eqn:He.
      * repeat first [by apply runs_route_failure | step].
      * by apply not_Exception in He.
Qed.

Lemma runs_scan_candidate f :
  mine f → (∀ r, P (EvStat f r)) → P (EvSleep 500) →
  runs R only_interrupt (scan_candidate W self f).
Proof.
  intros Hf Hstat Hsleep. unfold scan_candidate.
  apply runs_bind; [apply runs_get_claims|]. intros claims.
  destruct (bool_decide _); [apply runs_ret|].
  apply runs_bind.
  - apply (runs_try os_error).
    + apply runs_bind; [by apply runs_stat_size|]. intros n1.
      apply runs_bind; [by apply runs_sleep_wait|]. intros _.
      apply runs_bind; [by apply runs_stat_size|]. intros n2. apply runs_ret.
    + intros e He. unfold os_error in He. rewrite He. apply runs_ret.
  - intros [|]; [|apply runs_ret].
    apply runs_bind; [by apply runs_sign_ipa|]. intros _. apply runs_ret.
Qed.

Hypothesis mine_all : ∀ p, mine p.
Hypothesis P_all : ∀ ev, P ev.

Lemma runs_scan_and_process : runs R only_interrupt (scan_and_process W self).
Proof.
  unfold scan_and_process.
  apply runs_bind; [by apply runs_emit|]. intros _.
  apply runs_bind; [apply runs_get_fs|]. intros f.
  destruct (negb _); [by apply runs_log|].
  cbv zeta. apply runs_for_each. intros c _. by apply runs_scan_candidate.
Qed.



End Runs.

Lemma inner_not_stat evs f res : Forall inner evs → EvStat f res ∉ evs.
Proof.
  intros Hall Hin. rewrite Forall_forall in Hall. exact (Hall _ Hin).
Qed.

Section InterruptedScanning.

Context {I : Interrupts}.
Variable W : World.

(** A signing job appends to the trace the events of a job only, and of
    the claim set it touches nothing but its own path. *)
Lemma sign_ipa_inner self p st r st' :
  sign_ipa W self p st = (r, st') →
  (∀ q, q ≠ p → q ∈ processed_files st' ↔ q ∈ processed_files st)
  ∧ ∃ evs, trace st' = trace st ++ evs ∧ Forall inner evs.
Proof.
  intros H.
  apply (runs_sign_ipa W self
           (λ s s', (∀ q, q ≠ p →
                       q ∈ processed_files s' ↔ q ∈ processed_files s)
                    ∧ ∃ evs, trace s' = trace s ++ evs ∧ Forall inner evs)
           inner (λ q, q = p)) in H as [H _]; try done.
  - intros s1 s2 s3 (C1 & a & T1 & F1) (C2 & b & T2 & F2). split.
    + intros q Hq. by rewrite C2, C1.
    + exists (a ++ b). rewrite T2, T1, app_assoc. split; [done|].
      by apply Forall_app.
  - intros m l s. rewrite claims_log_state, trace_log_state. split; [done|].
    exists []. by rewrite app_nil_r.
  - intros m l s. split; [done|]. exists []. by rewrite app_nil_r.
  - intros s s' evs _ _ Hc Ht Hall. split; [|by eauto].
    intros q Hq. by apply Hc.
Qed.

(** Every way the loop body can go on a candidate that is not claimed,
    whenever Ctrl+C comes:
    [s2] is the state after the second reading of the size. *)
Lemma scan_candidate_run self f st r st' :
  f ∉ processed_files st →
  scan_candidate W self f st = (r, st') →
  (∃ e, st' = record (EvStat f (Raise e)) st ∧ r = Ok tt)
  ∨ ∃ n1 r2 s2,
      processed_files s2 = processed_files st
      ∧ console s2 = console st
      ∧ trace s2 = trace st ++ [EvStat f (Ok n1); EvSleep 500; EvStat f r2]
      ∧ match r2 with
        | Ok n2 =>
            if Nat.eqb n1 n2
            then ∃ rs, sign_ipa W self f s2 = (rs, st')
                       ∧ r = match rs with Ok _ => Ok tt | Raise e => Raise e end
            else st' = s2 ∧ r = Ok tt
        | Raise _ => st' = s2 ∧ r = Ok tt
        end.
Proof.
  intros Hf H. unfold scan_candidate in H. exec in H.
  rewrite bool_decide_eq_false_2 in H by done.
  unfold stat_size, sleep in H. exec in H. cbn [fs set_fs record tick] in H.
  destruct (st_size (fs st) f) as [n1|e] eqn:H1; exec in H.
  - right.
    match type of H with
    | context [record (EvStat f ?r2) ?s] =>
        match r2 with
        | Ok _ => fail 1
        | _ => exists n1, r2, (record (EvStat f r2) s);
               destruct r2 as [n2|e] eqn:H2
        end
    end; exec in H; frames; rewrite <- !app_assoc; do 3 (split; [done|]).
    + destruct (Nat.eqb n1 n2); exec in H; [|by injection H as <- <-].
      match type of H with
      | context [sign_ipa W self f ?s] =>
          destruct (sign_ipa W self f s) as [rs ss] eqn:Hs
      end.
      exists rs. by destruct rs; injection H as <- <-.
    + rewrite (st_size_raises _ _ _ H2) in H. by injection H as <- <-.
  - left. exists e. rewrite (st_size_raises _ _ _ H1) in H.
    by injection H as <- <-.
Qed.

End InterruptedScanning.

(** ** The claims on the scan and on startup *)

(** C4: while a path is in the claim set it is not dispatched again: the
    membership test stops [sign_ipa], which returns [False] and leaves the
    state as it was (no log line, no process spawned), the loop body of the
    scan skips the candidate the same way, and a whole scan cycle leaves
    the path claimed. *)
Theorem claimed_path_not_dispatched W self p st :
  p ∈ processed_files st →
  sign_ipa W self p st = (Ok false, st)
  ∧ scan_candidate W self p st = (Ok tt, st)
  ∧ (∀ r st', scan_and_process W self st = (r, st') →
              p ∈ processed_files st').
Proof.
  intros Hp. split; [by apply sign_ipa_claimed|].
  split; [by apply scan_candidate_claimed|].
  intros r st' H. apply scan_and_process_frame in H as [_ Hc]. by apply Hc.
Qed.

Lemma claimed_path_not_dispatched_witness :
  let st := Scenario.boot Scenario.disk {[Scenario.app]} in
  sign_ipa Scenario.calm Scenario.signer Scenario.app st = (Ok false, st)
  ∧ scan_candidate Scenario.calm Scenario.signer Scenario.app st = (Ok tt, st)
  ∧ (∀ r st', scan_and_process Scenario.calm Scenario.signer st = (r, st') →
              Scenario.app ∈ processed_files st').
Proof.
  apply (claimed_path_not_dispatched Scenario.calm Scenario.signer
           Scenario.app).
  vm_compute. reflexivity.
Defined.

(** C6, the claim as stated fails: not every candidate is read twice.
    Two files wait in the watch folder and both are taken away while the
    script waits between the two readings of the first. The second reading
    of the first fails; the other candidate is read once, that reading
    fails, and it is skipped without a wait and without a second
    reading. *)
Lemma stability_check_reads_once :
  let st := Scenario.boot Cases.pair ∅ in
  let '(r, st') := scan_and_process Cases.sweeping Scenario.signer st in
  glob_ipa (fs st) Scenario.watch = [Scenario.app; Cases.other]
  ∧ r = Ok tt
  ∧ events_of st st'
    = [EvScan;
       EvStat Scenario.app (Ok 7); EvSleep 500;
       EvStat Scenario.app (Raise (FileNotFoundError "/watch/app.ipa"));
       EvStat Cases.other (Raise (FileNotFoundError "/watch/beta.ipa"))]
  ∧ processed_files st' = ∅.
Proof.
  vm_compute. repeat split; reflexivity.
Qed.

(** C6 as amended: a candidate that is not claimed has its size read, and
    if that fails it is skipped at once; otherwise the script sleeps 500 ms
    and reads the size again. When the second reading fails (the file is
    gone) or differs from the first, the candidate is skipped: the loop
    body returns normally, claims nothing and prints nothing. Only when
    both readings succeed and agree does [sign_ipa] run, on a state in
    which the claim set is still the one the scan started with; what
    follows the three events are the events of that job, which start with
    the search for the executable unless Ctrl+C cuts the first line the job
    writes to the log file. This holds for every schedule of interrupts. *)
Theorem stability_check {I : Interrupts} W self f st r st' :
  f ∉ processed_files st →
  scan_candidate W self f st = (r, st') →
  let skipped :=
    r = Ok tt ∧ processed_files st' = processed_files st
    ∧ console st' = console st in
  (∃ e, events_of st st' = [EvStat f (Raise e)] ∧ skipped)
  ∨ (∃ n1 r2 rest,
       events_of st st'
       = EvStat f (Ok n1) :: EvSleep 500 :: EvStat f r2 :: rest
       ∧ match r2 with
         | Ok n2 =>
             if Nat.eqb n1 n2 then
               ∃ s2 rs,
                 processed_files s2 = processed_files st
                 ∧ sign_ipa W self f s2 = (rs, st')
                 ∧ rest = events_of s2 st'
                 ∧ ((∃ found rest', rest = EvResolve found :: rest')
                    ∨ (rs = Raise KeyboardInterrupt ∧ cut self))
             else rest = [] ∧ skipped
         | Raise _ => rest = [] ∧ skipped
         end).
Proof.
  intros Hf H skipped.
  apply scan_candidate_run in H
    as [(e & -> & ->) | (n1 & r2 & s2 & Hc & Hco & Ht & H)]; [| |done].
  { left. exists e. split; [by apply events_of_app|done]. }
  right. exists n1, r2.
  destruct r2 as [n2|e]; [destruct (Nat.eqb n1 n2) eqn:Heq|].
  - destruct H as (rs & Hs & _).
    destruct (sign_ipa_inner _ _ _ _ _ _ Hs) as (_ & evs & Hts & _).
    exists evs. split.
    + apply events_of_app. by rewrite Hts, Ht, <- app_assoc.
    + exists s2, rs. split; [done|]. split; [done|].
      split; [symmetry; by apply events_of_app|].
      apply cut_short_sign_ipa in Hs as [Hs | ?]; [left|by right].
      apply sign_ipa_frame in Hs as ((found & sp & evs' & Hts' & _) & _);
        [|by rewrite Hc].
      rewrite Hts in Hts'. apply app_inv_head in Hts'. eauto.
  - destruct H as [-> ->]. exists [].
    split; [by apply events_of_app|done].
  - destruct H as [-> ->]. exists [].
    split; [by apply events_of_app|done].
Qed.

Lemma stability_check_witness :
  let st := Scenario.boot Scenario.disk ∅ in
  let st' :=
    (scan_candidate Scenario.writing Scenario.signer Scenario.app st).2 in
  let skipped :=
    Ok tt = Ok tt ∧ processed_files st' = processed_files st
    ∧ console st' = console st in
  (∃ e, events_of st st' = [EvStat Scenario.app (Raise e)] ∧ skipped)
  ∨ (∃ n1 r2 rest,
       events_of st st'
       = EvStat Scenario.app (Ok n1) :: EvSleep 500
         :: EvStat Scenario.app r2 :: rest
       ∧ match r2 with
         | Ok n2 =>
             if Nat.eqb n1 n2 then
               ∃ s2 rs,
                 processed_files s2 = processed_files st
                 ∧ sign_ipa Scenario.writing Scenario.signer Scenario.app s2
                   = (rs, st')
                 ∧ rest = events_of s2 st'
                 ∧ ((∃ found rest', rest = EvResolve found :: rest')
                    ∨ (rs = Raise KeyboardInterrupt ∧ cut Scenario.signer))
             else rest = [] ∧ skipped
         | Raise _ => rest = [] ∧ skipped
         end).
Proof.
  intros st st'.
  apply (stability_check Scenario.writing Scenario.signer Scenario.app st
           (Ok tt) st').
  - vm_compute. discriminate.
  - vm_compute. reflexivity.
Defined.

Section Startup.

Variable W : World.

(** [run] asks for the executable once, then either gives up or polls. *)
Lemma run_cases self cycles st r st' :
  run W self cycles st = (r, st') →
  ∃ found rest,
    trace st' = trace st ++ EvResolve found :: rest
    ∧ match found with
      | None =>
          rest = []
          ∧ r = Raise (RuntimeError "SignTools executable not found")
          ∧ processed_files st' = processed_files st
          ∧ fs st' = fs st
      | Some _ =>
          match cycles with
          | 0 => rest = []
          | S _ => ∃ rest', rest = EvScan :: rest'
          end
      end.
Proof.
  intros H. unfold run in H. exec in H.
  destruct (find_sign_tools_cases W self st)
    as (found & sf & Hfind & Hff & Hcf & Htf).
  rewrite Hfind in H. exec in H. exists found.
  destruct found as [exe|]; exec in H.
  - match type of H with
    | context [poll_loop W self cycles ?s] =>
        destruct (poll_loop W self cycles s) as [rl sl] eqn:Hl
    end.
    apply poll_loop_frame in Hl as (evs & Ht & Hevs). frames in Ht.
    exists evs.
    assert (trace st' = trace sl) as ->.
    { destruct rl as [[]|e]; [by injection H as _ <-|].
      destruct e; exec in H; injection H as _ <-; by frames. }
    split; [by rewrite Ht, Htf, <- app_assoc|done].
  - injection H as <- <-. exists []. frames. done.
Qed.

Lemma console_log_state self m l st :
  ∃ stamp extra,
    console (log_state W self m l st)
    = console st ++ ("[" +:+ stamp +:+ "] [" +:+ l +:+ "] " +:+ m) :: extra.
Proof.
  unfold log_state, log, bind, datetime_now.
  exists (strftime_log (now W (ticks st))).
  destruct (log_file self); [destruct (logfile_fault _ _) |]; cbn.
  - eexists [_]. by rewrite <- app_assoc.
  - by exists [].
  - by exists [].
Qed.

End Startup.

(** C8: [run] looks for the signer executable exactly once before the
    first scan. When the search fails it raises [RuntimeError] without
    entering the loop: no scan event is recorded, the claim set and the file
    system are untouched, and the interpreter exits with status 1. When it
    succeeds the next event, if the loop runs at all, is the first scan. *)
Theorem run_resolves_once_before_polling W self cycles st r st' :
  run W self cycles st = (r, st') →
  ∃ found rest,
    events_of st st' = EvResolve found :: rest
    ∧ match found with
      | None =>
          rest = []
          ∧ r = Raise (RuntimeError "SignTools executable not found")
          ∧ exit_status r = 1%Z
          ∧ processed_files st' = processed_files st
          ∧ fs st' = fs st
      | Some _ =>
          match cycles with
          | 0 => rest = []
          | S _ => ∃ rest', rest = EvScan :: rest'
          end
      end.
Proof.
  intros H. apply run_cases in H as (found & rest & Ht & H).
  exists found, rest. split; [by apply events_of_app|].
  destruct found; [done|]. destruct H as (-> & -> & ? & ?). done.
Qed.

Lemma run_resolves_once_before_polling_witness :
  let st := Scenario.boot Scenario.bare ∅ in
  let st' := (run Scenario.calm Scenario.signer 3 st).2 in
  let r := Raise (RuntimeError "SignTools executable not found") in
  ∃ found rest,
    events_of st st' = EvResolve found :: rest
    ∧ match found with
      | None =>
          rest = []
          ∧ r = Raise (RuntimeError "SignTools executable not found")
          ∧ exit_status r = 1%Z
          ∧ processed_files st' = processed_files st
          ∧ fs st' = fs st
      | Some _ => ∃ rest', rest = EvScan :: rest'
      end.
Proof.
  intros st st' r.
  apply (run_resolves_once_before_polling Scenario.calm Scenario.signer 3 st
           r st').
  vm_compute. reflexivity.
Defined.




Lemma mkdir_ok_keeps W d st st1 q :
  mkdir W d st = (Ok tt, st1) →
  is_dir (fs st1) d = true
  ∧ (is_dir (fs st) q = true → is_dir (fs st1) q = true).
Proof.
  intros H. apply mkdir_cases in H as (_ & _ & Hf & Hd).
  split; [done|]. rewrite Hf. apply is_dir_keeps.
Qed.

Lemma main_after_init W cfg cycles st self st1 :
  init W cfg st = (Ok self, st1) →
  main W cfg cycles st = run W self cycles st1.
Proof. intros H. unfold main, bind. by rewrite H. Qed.

(** C9: the constructor creates the watch folder and the output folder, and
    the processed and the failed folder when they are configured, before it
    returns: when it returns, each of them is a directory, the claim set is
    empty, and its four-or-fewer [mkdir] calls, all successful, are the only
    events so far, so that every scan of [main] comes after them. It fails
    only by passing on the exception of a [mkdir] that failed. *)
Theorem init_creates_folders W cfg st :
  match init W cfg st with
  | (Ok self, st') =>
      self = cfg
      ∧ processed_files st' = ∅
      ∧ (∀ d, d ∈ folders cfg → is_dir (fs st') d = true)
      ∧ events_of st st' = map (λ d, EvMkdir d (Ok tt)) (folders cfg)
      ∧ (∀ cycles r st'',
           main W cfg cycles st = (r, st'') →
           ∃ found rest,
             events_of st st''
             = map (λ d, EvMkdir d (Ok tt)) (folders cfg)
               ++ EvResolve found :: rest)
  | (Raise e, st') =>
      ∃ d evs, d ∈ folders cfg
               ∧ events_of st st' = evs ++ [EvMkdir d (Raise e)]
  end.
Proof.
  destruct (init W cfg st) as [r st'] eqn:H.
  pose proof H as Hinit. unfold init in H. exec in H.
  set (s0 := set_claims ∅ st) in *.
  assert (trace s0 = trace st) as Ht0 by done.
  assert (processed_files s0 = ∅) as Hc0 by done.
  clearbody s0. unfold folders.
  destruct (mkdir W (watch_folder cfg) s0) as [[[]|e1] s1] eqn:H1.
  2:{ injection H as <- <-. apply mkdir_cases in H1 as (_ & Ht1 & _).
      exists (watch_folder cfg), []. split; [by left|].
      apply events_of_app. by rewrite Ht1, Ht0. }
  destruct (mkdir W (output_folder cfg) s1) as [[[]|e2] s2] eqn:H2.
  2:{ injection H as <- <-.
      apply mkdir_cases in H1 as (_ & Ht1 & _).
      apply mkdir_cases in H2 as (_ & Ht2 & _).
      exists (output_folder cfg), [EvMkdir (watch_folder cfg) (Ok ())].
      split; [set_solver|].
      apply events_of_app. by rewrite Ht2, Ht1, Ht0, <- app_assoc. }
  pose proof (mkdir_ok_keeps _ _ _ _ (watch_folder cfg) H2) as [Ho2 Hw2].
  pose proof (mkdir_ok_keeps _ _ _ _ (watch_folder cfg) H1) as [Hw1 _].
  apply mkdir_cases in H1 as (Hc1 & Ht1 & _).
  apply mkdir_cases in H2 as (Hc2 & Ht2 & _).
  rewrite Ht1, Ht0, <- app_assoc in Ht2. rewrite Hc1, Hc0 in Hc2.
  specialize (Hw2 Hw1). clear Hw1 Ht1 Hc1 Ht0 Hc0.
  cbn [app] in Ht2.
  assert (∃ s3 r3,
            (match processed_folder cfg with
             | Some d => mkdir W d
             | None => λ st : State, (Ok tt, st)
             end) s2 = (r3, s3)
            ∧ processed_files s3 = ∅
            ∧ match r3 with
              | Ok _ =>
                  trace s3 = trace st
                    ++ [EvMkdir (watch_folder cfg) (Ok ());
                        EvMkdir (output_folder cfg) (Ok ())]
                    ++ map (λ d, EvMkdir d (Ok ()))
                         (option_list (processed_folder cfg))
                  ∧ ∀ d, d ∈ watch_folder cfg :: output_folder cfg
                           :: option_list (processed_folder cfg) →
                         is_dir (fs s3) d = true
              | Raise e =>
                  ∃ d evs, d ∈ option_list (processed_folder cfg)
                           ∧ trace s3 = trace st ++ evs ++ [EvMkdir d (Raise e)]
              end) as (s3 & r3 & H3 & Hc3 & Hr3).
  { destruct (processed_folder cfg) as [d|]; cbn [option_list map].
    - destruct (mkdir W d s2) as [[[]|e3] s3] eqn:H3; exists s3; eexists;
        (split; [reflexivity|]).
      + pose proof (mkdir_ok_keeps _ _ _ _ (watch_folder cfg) H3) as [Hd Hw3].
        pose proof (mkdir_ok_keeps _ _ _ _ (output_folder cfg) H3) as [_ Ho3].
        apply mkdir_cases in H3 as (Hc3 & Ht3 & _).
        split; [by rewrite Hc3|]. split.
        * by rewrite Ht3, Ht2, <- app_assoc.
        * intros x Hx. simpl in Hx. pick_event Hx; subst; auto.
      + apply mkdir_cases in H3 as (Hc3 & Ht3 & _).
        split; [by rewrite Hc3|]. exists d. eexists. split; [by left|].
        by rewrite Ht3, Ht2, <- app_assoc.
    - exists s2, (Ok tt). split; [done|]. split; [done|].
      split; [by rewrite Ht2|]. intros x Hx. simpl in Hx.
      pick_event Hx; subst; auto. }
  rewrite H3 in H. destruct r3 as [[]|e3].
  2:{ injection H as <- <-. destruct Hr3 as (d & evs & Hd & Ht3).
      exists d, evs. split; [set_solver|]. by apply events_of_app. }
  destruct Hr3 as [Ht3 Hd3].
  destruct (failed_folder cfg) as [d|]; cbn [option_list map] in *.
  - destruct (mkdir W d s3) as [[[]|e4] s4] eqn:H4; injection H as <- <-.
    + assert (∀ x, x ∈ watch_folder cfg :: output_folder cfg
                     :: option_list (processed_folder cfg) ++ [d] →
                   is_dir (fs s4) x = true) as Hd4.
      { intros x Hx. rewrite app_comm_cons, app_comm_cons in Hx.
        apply elem_of_app in Hx as [Hx|Hx].
        - by apply (mkdir_ok_keeps _ _ _ _ x H4), Hd3.
        - apply list_elem_of_singleton in Hx as ->.
          exact (proj1 (mkdir_ok_keeps _ _ _ _ d H4)). }
      apply mkdir_cases in H4 as (Hc4 & Ht4 & _).
      assert (trace s4 = trace st
                ++ EvMkdir (watch_folder cfg) (Ok ())
                   :: EvMkdir (output_folder cfg) (Ok ())
                   :: map (λ d, EvMkdir d (Ok ()))
                        (option_list (processed_folder cfg) ++ [d])) as Ht.
      { rewrite Ht4, Ht3, map_app, <- !app_assoc. done. }
      split; [done|]. split; [by rewrite Hc4|]. split; [done|].
      split; [by apply events_of_app|].
      intros cycles r st'' Hm. rewrite (main_after_init _ _ _ _ _ _ Hinit) in Hm.
      apply run_cases in Hm as (found & rest & Htr & _).
      exists found, rest. apply events_of_app.
      rewrite Htr, Ht, <- app_assoc. done.
    + apply mkdir_cases in H4 as (_ & Ht4 & _).
      exists d. eexists. split; [set_solver|]. apply events_of_app.
      rewrite Ht4, Ht3, <- app_assoc. done.
  - injection H as <- <-. rewrite app_nil_r.
    split; [done|]. split; [done|]. split; [done|].
    split; [by apply events_of_app|].
    intros cycles r st'' Hm. rewrite (main_after_init _ _ _ _ _ _ Hinit) in Hm.
    apply run_cases in Hm as (found & rest & Htr & _).
    exists found, rest. apply events_of_app.
    rewrite Htr, Ht3, <- app_assoc. done.
Qed.

(** ** The scenarios of the specification *)

(** The constructor succeeds on a quiet machine and leaves the four folders
    behind. *)
Example init_on_a_quiet_machine :
  let st := Scenario.boot Scenario.fresh ∅ in
  let '(r, st') := init Scenario.calm Scenario.signer st in
  r = Ok Scenario.signer
  ∧ map (is_dir (fs st')) (folders Scenario.signer) = [true; true; true; true]
  ∧ events_of st st'
    = [EvMkdir ["watch"] (Ok tt); EvMkdir ["out"] (Ok tt);
       EvMkdir ["done"] (Ok tt); EvMkdir ["failed"] (Ok tt)].
Proof. vm_compute. repeat split; reflexivity. Qed.

(** A stable [app.ipa], profile [dev], a signer that exits 0 and a processed
    folder: after one scan the file has left the watch folder for the
    processed folder, the signer was asked to write [/out/app_signed.ipa],
    and nothing is claimed. *)
Example scan_signs_and_files :
  let st := Scenario.boot Scenario.fresh ∅ in
  let '(r, st') := scan_and_process Scenario.calm Scenario.signer st in
  r = Ok tt
  ∧ fs st' !! Scenario.app = None
  ∧ fs st' !! (Scenario.done // "app.ipa") = Some (File "payload" false)
  ∧ elements (processed_files st') = []
  ∧ events_of st st'
    = [EvScan;
       EvStat Scenario.app (Ok 7); EvSleep 500; EvStat Scenario.app (Ok 7);
       EvResolve (Some Scenario.exe);
       EvSpawn ["/opt/signtools/SignTools"; "-headless";
                "-ipa"; "/watch/app.ipa"; "-profile"; "dev";
                "-output"; "/out/app_signed.ipa";
                "-args"; "-a -d"; "-bundle-id"; "com.example.app"]
               1800 (Ok (mkCompleted 0 "" ""));
       EvMkdir Scenario.done (Ok tt);
       EvMove Scenario.app (Scenario.done // "app.ipa")
              (Ok (Scenario.done // "app.ipa"))].
Proof. vm_compute. repeat split; reflexivity. Qed.

(** A file that grows during the check is skipped and not claimed. *)
Example growing_file_is_skipped :
  let st := Scenario.boot Scenario.fresh ∅ in
  let '(r, st') := scan_and_process Scenario.writing Scenario.signer st in
  r = Ok tt
  ∧ elements (processed_files st') = []
  ∧ console st' = []
  ∧ events_of st st'
    = [EvScan; EvStat Scenario.app (Ok 7); EvSleep 500;
       EvStat Scenario.app (Ok 16)].
Proof. vm_compute. repeat split; reflexivity. Qed.

(** ** More on the search for the executable *)

Lemma iter_parent_succ k (d : Path) :
  Nat.iter k parent (parent d) = Nat.iter (S k) parent d.
Proof. symmetry. apply Nat.iter_succ_r. Qed.

Lemma search_up_usable levels : ∀ (f : FS) current c,
  search_up levels f current = Some c → usable f c = true.
Proof.
  induction levels as [|n IH]; intros f current c H; [done|].
  cbn [search_up] in H.
  destruct (exists_ f (current // "signer-cfg.yml")
            || exists_ f (current // "go.mod")); [|by eapply IH].
  destruct (find (usable f) (candidates current)) as [c'|] eqn:Hfind;
    [|by eapply IH].
  injection H as <-. by apply find_some in Hfind as [_ ?].
Qed.

(** X1: the climb towards the project root returns an executable only from
    a directory that holds [signer-cfg.yml] or [go.mod], and that directory
    is the starting one or one of its first [levels - 1] ancestors. *)
Theorem search_up_sound levels : ∀ (f : FS) current c,
  search_up levels f current = Some c →
  ∃ k, (k < levels)%nat
       ∧ (let d := Nat.iter k parent current in
          (exists_ f (d // "signer-cfg.yml") || exists_ f (d // "go.mod")
           = true)
          ∧ c ∈ candidates d)
       ∧ usable f c = true.
Proof.
  induction levels as [|n IH]; intros f current c H; [done|].
  cbn [search_up] in H.
  destruct (exists_ f (current // "signer-cfg.yml")
            || exists_ f (current // "go.mod")) eqn:Hmark.
  - destruct (find (usable f) (candidates current)) as [c'|] eqn:Hfind.
    + injection H as <-. apply find_some in Hfind as [Hin Hus].
      exists 0. split; [lia|]. split; [|done]. split; [done|].
      by apply list_elem_of_In.
    + apply IH in H as (k & Hk & Hd & Hus). exists (S k).
      split; [lia|]. by rewrite <- iter_parent_succ.
  - apply IH in H as (k & Hk & Hd & Hus). exists (S k).
    split; [lia|]. by rewrite <- iter_parent_succ.
Qed.

Lemma search_up_sound_witness :
  ∃ k, (k < 5)%nat
       ∧ (let d := Nat.iter k parent ["opt"; "signtools"; "scripts"] in
          (exists_ Cases.project (d // "signer-cfg.yml")
           || exists_ Cases.project (d // "go.mod") = true)
          ∧ Scenario.exe ∈ candidates d)
       ∧ usable Cases.project Scenario.exe = true.
Proof.
  apply (search_up_sound 5 Cases.project ["opt"; "signtools"; "scripts"]).
  vm_compute. reflexivity.
Defined.

Ltac split_find H :=
  repeat match type of H with
         | context [match ?x with _ => _ end] =>
             match x with
             | find _ _ => destruct x eqn:?
             | search_up _ _ _ => destruct x eqn:?
             | which_SignTools _ _ => destruct x eqn:?
             end
         end.

Lemma union_Some_inv {A} (x y : option A) p :
  x ∪ y = Some p → x = Some p ∨ (x = None ∧ y = Some p).
Proof. destruct x, y; cbn; intros; simplify_eq; auto. Qed.

Lemma union_first {A} (a : A) (y : option A) : Some a ∪ y = Some a.
Proof. by destruct y. Qed.

Lemma union_skip {A} (y : option A) : None ∪ y = y.
Proof. by destruct y. Qed.

Lemma union_None_inv {A} (x y : option A) :
  x ∪ y = None → x = None ∧ y = None.
Proof. by destruct x, y. Qed.

Lemma given_Some_inv (f : FS) (o : option Path) p :
  match o with
  | Some q => if usable f q then Some q else None
  | None => None
  end = Some p → o = Some p ∧ usable f p = true.
Proof.
  destruct o as [q|]; [|done]. destruct (usable f q) eqn:E; [|done].
  by intros [= <-].
Qed.

Lemma given_None_inv (f : FS) (o : option Path) :
  match o with
  | Some q => if usable f q then Some q else None
  | None => None
  end = None → ∀ p, o = Some p → usable f p = false.
Proof.
  destruct o as [q|]; [|done]. destruct (usable f q) eqn:E; [done|].
  by intros _ p [= <-].
Qed.

Section MoreResolving.

Variable W : World.

(** What the search returns, as a function of the file system alone: the
    steps in the order the method takes them. *)
Lemma find_result_steps self st :
  find_result W self st
  = match sign_tools_path self with
    | Some p => if usable (fs st) p then Some p else None
    | None => None
    end
    ∪ match environ_SIGNTOOLS_PATH W with
      | Some p => if usable (fs st) p then Some p else None
      | None => None
      end
    ∪ find (usable (fs st)) (candidates (script_dir W))
    ∪ find (usable (fs st)) (candidates (parent (script_dir W)))
    ∪ search_up 5 (fs st) (script_dir W)
    ∪ which_SignTools W (fs st)
    ∪ find (usable (fs st)) (candidates (cwd W)).
Proof.
  unfold find_result, find_sign_tools, or_else. run_steps.
  split_search; cbn [fst];
    repeat match goal with
           | |- context [find ?f ?l] => destruct (find f l)
           | |- context [search_up ?n ?f ?c] => destruct (search_up n f c)
           | |- context [which_SignTools ?w ?f] => destruct (which_SignTools w f)
           end; reflexivity.
Qed.

(** X3: the search gives up only when nothing is there to find: the given
    path and the one of [SIGNTOOLS_PATH], when set, are not executables,
    none of the three candidate paths exists as an executable in the script
    directory, its parent or the working directory, and [shutil.which] finds
    nothing. *)
Theorem find_sign_tools_none self st st' :
  find_sign_tools W self st = (Ok None, st') →
  (∀ p, sign_tools_path self = Some p → usable (fs st) p = false)
  ∧ (∀ p, environ_SIGNTOOLS_PATH W = Some p → usable (fs st) p = false)
  ∧ (∀ c, c ∈ candidates (script_dir W)
              ++ candidates (parent (script_dir W))
              ++ candidates (cwd W) →
          usable (fs st) c = false)
  ∧ which_SignTools W (fs st) = None.
Proof.
  intros H. assert (find_result W self st = None) as Hres.
  { unfold find_result. by rewrite H. }
  rewrite find_result_steps in Hres.
  repeat match type of Hres with
         | _ ∪ _ = None => apply union_None_inv in Hres as [Hres ?]
         end.
  split; [by apply given_None_inv|]. split; [by apply given_None_inv|].
  split; [|done]. intros c Hc.
  apply elem_of_app in Hc as [Hc|Hc]; [|apply elem_of_app in Hc as [Hc|Hc]];
    apply list_elem_of_In in Hc; eauto using find_none.
Qed.

(** X4: a path given to the signer that is an executable is returned
    without a word printed, whatever the environment holds; failing that,
    an executable [SIGNTOOLS_PATH] is returned before any directory is
    looked at. *)
Theorem find_sign_tools_priority self st found st' :
  find_sign_tools W self st = (Ok found, st') →
  (∀ p, sign_tools_path self = Some p → usable (fs st) p = true →
        found = Some p ∧ console st' = console st)
  ∧ (∀ p, environ_SIGNTOOLS_PATH W = Some p → usable (fs st) p = true →
          (∀ q, sign_tools_path self = Some q → usable (fs st) q = false) →
          found = Some p).
Proof.
  intros H. split.
  - intros p Hp Hus. unfold find_sign_tools, or_else in H. exec in H.
    rewrite Hp, Hus in H. exec in H. by injection H as <- <-.
  - intros p Hp Hus Hno.
    assert (find_result W self st = found) as <-.
    { unfold find_result. by rewrite H. }
    rewrite find_result_steps, Hp, Hus.
    destruct (sign_tools_path self) as [q|];
      [rewrite (Hno q eq_refl)|]; by rewrite union_skip, !union_first.
Qed.

(** X5: a given path that is not an executable costs one WARN line and
    nothing else: the search goes on and returns what it returns for a
    signer that was given no path. *)
Theorem find_sign_tools_warns self st p found st' :
  sign_tools_path self = Some p →
  usable (fs st) p = false →
  find_sign_tools W self st = (Ok found, st') →
  (∃ stamp rest,
     console st'
     = console st
       ++ ("[" +:+ stamp +:+ "] [WARN] Warning: Specified SignTools path "
           +:+ "does not exist or is not executable: " +:+ str_path p)
          :: rest)
  ∧ ∀ self' s, sign_tools_path self' = None → fs s = fs st →
               ∃ s', find_sign_tools W self' s = (Ok found, s').
Proof.
  intros Hp Hus H. split.
  - unfold find_sign_tools, or_else in H. exec in H.
    rewrite Hp, Hus in H. exec in H.
    match type of H with
    | context [log_state W self ?m ?l ?s] =>
        destruct (console_log_state W self m l s) as (stamp & extra & Hco);
        generalize dependent (log_state W self m l s); intros s1 H Hco
    end.
    exists stamp.
    destruct (environ_SIGNTOOLS_PATH W) as [q|];
      [destruct (usable (fs st) q)|]; exec in H;
      try (injection H as _ <-; cbn [console record]; rewrite Hco;
           by eexists).
    match type of H with
    | context [log_state W self ?m ?l ?s] =>
        destruct (console_log_state W self m l s) as (stamp2 & extra2 & Hco2)
    end.
    injection H as _ <-. cbn [console record]. rewrite Hco2, Hco.
    rewrite <- app_assoc. by eexists.
  - intros self' s Hnone Hfs. exists (find_state W self' s).
    rewrite find_sign_tools_eq. f_equal. f_equal.
    assert (find_result W self st = found) as <-.
    { unfold find_result. by rewrite H. }
    rewrite !find_result_steps, Hp, Hus, Hnone, Hfs. done.
Qed.

End MoreResolving.

Lemma find_sign_tools_none_witness :
  (∀ p, sign_tools_path Scenario.signer = Some p →
        usable Scenario.bare p = false)
  ∧ (∀ p, environ_SIGNTOOLS_PATH Scenario.calm = Some p →
          usable Scenario.bare p = false)
  ∧ (∀ c, c ∈ candidates (script_dir Scenario.calm)
              ++ candidates (parent (script_dir Scenario.calm))
              ++ candidates (cwd Scenario.calm) →
          usable Scenario.bare c = false)
  ∧ which_SignTools Scenario.calm Scenario.bare = None.
Proof.
  apply (find_sign_tools_none Scenario.calm Scenario.signer
           (Scenario.boot Scenario.bare ∅)
           (find_sign_tools Scenario.calm Scenario.signer
              (Scenario.boot Scenario.bare ∅)).2).
  vm_compute. reflexivity.
Defined.

Lemma find_sign_tools_priority_witness :
  let st := Scenario.boot Scenario.fresh ∅ in
  let st' := (find_sign_tools Cases.with_env Cases.pinned st).2 in
  (∀ p, sign_tools_path Cases.pinned = Some p → usable (fs st) p = true →
        Some Scenario.exe = Some p ∧ console st' = console st)
  ∧ (∀ p, environ_SIGNTOOLS_PATH Cases.with_env = Some p →
          usable (fs st) p = true →
          (∀ q, sign_tools_path Cases.pinned = Some q →
                usable (fs st) q = false) →
          Some Scenario.exe = Some p).
Proof.
  intros st st'.
  apply (find_sign_tools_priority Cases.with_env Cases.pinned st).
  vm_compute. reflexivity.
Defined.

Lemma find_sign_tools_warns_witness :
  let st := Scenario.boot Scenario.fresh ∅ in
  let st' := (find_sign_tools Cases.with_env Cases.misled st).2 in
  (∃ stamp rest,
     console st'
     = console st
       ++ ("[" +:+ stamp +:+ "] [WARN] Warning: Specified SignTools path "
           +:+ "does not exist or is not executable: "
           +:+ str_path ["usr"; "bin"; "SignTools"])
          :: rest)
  ∧ ∀ self' s, sign_tools_path self' = None → fs s = fs st →
               ∃ s', find_sign_tools Cases.with_env self' s
                     = (Ok (Some Scenario.exe), s').
Proof.
  intros st st'.
  apply (find_sign_tools_warns Cases.with_env Cases.misled st).
  - reflexivity.
  - vm_compute. reflexivity.
  - vm_compute. reflexivity.
Defined.

(** ** More on [move_file] *)


Section MoreRouting.

Variable W : World.

(** X8: when the name of the file is free at the destination, a move that
    is carried out puts the file there under its own name, takes it away
    from where it was, and changes no other entry. *)
Theorem move_file_plain self p d st r st' dst q node :
  move_file W self p (Some d) st = (r, st') →
  fs st !! p = Some node →
  exists_ (fs st) (d // name p) = false →
  EvMove p dst (Ok q) ∈ events_of st st' →
  dst = d // name p
  ∧ q = d // name p
  ∧ fs st' !! (d // name p) = Some node
  ∧ fs st' !! p = None
  ∧ ∀ x n, x ≠ p → fs st !! x = Some n → fs st' !! x = Some n.
Proof.
  intros H Hp Hfree Hev.
  apply move_file_some in H as (rm & st1 & Hmk & H).
  apply mkdir_cases in Hmk as (_ & Ht1 & Hf1).
  destruct rm as [[]|e].
  2:{ destruct H as (Ht & _). rewrite Ht1 in Ht.
      rewrite (events_of_app _ _ _ Ht) in Hev. pick_event Hev; done. }
  destruct Hf1 as [Hf1 _].
  assert (Hlen : (length d < length (d // name p))%nat).
  { unfold joinpath. rewrite length_app. cbn. lia. }
  assert (Hfree1 : fs st1 !! (d // name p) = None).
  { rewrite Hf1, make_dirs_below by done. unfold exists_ in Hfree.
    by destruct (fs st !! (d // name p)). }
  destruct H as [(_ & Ht & _) | (dst0 & rmv & _ & Hdst & Ht & H)].
  { rewrite Ht1 in Ht. rewrite (events_of_app _ _ _ Ht) in Hev.
    pick_event Hev; done. }
  rewrite Ht1, <- app_assoc in Ht. rewrite (events_of_app _ _ _ Ht) in Hev.
  pick_event Hev; try done. injection Hev as -> <-.
  destruct Hdst as [[_ ->] | [Hex _]];
    [|unfold exists_ in Hex; by rewrite Hfree1 in Hex].
  destruct H as ((node' & Hp1 & Hfs & Hq) & _ & _).
  assert (q = d // name p) as ->.
  { destruct Hq as [[-> _] | (_ & Hd & _)]; [done|].
    unfold is_dir in Hd. by rewrite Hfree1 in Hd. }
  rewrite Hf1, (make_dirs_keeps _ _ _ _ Hp) in Hp1. injection Hp1 as <-.
  assert (d // name p ≠ p) as Hne.
  { intros Heq. rewrite Heq in Hfree. unfold exists_ in Hfree.
    by rewrite Hp in Hfree. }
  rewrite Hfs. split; [done|]. split; [done|].
  split; [by rewrite lookup_insert_eq|].
  split; [by rewrite lookup_insert_ne, lookup_delete_eq|].
  intros x n Hx Hn. rewrite lookup_insert_ne.
  - rewrite lookup_delete_ne by done. rewrite Hf1. by apply make_dirs_keeps.
  - intros <-. unfold exists_ in Hfree. by rewrite Hn in Hfree.
Qed.


(** X10: of the claim set [move_file] touches the path it is given and no
    other, and it never adds to it. *)
Theorem move_file_claims self p dest st :
  let st' := (move_file W self p dest st).2 in
  processed_files st' ⊆ processed_files st
  ∧ ∀ q, q ≠ p → q ∈ processed_files st → q ∈ processed_files st'.
Proof.
  destruct (move_file W self p dest st) as [r st'] eqn:H. cbn [snd].
  apply move_file_frame in H as [_ [-> | ->]]; set_solver.
Qed.

End MoreRouting.

Lemma move_file_plain_witness :
  let st := Scenario.boot Scenario.fresh {[Scenario.app]} in
  let st' := (move_file Scenario.calm Scenario.signer Scenario.app
                (Some Scenario.done) st).2 in
  let dst := Scenario.done // "app.ipa" in
  dst = Scenario.done // name Scenario.app
  ∧ dst = Scenario.done // name Scenario.app
  ∧ fs st' !! (Scenario.done // name Scenario.app)
    = Some (File "payload" false)
  ∧ fs st' !! Scenario.app = None
  ∧ ∀ x n, x ≠ Scenario.app → fs st !! x = Some n → fs st' !! x = Some n.
Proof.
  intros st st' dst.
  apply (move_file_plain Scenario.calm Scenario.signer Scenario.app
           Scenario.done st (Ok true) st' dst dst (File "payload" false)).
  - vm_compute. reflexivity.
  - vm_compute. reflexivity.
  - vm_compute. reflexivity.
  - apply list_elem_of_In. vm_compute. right. left. reflexivity.
Defined.


(** ** Everything is printed through [log] *)


(** A relation between the output before and after that every call of
    [log] respects, and every step that leaves the console and the log file
    alone, is respected by the whole program. *)
Section Output.

Variable W : World.
Variable self : Signer.
Variable R : State → State → Prop.

Hypothesis R_trans : ∀ s1 s2 s3, R s1 s2 → R s2 s3 → R s1 s3.
Hypothesis R_log : ∀ m l st, R st (log_state W self m l st).
Hypothesis R_quiet : ∀ st st',
  console st' = console st → logfile st' = logfile st → R st st'.

Lemma R_refl st : R st st.
Proof. by apply R_quiet. Qed.

Lemma R_searched st : R st (log_searched_state W self st).
Proof.
  unfold log_searched_state, log_searched, bind. repeat rewrite log_eq.
  cbn [snd].
  repeat (eapply R_trans; [|apply R_log]). apply R_refl.
Qed.

(** Peel the steps off the state a run ended in. *)
Ltac peel :=
  repeat first
    [ assumption
    | apply R_refl
    | match goal with
      | |- R _ (log_state _ _ _ _ ?s) => apply (R_trans _ s); [|apply R_log]
      | |- R _ (log_searched_state _ _ ?s) =>
          apply (R_trans _ s); [|apply R_searched]
      | |- R _ (set_claims _ ?s) => apply (R_trans _ s); [|by apply R_quiet]
      | |- R _ (set_fs _ ?s) => apply (R_trans _ s); [|by apply R_quiet]
      | |- R _ (record _ ?s) => apply (R_trans _ s); [|by apply R_quiet]
      | |- R _ (tick ?s) => apply (R_trans _ s); [|by apply R_quiet]
      end ].

Lemma out_find st r sf : find_sign_tools W self st = (r, sf) → R st sf.
Proof.
  unfold find_sign_tools, or_else. run_steps.
  split_search; intros [= <- <-]; peel.
Qed.

Lemma out_move_file p dest st r st' :
  move_file W self p dest st = (r, st') → R st st'.
Proof.
  intros H. unfold move_file in H. destruct dest as [d|]; exec in H.
  2:{ injection H as _ <-. peel. }
  destruct (mkdir W d st) as [rm s1] eqn:Hmk.
  apply quiet_mkdir in Hmk as [Hc1 Hl1].
  pose proof (R_quiet _ _ Hc1 Hl1) as R1.
  destruct rm as [[]|e]; exec in H.
  - destruct (exists_ (fs s1) p); exec in H.
    + destruct (pick_dest_path W d p s1) as [rp s2] eqn:Hpick.
      apply quiet_pick_dest_path in Hpick as [Hc2 Hl2].
      pose proof (R_trans _ _ _ R1 (R_quiet _ _ Hc2 Hl2)) as R2.
      destruct rp as [dst|e]; exec in H.
      * destruct (shutil_move W p dst s2) as [rv s3] eqn:Hmv.
        apply quiet_shutil_move in Hmv as [Hc3 Hl3].
        pose proof (R_trans _ _ _ R2 (R_quiet _ _ Hc3 Hl3)) as R3.
        destruct rv as [q|e]; exec in H.
        -- injection H as _ <-. peel.
        -- destruct (is_FileNotFoundError e); exec in H;
             [|destruct (is_Exception e); exec in H];
             injection H as _ <-; peel.
      * destruct (is_FileNotFoundError e); exec in H;
          [|destruct (is_Exception e); exec in H];
          injection H as _ <-; peel.
    + injection H as _ <-. peel.
  - destruct (is_Exception e); exec in H; injection H as _ <-; peel.
Qed.

Lemma out_route_failure p st r st' :
  route_failure W self p st = (r, st') → R st st'.
Proof.
  unfold route_failure. destruct (failed_folder self) as [d|]; exec.
  - destruct (move_file W self p (Some d) st) as [rm sm] eqn:H.
    apply out_move_file in H. by destruct rm; intros [= <- <-].
  - intros [= <- <-]. peel.
Qed.

Lemma out_sign_ipa p st r st' :
  sign_ipa W self p st = (r, st') → R st st'.
Proof.
  intros H. destruct (decide (p ∈ processed_files st)) as [Hp|Hp].
  { rewrite sign_ipa_claimed in H by done. injection H as _ <-.
    apply R_refl. }
  unfold sign_ipa in H. exec in H.
  rewrite bool_decide_eq_false_2 in H by done. exec in H.
  match type of H with
  | context [find_sign_tools W self ?s] =>
      destruct (find_sign_tools_cases W self s)
        as (found & sf & Hfind & _);
      assert (R st sf) as Rf by (apply out_find in Hfind as Rf;
                                 refine (R_trans _ _ _ _ Rf); peel)
  end.
  rewrite Hfind in H. exec in H.
  assert (∀ s rr s', route_failure W self p s = (rr, s') → R st s → R st s')
    as Hroute.
  { intros s rr s' Hr Rs. apply out_route_failure in Hr. by eapply R_trans. }
  destruct found as [exe|]; exec in H.
  - match type of H with
    | context [subprocess_run_ W ?c ?t ?s] =>
        destruct (subprocess_run_ W c t s) as [res s1] eqn:Hsp;
        assert (R st s1) as R1
          by (apply quiet_subprocess_run in Hsp as [Hc Hl];
              refine (R_trans _ _ _ _ (R_quiet _ _ Hc Hl)); peel)
    end.
    destruct res as [cp|e]; exec in H.
    + destruct (returncode cp =? 0)%Z; exec in H.
      * destruct (processed_folder self) as [d|]; exec in H.
        -- match type of H with
           | context [move_file W self p (Some d) ?s] =>
               destruct (move_file W self p (Some d) s) as [rm sm] eqn:Hmf;
               assert (R st sm) as Rm
                 by (apply out_move_file in Hmf as Rm;
                     refine (R_trans _ _ _ _ Rm); peel)
           end.
           destruct rm as [b|e]; exec in H.
           ++ by injection H as _ <-.
           ++ rewrite (move_file_raises _ _ _ _ _ _ _ Hmf) in H.
              assert (is_TimeoutExpired e = false) as He.
              { apply move_file_raises in Hmf. by destruct e. }
              rewrite He in H. by injection H as _ <-.
        -- injection H as _ <-. peel.
      * match type of H with
        | context [route_failure W self p ?s] =>
            destruct (route_failure W self p s) as [rr sm] eqn:Hrf;
            assert (R st sm) as Rm by (apply (Hroute _ _ _ Hrf); peel)
        end.
        destruct rr as [b|e]; exec in H.
        -- by injection H as _ <-.
        -- rewrite (route_failure_raises _ _ _ _ _ _ Hrf) in H.
           assert (is_TimeoutExpired e = false) as He.
           { apply route_failure_raises in Hrf. by destruct e. }
           rewrite He in H. by injection H as _ <-.
    + destruct (is_TimeoutExpired e) eqn:Hto; exec in H.
      * match type of H with
        | context [route_failure W self p ?s] =>
            destruct (route_failure W self p s) as [rr sm] eqn:Hrf;
            assert (R st sm) as Rm by (apply (Hroute _ _ _ Hrf); peel)
        end.
        by destruct rr; injection H as _ <-.
      * destruct (is_Exception e) eqn:He; exec in H.
        -- match type of H with
           | context [route_failure W self p ?s] =>
               destruct (route_failure W self p s) as [rr sm] eqn:Hrf;
               assert (R st sm) as Rm by (apply (Hroute _ _ _ Hrf); peel)
           end.
           by destruct rr; injection H as _ <-.
        -- by injection H as _ <-.
  - match type of H with
    | context [route_failure W self p ?s] =>
        destruct (route_failure W self p s) as [rr sm] eqn:Hrf;
        assert (R st sm) as Rm by (apply (Hroute _ _ _ Hrf); peel)
    end.
    by destruct rr; injection H as _ <-.
Qed.

Lemma out_scan_candidate f st r st' :
  scan_candidate W self f st = (r, st') → R st st'.
Proof.
  intros H. destruct (decide (f ∈ processed_files st)) as [Hf|Hf].
  { rewrite scan_candidate_claimed in H by done. injection H as _ <-.
    apply R_refl. }
  unfold scan_candidate in H. exec in H.
  rewrite bool_decide_eq_false_2 in H by done.
  unfold stat_size, sleep in H. exec in H. cbn [fs set_fs record tick] in H.
  destruct (st_size (fs st) f) as [n1|e] eqn:H1; exec in H.
  - match type of H with
    | context [record (EvStat f ?r2) ?s] =>
        match r2 with
        | Ok _ => fail 1
        | _ => destruct r2 as [n2|e] eqn:H2
        end
    end; exec in H.
    + destruct (Nat.eqb n1 n2); exec in H; [|injection H as _ <-; peel].
      match type of H with
      | context [sign_ipa W self f ?s] =>
          destruct (sign_ipa W self f s) as [rs ss] eqn:Hs
      end.
      apply out_sign_ipa in Hs.
      assert (st' = ss) as -> by (by destruct rs; injection H as _ <-).
      refine (R_trans _ _ _ _ Hs). peel.
    + rewrite (st_size_raises _ _ _ H2) in H. injection H as _ <-. peel.
  - rewrite (st_size_raises _ _ _ H1) in H. injection H as _ <-. peel.
Qed.

Lemma out_for_each l : ∀ st r st',
  for_each l (scan_candidate W self) st = (r, st') → R st st'.
Proof.
  induction l as [|f l IH]; intros st r st' H; cbn [for_each] in H.
  - exec in H. injection H as _ <-. apply R_refl.
  - unfold bind in H.
    destruct (scan_candidate W self f st) as [r1 s1] eqn:H1.
    apply out_scan_candidate in H1.
    destruct r1 as [[]|e]; [|by injection H as _ <-].
    apply IH in H. by eapply R_trans.
Qed.

Lemma out_scan_and_process st r st' :
  scan_and_process W self st = (r, st') → R st st'.
Proof.
  unfold scan_and_process. exec. cbn [fs record].
  destruct (exists_ (fs st) (watch_folder self)); exec.
  - intros H. apply out_for_each in H. refine (R_trans _ _ _ _ H). peel.
  - intros [= <- <-]. peel.
Qed.

Lemma out_poll_loop cycles : ∀ st r st',
  poll_loop W self cycles st = (r, st') → R st st'.
Proof.
  induction cycles as [|n IH]; intros st r st' H; cbn [poll_loop] in H.
  - exec in H. injection H as _ <-. apply R_refl.
  - unfold bind in H.
    destruct (scan_and_process W self st) as [r1 s1] eqn:H1.
    apply out_scan_and_process in H1.
    destruct r1 as [[]|e]; [|by injection H as _ <-].
    destruct (sleep W (poll_interval self) s1) as [r2 s2] eqn:Hs.
    apply sleep_frame in Hs as [(-> & _ & ->) | (-> & _ & _ & _ & Hc & Hl)].
    + by injection H as _ <-.
    + apply IH in H. refine (R_trans _ _ _ _ H).
      refine (R_trans _ _ _ H1 _). by apply R_quiet.
Qed.

Lemma out_run cycles st r st' :
  run W self cycles st = (r, st') → R st st'.
Proof.
  intros H. unfold run in H. exec in H.
  destruct (find_sign_tools_cases W self st) as (found & sf & Hfind & _).
  apply out_find in Hfind as Rf. rewrite Hfind in H. exec in H.
  destruct found as [exe|]; exec in H.
  - match type of H with
    | context [poll_loop W self cycles ?s] =>
        destruct (poll_loop W self cycles s) as [rl sl] eqn:Hl
    end.
    apply out_poll_loop in Hl.
    assert (R st sl) as Rl by (refine (R_trans _ _ _ _ Hl); peel).
    destruct rl as [[]|e]; [by injection H as _ <-|].
    destruct e; exec in H; injection H as _ <-; peel.
  - injection H as _ <-. peel.
Qed.

End Output.

(** ** What is printed is never taken back *)

Section Printing.

Variable W : World.

Lemma console_log_grows self m l st :
  console st `prefix_of` console (log_state W self m l st).
Proof.
  destruct (console_log_state W self m l st) as (stamp & extra & ->).
  by eexists.
Qed.

Lemma console_grows_quiet (st st' : State) :
  console st' = console st → logfile st' = logfile st →
  console st `prefix_of` console st'.
Proof. by intros -> _. Qed.

Lemma console_grows_trans (s1 s2 s3 : State) :
  console s1 `prefix_of` console s2 → console s2 `prefix_of` console s3 →
  console s1 `prefix_of` console s3.
Proof. intros. by etrans. Qed.

Lemma console_find_grows self st found sf :
  find_sign_tools W self st = (Ok found, sf) →
  console st `prefix_of` console sf.
Proof.
  apply (out_find W self (λ s s', console s `prefix_of` console s'));
    [apply console_grows_trans|apply console_log_grows
    |apply console_grows_quiet].
Qed.

Lemma console_move_file_grows self p dest st r st' :
  move_file W self p dest st = (r, st') →
  console st `prefix_of` console st'.
Proof.
  apply (out_move_file W self (λ s s', console s `prefix_of` console s'));
    [apply console_grows_trans|apply console_log_grows
    |apply console_grows_quiet].
Qed.

Lemma console_route_failure_grows self p st r st' :
  route_failure W self p st = (r, st') →
  console st `prefix_of` console st'.
Proof.
  apply (out_route_failure W self (λ s s', console s `prefix_of` console s'));
    [apply console_grows_trans|apply console_log_grows
    |apply console_grows_quiet].
Qed.

Lemma console_poll_loop_grows self cycles st r st' :
  poll_loop W self cycles st = (r, st') →
  console st `prefix_of` console st'.
Proof.
  apply (out_poll_loop W self (λ s s', console s `prefix_of` console s'));
    [apply console_grows_trans|apply console_log_grows
    |apply console_grows_quiet].
Qed.

End Printing.

(** ** What [sign_ipa] prints *)

Section SignPrinting.

Variable W : World.

Lemma printed_grows st st' l m :
  console st `prefix_of` console st' → printed st l m → printed st' l m.
Proof.
  intros [more Hm] [stamp H]. exists stamp. rewrite Hm.
  apply elem_of_app. by left.
Qed.

Lemma printed_log self m l st : printed (log_state W self m l st) l m.
Proof.
  destruct (console_log_state W self m l st) as (stamp & extra & Hco).
  exists stamp. rewrite Hco. set_solver.
Qed.

Lemma printed_after_log self m' l' st l m :
  printed st l m → printed (log_state W self m' l' st) l m.
Proof. apply printed_grows, console_log_grows. Qed.

Lemma printed_after_searched self st l m :
  printed st l m → printed (log_searched_state W self st) l m.
Proof.
  unfold log_searched_state, log_searched, bind. repeat rewrite log_eq.
  cbn [snd]. intros H. by repeat apply printed_after_log.
Qed.

(** The lines of a run of [sign_ipa] on a path that is not claimed yet,
    next to its events. *)
Lemma sign_ipa_printed self p st r st' :
  p ∉ processed_files st →
  sign_ipa W self p st = (r, st') →
  printed st' "INFO" ("Processing: " +:+ name p)
  ∧ ∃ found spawned evs,
      trace st' = trace st ++ EvResolve found :: spawned ++ evs
      ∧ Forall routing evs
      ∧ match found with
        | None =>
            spawned = []
            ∧ printed st' "ERROR" "Error: SignTools executable not found"
        | Some exe =>
            ∃ cmd res,
              spawned = [EvSpawn cmd 1800 res]
              ∧ printed st' "INFO" ("Running: " +:+ String.concat " " cmd)
              ∧ match res with
                | Ok cp =>
                    if (returncode cp =? 0)%Z then True
                    else
                      printed st' "ERROR"
                        ("Signing failed for " +:+ name p +:+ ": "
                         +:+ stderr cp)
                      ∧ printed st' "ERROR" ("Output: " +:+ stdout cp)
                | Raise e =>
                    if is_TimeoutExpired e then
                      printed st' "ERROR"
                        ("Signing timed out for " +:+ name p)
                    else if is_Exception e then
                      printed st' "ERROR"
                        ("Error signing " +:+ name p +:+ ": " +:+ exn_str e)
                    else True
                end
        end.
Proof.
  intros Hp H. unfold sign_ipa in H. exec in H.
  rewrite bool_decide_eq_false_2 in H by done. exec in H.
  pose proof (printed_log self ("Processing: " +:+ name p) "INFO" st) as P0.
  match type of H with
  | context [find_sign_tools W self ?s] =>
      destruct (find_sign_tools_cases W self s)
        as (found & sf & Hfind & _ & _ & Htf);
      pose proof (console_find_grows W self s found sf Hfind) as Hgf
  end.
  rewrite Hfind in H. frames in Htf. exec in H.
  apply (printed_grows _ _ _ _ Hgf) in P0. clear Hgf Hfind.
  (* what routing adds *)
  assert (∀ s rf sm l m, route_failure W self p s = (rf, sm) →
            printed s l m → printed sm l m) as Proute.
  { intros s rf sm l m Hrf. apply printed_grows.
    by apply console_route_failure_grows in Hrf. }
  assert (∀ s d rm sm l m, move_file W self p (Some d) s = (rm, sm) →
            printed s l m → printed sm l m) as Pmove.
  { intros s d rm sm l m Hmf. apply printed_grows.
    by apply console_move_file_grows in Hmf. }
  destruct found as [exe|].
  - exec in H.
    match type of H with
    | context [subprocess_run_ W ?c ?t (log_state W self ?m ?l ?s)] =>
        pose proof (printed_log self m l s) as P1;
        apply (printed_after_log self m l) in P0;
        destruct (subprocess_run_ W c t (log_state W self m l s))
          as [res s1] eqn:Hsp;
        set (cmd := c) in *
    end.
    pose proof (console_subprocess_run _ _ _ _ _ _ Hsp) as Hc1.
    apply subprocess_run_cases in Hsp as (_ & Ht1).
    frames in Ht1. rewrite Htf, <- app_assoc in Ht1. cbn [app] in Ht1.
    assert (printed s1 "INFO" ("Processing: " +:+ name p)) as Q0.
    { destruct P0 as [stamp ?]. exists stamp. by rewrite Hc1. }
    assert (printed s1 "INFO" ("Running: " +:+ String.concat " " cmd)) as Q1.
    { destruct P1 as [stamp ?]. exists stamp. by rewrite Hc1. }
    clear P0 P1 Hc1.
    assert (∀ s rf sm, route_failure W self p s = (rf, sm) →
              trace s = trace s1 →
              ∃ evs, trace sm = trace st
                       ++ EvResolve (Some exe) :: [EvSpawn cmd 1800 res] ++ evs
                     ∧ Forall routing evs) as Troute.
    { intros s rf sm Hrf Hts.
      apply route_failure_frame in Hrf as ((evs & Hte & Hev) & _).
      exists evs. by rewrite Hte, Hts, Ht1, <- app_assoc. }
    destruct res as [cp|e]; exec in H.
    + destruct (returncode cp =? 0)%Z eqn:Hrc; exec in H.
      * destruct (processed_folder self) as [d|] eqn:Hpf; exec in H.
        -- match type of H with
           | context [move_file W self p (Some d) ?s] =>
               destruct (move_file W self p (Some d) s) as [rm sm] eqn:Hmf;
               assert (printed s "INFO" ("Processing: " +:+ name p)) as R0
                 by (by apply printed_after_log);
               assert (printed s "INFO"
                         ("Running: " +:+ String.concat " " cmd)) as R1
                 by (by apply printed_after_log)
           end.
           apply (Pmove _ _ _ _ _ _ Hmf) in R0, R1.
           apply move_file_frame in Hmf as Hfr.
           destruct Hfr as ((evs & Hte & Hev) & _). frames in Hte.
           assert (st' = sm) as ->.
           { destruct rm as [b|e]; exec in H; [by injection H as _ <-|].
             apply move_file_raises in Hmf. rewrite Hmf in H.
             assert (is_TimeoutExpired e = false) as He by (by destruct e).
             rewrite He in H. by injection H as _ <-. }
           split; [done|]. exists (Some exe), [EvSpawn cmd 1800 (Ok cp)], evs.
           split; [by rewrite Hte, Ht1, <- app_assoc|]. split; [done|].
           exists cmd, (Ok cp). rewrite Hrc. done.
        -- injection H as _ <-.
           split; [by apply printed_after_log|].
           exists (Some exe), [EvSpawn cmd 1800 (Ok cp)], [].
           frames. rewrite Ht1. split; [done|]. split; [constructor|].
           exists cmd, (Ok cp). rewrite Hrc.
           split; [done|]. split; [by apply printed_after_log|done].
      * match type of H with
        | context [route_failure W self p
                     (log_state W self ?m2 ?l2 (log_state W self ?m1 ?l1 ?s))] =>
            pose proof (printed_after_log self m2 l2 _ _ _
                          (printed_log self m1 l1 s)) as R2;
            pose proof (printed_log self m2 l2 (log_state W self m1 l1 s)) as R3;
            pose proof (printed_after_log self m2 l2 _ _ _
                          (printed_after_log self m1 l1 _ _ _ Q0)) as R0;
            pose proof (printed_after_log self m2 l2 _ _ _
                          (printed_after_log self m1 l1 _ _ _ Q1)) as R1;
            destruct (route_failure W self p
                        (log_state W self m2 l2 (log_state W self m1 l1 s)))
              as [rf sm] eqn:Hrf
        end.
        apply (Proute _ _ _ _ _ Hrf) in R0, R1, R2, R3.
        destruct (Troute _ _ _ Hrf) as (evs & Hte & Hev); [by frames|].
        assert (st' = sm) as ->.
        { destruct rf as [b|e]; exec in H; [by injection H as _ <-|].
          apply route_failure_raises in Hrf. rewrite Hrf in H.
          assert (is_TimeoutExpired e = false) as He by (by destruct e).
          rewrite He in H. by injection H as _ <-. }
        split; [done|]. exists (Some exe), [EvSpawn cmd 1800 (Ok cp)], evs.
        split; [done|]. split; [done|].
        exists cmd, (Ok cp). rewrite Hrc. done.
    + destruct (is_TimeoutExpired e) eqn:Hto; exec in H;
        [|destruct (is_Exception e) eqn:He; exec in H].
      * match type of H with
        | context [route_failure W self p (log_state W self ?m1 ?l1 ?s)] =>
            pose proof (printed_log self m1 l1 s) as R2;
            pose proof (printed_after_log self m1 l1 _ _ _ Q0) as R0;
            pose proof (printed_after_log self m1 l1 _ _ _ Q1) as R1;
            destruct (route_failure W self p (log_state W self m1 l1 s))
              as [rf sm] eqn:Hrf
        end.
        apply (Proute _ _ _ _ _ Hrf) in R0, R1, R2.
        destruct (Troute _ _ _ Hrf) as (evs & Hte & Hev); [by frames|].
        assert (st' = sm) as -> by (by destruct rf; injection H as _ <-).
        split; [done|]. exists (Some exe), [EvSpawn cmd 1800 (Raise e)], evs.
        split; [done|]. split; [done|].
        exists cmd, (Raise e). rewrite Hto. done.
      * match type of H with
        | context [route_failure W self p (log_state W self ?m1 ?l1 ?s)] =>
            pose proof (printed_log self m1 l1 s) as R2;
            pose proof (printed_after_log self m1 l1 _ _ _ Q0) as R0;
            pose proof (printed_after_log self m1 l1 _ _ _ Q1) as R1;
            destruct (route_failure W self p (log_state W self m1 l1 s))
              as [rf sm] eqn:Hrf
        end.
        apply (Proute _ _ _ _ _ Hrf) in R0, R1, R2.
        destruct (Troute _ _ _ Hrf) as (evs & Hte & Hev); [by frames|].
        assert (st' = sm) as -> by (by destruct rf; injection H as _ <-).
        split; [done|]. exists (Some exe), [EvSpawn cmd 1800 (Raise e)], evs.
        split; [done|]. split; [done|].
        exists cmd, (Raise e). rewrite Hto, He. done.
      * injection H as _ <-. split; [done|].
        exists (Some exe), [EvSpawn cmd 1800 (Raise e)], [].
        rewrite Ht1. split; [done|]. split; [constructor|].
        exists cmd, (Raise e). rewrite Hto, He. done.
  - exec in H.
    match type of H with
    | context [route_failure W self p
                 (log_searched_state W self (log_state W self ?m1 ?l1 ?s))] =>
        pose proof (printed_after_searched self _ _ _
                      (printed_log self m1 l1 s)) as R2;
        pose proof (printed_after_searched self _ _ _
                      (printed_after_log self m1 l1 _ _ _ P0)) as R0;
        destruct (route_failure W self p
                    (log_searched_state W self (log_state W self m1 l1 s)))
          as [rf sm] eqn:Hrf
    end.
    apply (Proute _ _ _ _ _ Hrf) in R0, R2.
    apply route_failure_frame in Hrf as ((evs & Hte & Hev) & _).
    frames in Hte.
    assert (st' = sm) as -> by (by destruct rf; injection H as _ <-).
    split; [done|]. exists None, [], evs.
    split; [by rewrite Hte, Htf, <- app_assoc|]. done.
Qed.

End SignPrinting.

(** ** More on [sign_ipa] *)

Lemma routing_not_resolve evs found :
  Forall routing evs → EvResolve found ∉ evs.
Proof.
  intros Hall Hin. rewrite Forall_forall in Hall. exact (Hall _ Hin).
Qed.

Section MoreSigning.

Variable W : World.

(** The routing of a claimed file into a folder: the events are a [mkdir]
    and at most one move, and when [move_file] returns the claim is kept
    exactly when the [mkdir] failed. *)
Lemma move_file_routing self p d sb rm st' :
  move_file W self p (Some d) sb = (rm, st') →
  p ∈ processed_files sb →
  ∃ rmk rest,
    trace st' = trace sb ++ EvMkdir d rmk :: rest
    ∧ (rest = [] ∨ ∃ dst rmv, rest = [EvMove p dst rmv])
    ∧ (∀ b, rm = Ok b →
            (p ∈ processed_files st' ↔ ∃ e, rmk = Raise e))
    ∧ (∀ e, rm = Raise e → e = KeyboardInterrupt).
Proof.
  intros H Hp. pose proof H as H'.
  apply move_file_some in H as (rmk & s1 & Hmk & H).
  apply mkdir_cases in Hmk as (_ & Ht1 & _).
  exists rmk. destruct rmk as [[]|e1].
  - destruct H as [(_ & Ht & _ & Hc & ->) | (dst & rmv & _ & _ & Ht & H)].
    + exists []. rewrite Ht, Ht1. split; [done|]. split; [by left|].
      split; [|done]. intros b _. rewrite Hc. split.
      * intros ?%not_elem_of_discard. done.
      * by intros [e ?].
    + exists [EvMove p dst rmv]. rewrite Ht, Ht1, <- app_assoc.
      split; [done|]. split; [by eauto|]. destruct rmv as [q|e2].
      * destruct H as (_ & Hc & ->). split; [|done]. intros b _.
        rewrite Hc. split; [by intros ?%not_elem_of_discard|by intros [e ?]].
      * destruct H as (_ & H).
        destruct (is_Exception e2) eqn:E; destruct H as [Hc ->].
        -- split; [|done]. intros b _. rewrite Hc.
           split; [by intros ?%not_elem_of_discard|by intros [e ?]].
        -- split; [done|]. intros e [= <-]. by apply not_Exception.
  - destruct H as (Ht & _ & Hc & ->). exists []. rewrite Ht, Ht1.
    split; [done|]. split; [by left|].
    destruct (is_Exception e1) eqn:E.
    + split; [|done]. intros b _. rewrite Hc. split; [by eauto|done].
    + split; [done|]. intros e [= <-]. by apply not_Exception.
Qed.

(** The same for the folder of the failures, which may be missing. *)
Lemma route_failure_routing self p sb rf st' :
  route_failure W self p sb = (rf, st') →
  p ∈ processed_files sb →
  ∃ evs,
    trace st' = trace sb ++ evs
    ∧ match failed_folder self with
      | None => evs = [] ∧ rf = Ok tt ∧ p ∉ processed_files st'
      | Some d =>
          ∃ rmk rest,
            evs = EvMkdir d rmk :: rest
            ∧ (rest = [] ∨ ∃ dst rmv, rest = [EvMove p dst rmv])
            ∧ (rf = Ok tt →
               (p ∈ processed_files st' ↔ ∃ e, rmk = Raise e))
      end
    ∧ (∀ e, rf = Raise e → e = KeyboardInterrupt).
Proof.
  unfold route_failure. destruct (failed_folder self) as [d|]; exec.
  - destruct (move_file W self p (Some d) sb) as [rm sm] eqn:H.
    intros Hr Hp.
    apply move_file_routing in H as (rmk & rest & Ht & Hrest & Hc & He);
      [|done].
    destruct rm as [b|e]; injection Hr as <- <-.
    + exists (EvMkdir d rmk :: rest). split; [done|]. split; [|done].
      exists rmk, rest. split; [done|]. split; [done|]. intros _. by apply (Hc b).
    + exists (EvMkdir d rmk :: rest). split; [done|]. split.
      * exists rmk, rest. split; [done|]. split; [done|]. done.
      * intros e' [= <-]. by apply He.
  - intros [= <- <-] _. exists []. rewrite app_nil_r. cbn.
    split; [done|]. split; [|done]. split; [done|]. split; [done|].
    apply not_elem_of_discard.
Qed.

(** A run of [sign_ipa] on a path that is not claimed yet, read off its
    events: the search, at most one spawn, and the routing of the file. *)
Lemma sign_ipa_run self p st r st' :
  p ∉ processed_files st →
  sign_ipa W self p st = (r, st') →
  let out := output_folder self // (stem p +:+ "_signed.ipa") in
  ∃ found spawned evs verdict,
    trace st' = trace st ++ EvResolve found :: spawned ++ evs
    ∧ Forall routing evs
    ∧ match found with
      | None => spawned = [] ∧ verdict = false
      | Some exe =>
          ∃ res,
            spawned = [EvSpawn (build_cmd self exe p out) 1800 res]
            ∧ verdict = verdict_of res
            ∧ (∀ e, res = Raise e → is_Exception e = false →
                    r = Raise e ∧ evs = [] ∧ p ∈ processed_files st')
      end
    ∧ (r = Ok verdict ∨ r = Raise KeyboardInterrupt)
    ∧ match target_of self verdict with
      | None => evs = [] ∧ (∀ b, r = Ok b → p ∉ processed_files st')
      | Some d =>
          (evs = [] ∧ r = Raise KeyboardInterrupt)
          ∨ ∃ rmk rest,
              evs = EvMkdir d rmk :: rest
              ∧ (rest = [] ∨ ∃ dst rmv, rest = [EvMove p dst rmv])
              ∧ (∀ b, r = Ok b →
                      (p ∈ processed_files st' ↔ ∃ e, rmk = Raise e))
      end.
Proof.
  intros Hp H out.
  apply sign_ipa_cases in H as (sb & Hcb & H); [|done].
  assert (p ∈ processed_files sb) as Hpb by (rewrite Hcb; set_solver).
  assert (∀ found spawned rf,
            trace sb = trace st ++ EvResolve found :: spawned →
            route_failure W self p sb = (rf, st') →
            r = after rf false →
            ∃ evs,
              trace st' = trace st ++ EvResolve found :: spawned ++ evs
              ∧ Forall routing evs
              ∧ (r = Ok false ∨ r = Raise KeyboardInterrupt)
              ∧ match target_of self false with
                | None => evs = [] ∧ (∀ b, r = Ok b → p ∉ processed_files st')
                | Some d =>
                    (evs = [] ∧ r = Raise KeyboardInterrupt)
                    ∨ ∃ rmk rest,
                        evs = EvMkdir d rmk :: rest
                        ∧ (rest = [] ∨ ∃ dst rmv, rest = [EvMove p dst rmv])
                        ∧ (∀ b, r = Ok b →
                                (p ∈ processed_files st'
                                 ↔ ∃ e, rmk = Raise e))
                end) as Hroute.
  { intros found spawned rf Ht Hrf ->.
    pose proof (route_failure_frame _ _ _ _ _ _ Hrf) as [(evs0 & Hte0 & Hall) _].
    apply route_failure_routing in Hrf as (evs & Hte & Hev & He); [|done].
    assert (evs0 = evs) as -> by (rewrite Hte0 in Hte; by simplify_list_eq).
    exists evs. rewrite Hte, Ht, <- app_assoc. split; [done|].
    split; [done|]. split.
    { destruct rf as [[]|e]; [by left|]. right. by rewrite (He e eq_refl). }
    unfold target_of. destruct (failed_folder self) as [d|].
    - right. destruct Hev as (rmk & rest & -> & Hrest & Hc).
      exists rmk, rest. split; [done|]. split; [done|].
      intros b Hb. apply Hc. by destruct rf as [[]|].
    - destruct Hev as (-> & -> & Hc). done. }
  destruct H as [(Ht & rf & Hrf & Hr) | (exe & res & Ht & H)].
  { destruct (Hroute None [] rf Ht Hrf Hr) as (evs & ? & ? & ? & ?).
    exists None, [], evs, false. done. }
  destruct res as [cp|e].
  - destruct (returncode cp =? 0)%Z eqn:Hrc.
    + destruct (processed_folder self) as [d|] eqn:Hpf.
      * destruct H as (rm & Hmf & ->).
        pose proof (move_file_frame _ _ _ _ _ _ _ Hmf)
          as [(evs0 & Hte0 & Hall) _].
        apply move_file_routing in Hmf as (rmk & rest & Hte & Hrest & Hc & He);
          [|done].
        assert (evs0 = EvMkdir d rmk :: rest) as ->
          by (rewrite Hte0 in Hte; by simplify_list_eq).
        exists (Some exe), [EvSpawn (build_cmd self exe p out) 1800 (Ok cp)],
          (EvMkdir d rmk :: rest), true.
        split; [by rewrite Hte, Ht, <- app_assoc|]. split; [done|].
        split; [exists (Ok cp); cbn; by rewrite Hrc|].
        split.
        { destruct rm as [b|e]; [by left|]. right. by rewrite (He e eq_refl). }
        unfold target_of. rewrite Hpf. right. exists rmk, rest.
        split; [done|]. split; [done|]. intros b Hb.
        destruct rm as [b'|]; [|done]. by apply (Hc b').
      * destruct H as (_ & Hte & Hc & ->).
        exists (Some exe), [EvSpawn (build_cmd self exe p out) 1800 (Ok cp)],
          [], true.
        split; [by rewrite Hte, Ht|]. split; [constructor|].
        split; [exists (Ok cp); cbn; by rewrite Hrc|].
        split; [by left|]. unfold target_of. rewrite Hpf.
        split; [done|]. intros b _. rewrite Hc. apply not_elem_of_discard.
    + destruct H as (rf & Hrf & Hr).
      destruct (Hroute (Some exe)
                  [EvSpawn (build_cmd self exe p out) 1800 (Ok cp)]
                  rf Ht Hrf Hr) as (evs & ? & ? & ? & ?).
      exists (Some exe), [EvSpawn (build_cmd self exe p out) 1800 (Ok cp)],
        evs, false.
      split; [done|]. split; [done|]. split; [|done].
      exists (Ok cp). cbn. by rewrite Hrc.
  - destruct (is_Exception e) eqn:He.
    + destruct H as (rf & Hrf & Hr).
      destruct (Hroute (Some exe)
                  [EvSpawn (build_cmd self exe p out) 1800 (Raise e)]
                  rf Ht Hrf Hr) as (evs & ? & ? & ? & ?).
      exists (Some exe), [EvSpawn (build_cmd self exe p out) 1800 (Raise e)],
        evs, false.
      split; [done|]. split; [done|]. split; [|done]. exists (Raise e).
      split; [done|]. split; [done|]. intros e' [= <-]. congruence.
    + destruct H as [-> ->]. apply not_Exception in He as ->.
      exists (Some exe),
        [EvSpawn (build_cmd self exe p out) 1800 (Raise KeyboardInterrupt)],
        [], false.
      split; [by rewrite Ht|]. split; [constructor|]. split.
      { exists (Raise KeyboardInterrupt). split; [done|]. split; [done|].
        by intros e' [= <-] _. }
      split; [by right|]. unfold target_of.
      destruct (failed_folder self); [by left|done].
Qed.

End MoreSigning.

Lemma spawn_among (found : option Path) spawned evs cmd t res :
  Forall routing evs →
  EvSpawn cmd t res ∈ EvResolve found :: spawned ++ evs →
  EvSpawn cmd t res ∈ spawned.
Proof.
  intros Hall Hin. apply elem_of_cons in Hin as [?|Hin]; [done|].
  apply elem_of_app in Hin as [?|Hin]; [done|].
  by apply routing_not_spawn in Hin.
Qed.

Section SignFacts.

Variable W : World.

(** X11: when [sign_ipa] returns on a path it claimed, it answers [True]
    exactly when the signer was run and exited 0, whatever became of the
    file afterwards: a move that fails does not turn the answer into
    [False], and a missing executable, a non-zero exit status, a timeout
    or another error of the spawn all give [False]. *)
Theorem sign_ipa_true_iff_exit_zero self p st b st' :
  p ∉ processed_files st →
  sign_ipa W self p st = (Ok b, st') →
  b = true
  ↔ ∃ cmd cp, EvSpawn cmd 1800 (Ok cp) ∈ events_of st st'
              ∧ returncode cp = 0%Z.
Proof.
  intros Hp H.
  apply sign_ipa_run in H
    as (found & spawned & evs & verdict & Ht & Hall & Hf & Hr & _); [|done].
  rewrite (events_of_app _ _ _ Ht).
  destruct Hr as [[= ->]|?]; [|done]. split.
  - intros ->. destruct found as [exe|]; [|by destruct Hf].
    destruct Hf as (res & -> & Hv & _).
    destruct res as [cp|e]; [|done]. cbn in Hv. symmetry in Hv.
    apply Z.eqb_eq in Hv. eexists _, cp. split; [|done]. right. by left.
  - intros (cmd & cp & Hin & Hrc). apply spawn_among in Hin; [|done].
    destruct found as [exe|];
      [|destruct Hf as [-> _]; by apply elem_of_nil in Hin].
    destruct Hf as (res & -> & -> & _).
    apply list_elem_of_singleton in Hin. injection Hin as _ <-.
    cbn. by apply Z.eqb_eq.
Qed.

(** The claim [sign_ipa] took is left behind by one way out only. *)
Lemma sign_ipa_claim_left self p st b st' :
  p ∉ processed_files st →
  sign_ipa W self p st = (Ok b, st') →
  p ∈ processed_files st'
  ↔ ∃ d e, EvMkdir d (Raise e) ∈ events_of st st'.
Proof.
  intros Hp H.
  apply sign_ipa_run in H
    as (found & spawned & evs & verdict & Ht & Hall & Hf & Hr & Hroute);
    [|done].
  rewrite (events_of_app _ _ _ Ht).
  assert (∀ d e, EvMkdir d (Raise e) ∈ EvResolve found :: spawned ++ evs
                 ↔ EvMkdir d (Raise e) ∈ evs) as Hin.
  { intros d e. rewrite elem_of_cons, elem_of_app. split; [|by auto].
    intros [?|[Hs|?]]; [done| |done].
    destruct found as [exe|]; [destruct Hf as (res & -> & _)
                              |destruct Hf as [-> _]];
      pick_event Hs; done. }
  destruct (target_of self verdict) as [d|].
  - destruct Hroute as [[_ ?] | (rmk & rest & -> & Hrest & Hc)]; [done|].
    rewrite (Hc b eq_refl). split.
    + intros [e ->]. exists d, e. apply Hin. by left.
    + intros (d' & e & Hev). apply Hin in Hev.
      apply elem_of_cons in Hev as [[= _ <-]|Hev]; [by eauto|].
      destruct Hrest as [-> | (dst & rmv & ->)]; pick_event Hev; done.
  - destruct Hroute as [-> Hc]. split; [by intros ?%(Hc b eq_refl)|].
    intros (d & e & Hev). apply Hin in Hev. by apply elem_of_nil in Hev.
Qed.

(** X12: when [sign_ipa] returns on a path it claimed, the path is still
    claimed exactly when the folder the file was routed to could not be
    created; on every other way out the claim is released. *)
Theorem sign_ipa_claim_left_iff_mkdir_failed self p st b st' :
  p ∉ processed_files st →
  sign_ipa W self p st = (Ok b, st') →
  p ∈ processed_files st'
  ↔ ∃ d e, EvMkdir d (Raise e) ∈ events_of st st'.
Proof. apply sign_ipa_claim_left. Qed.

(** X13: with neither a processed nor a failed folder, [sign_ipa] makes no
    folder and moves nothing, and when it returns the claim set is the one
    it started from: the file stays in the watch folder and is taken up
    again by the next scan, signed or not. *)
Theorem sign_ipa_without_folders self p st b st' :
  processed_folder self = None →
  failed_folder self = None →
  p ∉ processed_files st →
  sign_ipa W self p st = (Ok b, st') →
  processed_files st' = processed_files st
  ∧ ∀ ev, ev ∈ events_of st st' → ¬ routing ev.
Proof.
  intros Hpf Hff Hp H. pose proof H as H'.
  apply sign_ipa_run in H
    as (found & spawned & evs & verdict & Ht & Hall & Hf & Hr & Hroute);
    [|done].
  assert (target_of self verdict = None) as Htg.
  { unfold target_of. by destruct verdict. }
  rewrite Htg in Hroute. destruct Hroute as [-> Hc].
  split.
  - apply sign_ipa_frame in H' as [_ [Hcl | Hcl]]; [|done|done].
    exfalso. apply (Hc b); [by destruct Hr|]. rewrite Hcl. set_solver.
  - rewrite (events_of_app _ _ _ Ht), app_nil_r. intros ev Hev.
    apply elem_of_cons in Hev as [->|Hev]; [by intros []|].
    destruct found as [exe|]; [destruct Hf as (res & -> & _)
                              |destruct Hf as [-> _]];
      pick_event Hev; subst; by intros [].
Qed.

(** X14: when the executable cannot be found at the time of the job, no
    process is spawned: [sign_ipa] prints the error, routes the file as a
    failure and, if it returns, answers [False]. *)
Theorem sign_ipa_missing_executable self p st r st' :
  p ∉ processed_files st →
  sign_ipa W self p st = (r, st') →
  EvResolve None ∈ events_of st st' →
  (∀ cmd t res, EvSpawn cmd t res ∉ events_of st st')
  ∧ printed st' "ERROR" "Error: SignTools executable not found"
  ∧ (∀ d res, EvMkdir d res ∈ events_of st st' → failed_folder self = Some d)
  ∧ (r = Ok false ∨ r = Raise KeyboardInterrupt).
Proof.
  intros Hp H Hev. pose proof H as H'.
  apply sign_ipa_run in H
    as (found & spawned & evs & verdict & Ht & Hall & Hf & Hr & Hroute);
    [|done].
  rewrite (events_of_app _ _ _ Ht) in Hev |- *.
  assert (found = None) as ->.
  { apply elem_of_cons in Hev as [[= <-]|Hev]; [done|].
    apply elem_of_app in Hev as [Hev|Hev];
      [|by apply routing_not_resolve in Hev].
    destruct found as [exe|]; [|done]. destruct Hf as (res & -> & _).
    pick_event Hev; done. }
  destruct Hf as [-> ->]. cbn [app] in *. split; [|split; [|split; [|done]]].
  - intros cmd t res Hin. apply elem_of_cons in Hin as [?|Hin]; [done|].
    by apply routing_not_spawn in Hin.
  - apply sign_ipa_printed in H' as (_ & found & sp & evs' & Ht' & _ & Hpr);
      [|done].
    rewrite Ht in Ht'. apply app_inv_head in Ht'. injection Ht' as <- _.
    by destruct Hpr.
  - intros d res Hin. apply elem_of_cons in Hin as [?|Hin]; [done|].
    unfold target_of in Hroute. destruct (failed_folder self) as [d'|].
    + destruct Hroute as [[-> _] | (rmk & rest & -> & Hrest & _)];
        [by apply elem_of_nil in Hin|].
      apply elem_of_cons in Hin as [[= -> _]|Hin]; [done|].
      destruct Hrest as [-> | (dst & rmv & ->)]; pick_event Hin; done.
    + destruct Hroute as [-> _]. by apply elem_of_nil in Hin.
Qed.

(** X15: a signer that is still running after the 1800 seconds counts as
    a failure: the time-out is printed as an error, nothing is routed to
    the processed folder, and [sign_ipa], if it returns, answers
    [False]. *)
Theorem sign_ipa_timeout self p st r st' cmd t m :
  p ∉ processed_files st →
  sign_ipa W self p st = (r, st') →
  EvSpawn cmd t (Raise (TimeoutExpired m)) ∈ events_of st st' →
  printed st' "ERROR" ("Signing timed out for " +:+ name p)
  ∧ (∀ d res, EvMkdir d res ∈ events_of st st' → failed_folder self = Some d)
  ∧ (r = Ok false ∨ r = Raise KeyboardInterrupt).
Proof.
  intros Hp H Hev. pose proof H as H'.
  apply sign_ipa_run in H
    as (found & spawned & evs & verdict & Ht & Hall & Hf & Hr & Hroute);
    [|done].
  rewrite (events_of_app _ _ _ Ht) in Hev |- *.
  apply spawn_among in Hev; [|done].
  destruct found as [exe|];
    [|destruct Hf as [-> _]; by apply elem_of_nil in Hev].
  destruct Hf as (res & -> & -> & _).
  apply list_elem_of_singleton in Hev. injection Hev as _ _ <-.
  cbn [verdict_of] in *. split; [|split; [|done]].
  - apply sign_ipa_printed in H' as (_ & found & sp & evs' & Ht' & _ & Hpr);
      [|done].
    rewrite Ht in Ht'. apply app_inv_head in Ht'. injection Ht' as <- Ht'.
    destruct Hpr as (cmd' & res & -> & _ & Hpr). cbn [app] in Ht'.
    injection Ht' as <- <- _. done.
  - intros d res Hin. apply elem_of_cons in Hin as [?|Hin]; [done|].
    apply elem_of_cons in Hin as [?|Hin]; [done|].
    unfold target_of in Hroute. destruct (failed_folder self) as [d'|].
    + destruct Hroute as [[-> _] | (rmk & rest & -> & Hrest & _)];
        [by apply elem_of_nil in Hin|].
      apply elem_of_cons in Hin as [[= -> _]|Hin]; [done|].
      destruct Hrest as [-> | (dst & rmv & ->)]; pick_event Hin; done.
    + destruct Hroute as [-> _]. by apply elem_of_nil in Hin.
Qed.

(** X16: Ctrl+C while the signer runs is not swallowed: [sign_ipa] raises
    it at once, routes nothing and leaves the path claimed. *)
Theorem sign_ipa_interrupted self p st r st' cmd t :
  p ∉ processed_files st →
  sign_ipa W self p st = (r, st') →
  EvSpawn cmd t (Raise KeyboardInterrupt) ∈ events_of st st' →
  r = Raise KeyboardInterrupt
  ∧ p ∈ processed_files st'
  ∧ ∃ exe, events_of st st'
           = [EvResolve (Some exe); EvSpawn cmd t (Raise KeyboardInterrupt)].
Proof.
  intros Hp H Hev.
  apply sign_ipa_run in H
    as (found & spawned & evs & verdict & Ht & Hall & Hf & Hr & Hroute);
    [|done].
  rewrite (events_of_app _ _ _ Ht) in Hev |- *.
  apply spawn_among in Hev; [|done].
  destruct found as [exe|];
    [|destruct Hf as [-> _]; by apply elem_of_nil in Hev].
  destruct Hf as (res & -> & _ & Hki).
  apply list_elem_of_singleton in Hev. injection Hev as -> -> <-.
  destruct (Hki KeyboardInterrupt eq_refl eq_refl) as (-> & -> & ?).
  split; [done|]. split; [done|]. by exists exe.
Qed.

(** X17: of the claim set [sign_ipa] touches the path it is given and no
    other; and the only process it spawns is the one right after the
    search for the executable. *)
Theorem sign_ipa_touches_its_path_only self p st :
  let st' := (sign_ipa W self p st).2 in
  (∀ q, q ≠ p → q ∈ processed_files st' ↔ q ∈ processed_files st)
  ∧ (∀ i cmd t res,
       events_of st st' !! i = Some (EvSpawn cmd t res) → i = 1%nat).
Proof.
  destruct (sign_ipa W self p st) as [r st'] eqn:H. cbn [snd].
  destruct (decide (p ∈ processed_files st)) as [Hp|Hp].
  { rewrite sign_ipa_claimed in H by done. injection H as _ <-.
    split; [done|]. intros i cmd t res. by rewrite events_of_refl. }
  apply sign_ipa_frame in H as ((found & sp & evs & Ht & Hall & Hsp) & Hc);
    [|done].
  split.
  - intros q Hq. destruct Hc as [-> | ->]; set_solver.
  - intros i cmd t res. rewrite (events_of_app _ _ _ Ht).
    destruct i as [|[|i]]; [done|done|]. intros Hi. exfalso.
    assert (EvSpawn cmd t res ∈ evs) as Hin;
      [|by apply routing_not_spawn in Hin].
    cbn in Hi. apply list_elem_of_lookup.
    destruct found as [exe|]; [destruct Hsp as (res' & ->)|subst sp];
      cbn in Hi; eauto.
Qed.

End SignFacts.

Section FailureRouting.

Variable W : World.

(** Where a move that was carried out has put the file. *)
Lemma moved_below self p d sb rm st' dst q :
  move_file W self p (Some d) sb = (rm, st') →
  EvMove p dst (Ok q) ∈ events_of sb st' →
  is_Some (fs st' !! q)
  ∧ (∃ below, below ≠ [] ∧ q = d ++ below)
  ∧ (q ≠ p → fs st' !! p = None).
Proof.
  intros H Hev. apply move_file_some in H as (rmk & s1 & Hmk & H).
  apply mkdir_cases in Hmk as (_ & Ht1 & _).
  destruct rmk as [[]|e].
  2:{ destruct H as (Ht & _). rewrite Ht1 in Ht.
      rewrite (events_of_app _ _ _ Ht) in Hev. pick_event Hev; done. }
  destruct H as [(_ & Ht & _) | (dst0 & rmv & _ & Hdst & Ht & H)].
  { rewrite Ht1 in Ht. rewrite (events_of_app _ _ _ Ht) in Hev.
    pick_event Hev; done. }
  rewrite Ht1, <- app_assoc in Ht. rewrite (events_of_app _ _ _ Ht) in Hev.
  pick_event Hev; try done. injection Hev as -> <-.
  destruct H as ((node & Hsrc & Hfs & Hq0) & _). rewrite Hfs.
  split; [|split].
  - rewrite lookup_insert_eq. eauto.
  - assert (∃ x, dst0 = d ++ [x]) as [x ->].
    { destruct Hdst as [[_ ->] | [_ [t ->]]]; unfold joinpath; eauto. }
    destruct Hq0 as [[-> _] | (-> & _)].
    + by exists [x].
    + exists [x; name p]. unfold joinpath. by rewrite <- app_assoc.
  - intros Hne. rewrite lookup_insert_ne by done. apply lookup_delete_eq.
Qed.

(** X18: a signer that exits with another status than 0 makes [sign_ipa]
    print what the signer wrote to its two streams, word for word, and
    answer [False]; with a failed folder that could be ensured the path is
    released, and a move that is carried out leaves the file below the
    failed folder and no longer at its source path. *)
Theorem sign_ipa_failure_routing self p d st b st' cmd cp :
  p ∉ processed_files st →
  failed_folder self = Some d →
  sign_ipa W self p st = (Ok b, st') →
  EvSpawn cmd 1800 (Ok cp) ∈ events_of st st' →
  returncode cp ≠ 0%Z →
  EvMkdir d (Ok tt) ∈ events_of st st' →
  b = false
  ∧ (p ∉ processed_files st')
  ∧ printed st' "ERROR"
      ("Signing failed for " +:+ name p +:+ ": " +:+ stderr cp)
  ∧ printed st' "ERROR" ("Output: " +:+ stdout cp)
  ∧ (∀ dst q, EvMove p dst (Ok q) ∈ events_of st st' →
       is_Some (fs st' !! q)
       ∧ (∃ below, below ≠ [] ∧ q = d ++ below)
       ∧ (q ≠ p → fs st' !! p = None)).
Proof.
  intros Hp Hff H Hsp Hrc Hmk.
  assert ((returncode cp =? 0)%Z = false) as Hrc' by (by apply Z.eqb_neq).
  pose proof H as Hprint. pose proof H as Hrun.
  apply sign_ipa_printed in Hprint
    as (_ & found & sp & evs & Ht & Hall & Hpr); [|done].
  rewrite (events_of_app _ _ _ Ht) in Hsp. apply spawn_among in Hsp; [|done].
  destruct found as [exe|];
    [|destruct Hpr as [-> _]; by apply elem_of_nil in Hsp].
  destruct Hpr as (cmd' & res & -> & _ & Hpr).
  apply list_elem_of_singleton in Hsp. injection Hsp as <- <-.
  rewrite Hrc' in Hpr. destruct Hpr as [Pe Po].
  apply sign_ipa_run in Hrun
    as (found & sp & evs2 & verdict & Ht2 & _ & Hf & Hr & Hroute); [|done].
  rewrite Ht in Ht2. apply app_inv_head in Ht2. injection Ht2 as <- Ht2.
  destruct Hf as (res & -> & -> & _). cbn [app] in Ht2.
  injection Ht2 as _ <- <-. cbn [verdict_of] in *. rewrite Hrc' in *.
  destruct Hr as [[= ->]|?]; [|done]. split; [done|].
  unfold target_of in Hroute. rewrite Hff in Hroute.
  destruct Hroute as [[_ ?] | (rmk & rest & -> & Hrest & Hc)]; [done|].
  assert (rmk = Ok tt) as ->.
  { rewrite (events_of_app _ _ _ Ht) in Hmk.
    apply elem_of_cons in Hmk as [?|Hmk]; [done|].
    apply elem_of_cons in Hmk as [?|Hmk]; [done|].
    apply elem_of_cons in Hmk as [[= <-]|Hmk]; [done|].
    destruct Hrest as [-> | (dst & rmv & ->)]; pick_event Hmk; done. }
  split; [rewrite (Hc false eq_refl); by intros [e ?]|].
  split; [done|]. split; [done|].
  intros dst q Hmv.
  apply sign_ipa_cases in H as (sb & Hcb & H); [|done].
  destruct H as [(Htb & rf0 & H & _) | (exe' & res & Htb & H)].
  { exfalso. apply route_failure_frame in H as ((evs' & Hte & _) & _).
    rewrite Htb, <- app_assoc, Ht in Hte.
    apply app_inv_head in Hte. by injection Hte. }
  assert (∃ evs', trace st' = trace sb ++ evs') as [evs' Hte'].
  { destruct res as [cp'|e];
      [destruct (returncode cp' =? 0)%Z;
       [destruct (processed_folder self)|]
      |destruct (is_Exception e)].
    - destruct H as (rm & Hmf & _).
      apply move_file_frame in Hmf as ((? & ? & _) & _). eauto.
    - destruct H as (_ & -> & _). exists []. by rewrite app_nil_r.
    - destruct H as (rf & Hrf & _).
      apply route_failure_frame in Hrf as ((? & ? & _) & _). eauto.
    - destruct H as (rf & Hrf & _).
      apply route_failure_frame in Hrf as ((? & ? & _) & _). eauto.
    - destruct H as [-> _]. exists []. by rewrite app_nil_r. }
  assert (res = Ok cp ∧ evs' = EvMkdir d (Ok ()) :: rest) as [-> ->].
  { rewrite Htb, <- app_assoc, Ht in Hte'.
    apply app_inv_head in Hte'. cbn in Hte'. by injection Hte' as _ _ -> ->. }
  rewrite Hrc' in H. destruct H as (rf & Hrf & _).
  unfold route_failure in Hrf. rewrite Hff in Hrf. exec in Hrf.
  destruct (move_file W self p (Some d) sb) as [rm sm] eqn:Hmf.
  assert (sm = st') as -> by (by destruct rm; injection Hrf as _ <-).
  apply (moved_below _ _ _ _ _ _ dst q Hmf).
  rewrite (events_of_app _ _ _ Hte'). rewrite (events_of_app _ _ _ Ht) in Hmv.
  pick_event Hmv; try done; set_solver.
Qed.

End FailureRouting.

Lemma sign_ipa_true_iff_exit_zero_witness :
  let st := Scenario.boot Scenario.disk ∅ in
  let st' := (sign_ipa Cases.failing Scenario.signer Scenario.app st).2 in
  false = true
  ↔ ∃ cmd cp, EvSpawn cmd 1800 (Ok cp) ∈ events_of st st'
              ∧ returncode cp = 0%Z.
Proof.
  intros st st'.
  apply (sign_ipa_true_iff_exit_zero Cases.failing Scenario.signer
           Scenario.app st false st').
  - vm_compute. set_solver.
  - vm_compute. reflexivity.
Defined.

Lemma sign_ipa_claim_left_iff_mkdir_failed_witness :
  let st := Scenario.boot Scenario.fresh ∅ in
  let st' := (sign_ipa Scenario.readonly Scenario.signer Scenario.app st).2 in
  Scenario.app ∈ processed_files st'
  ↔ ∃ d e, EvMkdir d (Raise e) ∈ events_of st st'.
Proof.
  intros st st'.
  apply (sign_ipa_claim_left_iff_mkdir_failed Scenario.readonly
           Scenario.signer Scenario.app st true st').
  - vm_compute. set_solver.
  - vm_compute. reflexivity.
Defined.

Lemma sign_ipa_without_folders_witness :
  let st := Scenario.boot Scenario.disk ∅ in
  let st' := (sign_ipa Scenario.calm Cases.pinned Scenario.app st).2 in
  processed_files st' = processed_files st
  ∧ ∀ ev, ev ∈ events_of st st' → ¬ routing ev.
Proof.
  intros st st'.
  apply (sign_ipa_without_folders Scenario.calm Cases.pinned Scenario.app
           st true st').
  - reflexivity.
  - reflexivity.
  - vm_compute. set_solver.
  - vm_compute. reflexivity.
Defined.

Lemma sign_ipa_missing_executable_witness :
  let st := Scenario.boot Scenario.bare ∅ in
  let st' := (sign_ipa Scenario.calm Scenario.signer Scenario.app st).2 in
  (∀ cmd t res, EvSpawn cmd t res ∉ events_of st st')
  ∧ printed st' "ERROR" "Error: SignTools executable not found"
  ∧ (∀ d res, EvMkdir d res ∈ events_of st st' →
       failed_folder Scenario.signer = Some d)
  ∧ (Ok false = Ok false
     ∨ Ok false = @Raise bool KeyboardInterrupt).
Proof.
  intros st st'.
  apply (sign_ipa_missing_executable Scenario.calm Scenario.signer
           Scenario.app st (Ok false) st').
  - vm_compute. set_solver.
  - vm_compute. reflexivity.
  - apply list_elem_of_In. vm_compute. left. reflexivity.
Defined.

Lemma sign_ipa_timeout_witness :
  let st := Scenario.boot Scenario.disk ∅ in
  let st' := (sign_ipa Cases.slow Scenario.signer Scenario.app st).2 in
  printed st' "ERROR" ("Signing timed out for " +:+ name Scenario.app)
  ∧ (∀ d res, EvMkdir d res ∈ events_of st st' →
       failed_folder Scenario.signer = Some d)
  ∧ (Ok false = Ok false
     ∨ Ok false = @Raise bool KeyboardInterrupt).
Proof.
  intros st st'.
  apply (sign_ipa_timeout Cases.slow Scenario.signer Scenario.app st
           (Ok false) st'
           (build_cmd Scenario.signer Scenario.exe Scenario.app
              (output_folder Scenario.signer // "app_signed.ipa"))
           1800 "timed out after 1800 seconds").
  - vm_compute. set_solver.
  - vm_compute. reflexivity.
  - apply list_elem_of_In. vm_compute. right. left. reflexivity.
Defined.

Lemma sign_ipa_interrupted_witness :
  let st := Scenario.boot Scenario.disk ∅ in
  let st' :=
    (sign_ipa Cases.interrupted_sign Scenario.signer Scenario.app st).2 in
  let cmd := build_cmd Scenario.signer Scenario.exe Scenario.app
               (output_folder Scenario.signer // "app_signed.ipa") in
  @Raise bool KeyboardInterrupt = Raise KeyboardInterrupt
  ∧ Scenario.app ∈ processed_files st'
  ∧ ∃ exe, events_of st st'
           = [EvResolve (Some exe); EvSpawn cmd 1800 (Raise KeyboardInterrupt)].
Proof.
  intros st st' cmd.
  apply (sign_ipa_interrupted Cases.interrupted_sign Scenario.signer
           Scenario.app st (Raise KeyboardInterrupt) st' cmd 1800).
  - vm_compute. set_solver.
  - vm_compute. reflexivity.
  - apply list_elem_of_In. vm_compute. right. left. reflexivity.
Defined.

Lemma sign_ipa_failure_routing_witness :
  let st := Scenario.boot Scenario.disk ∅ in
  let st' := (sign_ipa Cases.failing Scenario.signer Scenario.app st).2 in
  false = false
  ∧ (Scenario.app ∉ processed_files st')
  ∧ printed st' "ERROR"
      ("Signing failed for " +:+ name Scenario.app +:+ ": "
       +:+ stderr Cases.rejected)
  ∧ printed st' "ERROR" ("Output: " +:+ stdout Cases.rejected)
  ∧ (∀ dst q, EvMove Scenario.app dst (Ok q) ∈ events_of st st' →
       is_Some (fs st' !! q)
       ∧ (∃ below, below ≠ [] ∧ q = ["failed"] ++ below)
       ∧ (q ≠ Scenario.app → fs st' !! Scenario.app = None)).
Proof.
  intros st st'.
  apply (sign_ipa_failure_routing Cases.failing Scenario.signer Scenario.app
           ["failed"] st false st'
           (build_cmd Scenario.signer Scenario.exe Scenario.app
              (output_folder Scenario.signer // "app_signed.ipa"))
           Cases.rejected).
  - vm_compute. set_solver.
  - reflexivity.
  - vm_compute. reflexivity.
  - apply list_elem_of_In. vm_compute. right. left. reflexivity.
  - vm_compute. discriminate.
  - apply list_elem_of_In. vm_compute. right. right. left. reflexivity.
Defined.


Section InterruptedResolving.

Context {I : Interrupts}.
Variable W : World.

(** Whenever Ctrl+C comes, the search returns what it would return
    undisturbed, or is cut in one of its two warnings. *)
Lemma find_sign_tools_run self st r st' :
  find_sign_tools W self st = (r, st') →
  fs st' = fs st
  ∧ processed_files st' = processed_files st
  ∧ ((r = Ok (find_result W self st)
      ∧ trace st' = trace st ++ [EvResolve (find_result W self st)]
      ∧ console st `prefix_of` console st')
     ∨ (r = Raise KeyboardInterrupt ∧ cut self ∧ trace st' = trace st)).
Proof.
  intros H. unfold find_result.
  unfold find_sign_tools, or_else in *. exec in H. run_steps.
  repeat match type of H with
         | context [match ?x with _ => _ end] =>
             match x with
             | sign_tools_path _ => destruct x eqn:?
             | environ_SIGNTOOLS_PATH _ => destruct x eqn:?
             | usable _ _ => destruct x eqn:?
             end; exec in H; run_steps
         | context [log _ _ _ _ _] => split_log H; run_steps
         end.
  all: injection H as <- <-; frames_cut.
  all: split; [done|]; split; [done|].
  all: try (right; split; [done|]; split; [by eapply log_is_cut_true|done]).
  all: left; cbn [fst]; split; [done|]; split; [done|].
  all: repeat (etrans; [|apply console_log_grows]); done.
Qed.

(** X2: the search leaves the file system and the claim set alone, and a
    path it returns exists and is executable, unless it is the answer of
    [shutil.which]. This holds whenever Ctrl+C comes. *)
Theorem find_sign_tools_sound self st r st' :
  find_sign_tools W self st = (r, st') →
  fs st' = fs st
  ∧ processed_files st' = processed_files st
  ∧ ∀ p, r = Ok (Some p) →
         usable (fs st) p = true ∨ which_SignTools W (fs st) = Some p.
Proof.
  intros H. apply find_sign_tools_run in H as (Hf & Hc & H).
  do 2 (split; [done|]). intros p ->.
  destruct H as [([= Hp] & _) | (? & _)]; [|done].
  symmetry in Hp. rewrite find_result_steps in Hp.
  repeat (apply union_Some_inv in Hp as [Hp|[_ Hp]]).
  - apply given_Some_inv in Hp as [_ ?]. auto.
  - apply given_Some_inv in Hp as [_ ?]. auto.
  - apply find_some in Hp as [_ ?]. auto.
  - apply find_some in Hp as [_ ?]. auto.
  - apply search_up_usable in Hp. auto.
  - auto.
  - apply find_some in Hp as [_ ?]. auto.
Qed.

End InterruptedResolving.

Lemma find_sign_tools_sound_witness :
  let st := Scenario.boot Scenario.disk ∅ in
  let st' := (find_sign_tools Cases.with_env Scenario.signer st).2 in
  fs st' = fs st
  ∧ processed_files st' = processed_files st
  ∧ ∀ p, Ok (Some Scenario.exe) = Ok (Some p) →
         usable (fs st) p = true
         ∨ which_SignTools Cases.with_env (fs st) = Some p.
Proof.
  intros st st'.
  apply (find_sign_tools_sound Cases.with_env Scenario.signer st
           (Ok (Some Scenario.exe)) st').
  vm_compute. reflexivity.
Defined.

Section InterruptedMoves.

Context {I : Interrupts}.
Variable W : World.


(** X7: [move_file] loses nothing but what it overwrites. Afterwards the
    source is where it was or at the destination [shutil.move] reported,
    and every other entry of the file system is still there, unchanged,
    with one exception: a regular file that has the timestamped name the
    mover picked is replaced by the file that is moved. *)
Theorem move_file_loses_only_what_it_overwrites self p dest st r st' :
  move_file W self p dest st = (r, st') →
  (∀ node, fs st !! p = Some node →
           fs st' !! p = Some node
           ∨ ∃ dst q, EvMove p dst (Ok q) ∈ events_of st st'
                      ∧ fs st' !! q = Some node)
  ∧ (∀ x node, x ≠ p → fs st !! x = Some node →
       fs st' !! x = Some node
       ∨ (is_file (fs st) x = true
          ∧ EvMove p x (Ok x) ∈ events_of st st'
          ∧ ∃ d t, dest = Some d
                   ∧ x = d // (stem p +:+ "_" +:+ strftime_compact t
                               +:+ suffix p))).
Proof.
  intros H. destruct dest as [d|].
  2:{ unfold move_file in H. exec in H. injection H as _ <-. auto. }
  apply move_file_run in H as (rm & st1 & Hmk & H).
  apply mkdir_cases in Hmk as (_ & Ht1 & Hf1).
  destruct rm as [[]|e1].
  - destruct Hf1 as [Hf1 _].
    assert (∀ x n, fs st !! x = Some n → fs st1 !! x = Some n) as Hkeep.
    { intros x n Hx. rewrite Hf1. by apply make_dirs_keeps. }
    destruct H as [(_ & _ & -> & _) | (dst & rmv & Hsrc & Hdst & Ht & H)].
    { split; [by auto|]. intros x n _ Hx. left. by apply Hkeep. }
    rewrite Ht1, <- app_assoc in Ht.
    destruct rmv as [q|e2].
    + destruct H as ((node & Hp & -> & Hq) & _). split.
      * intros n Hn. right. exists dst, q.
        rewrite (events_of_app _ _ _ Ht). split; [set_solver|].
        rewrite (Hkeep _ _ Hn) in Hp. injection Hp as <-.
        by rewrite lookup_insert_eq.
      * intros x n Hx Hn. destruct (decide (q = x)) as [->|Hne].
        2:{ left. rewrite lookup_insert_ne, lookup_delete_ne by done.
            by apply Hkeep. }
        right. pose proof (Hkeep _ _ Hn) as Hn1.
        destruct Hq as [[-> Hdir] | (_ & _ & Hfree)].
        2:{ unfold exists_ in Hfree. by rewrite Hn1 in Hfree. }
        assert (exists_ (fs st1) (d // name p) = true) as Hcol.
        { destruct (exists_ (fs st1) (d // name p)) eqn:E; [done|].
          subst dst. unfold exists_ in E. by rewrite Hn1 in E. }
        rewrite Hcol in Hdst. split; [|split].
        -- unfold is_dir in Hdir. rewrite Hn1 in Hdir. unfold is_file.
           rewrite Hn. by destruct n.
        -- rewrite (events_of_app _ _ _ Ht). set_solver.
        -- eauto.
    + destruct H as (-> & _). split; [by auto|].
      intros x n _ Hx. left. by apply Hkeep.
  - destruct H as (_ & -> & _). rewrite Hf1. split; [by auto|]. auto.
Qed.

End InterruptedMoves.


Lemma move_file_loses_only_what_it_overwrites_witness :
  let st := Scenario.boot Scenario.crowded {[Scenario.app]} in
  let st' := (move_file Scenario.calm Scenario.signer Scenario.app
                (Some Scenario.done) st).2 in
  (∀ node, fs st !! Scenario.app = Some node →
           fs st' !! Scenario.app = Some node
           ∨ ∃ dst q, EvMove Scenario.app dst (Ok q) ∈ events_of st st'
                      ∧ fs st' !! q = Some node)
  ∧ (∀ x node, x ≠ Scenario.app → fs st !! x = Some node →
       fs st' !! x = Some node
       ∨ (is_file (fs st) x = true
          ∧ EvMove Scenario.app x (Ok x) ∈ events_of st st'
          ∧ ∃ d t, Some Scenario.done = Some d
                   ∧ x = d // (stem Scenario.app +:+ "_"
                               +:+ strftime_compact t
                               +:+ suffix Scenario.app))).
Proof.
  intros st st'.
  apply (move_file_loses_only_what_it_overwrites Scenario.calm
           Scenario.signer Scenario.app (Some Scenario.done) st (Ok true)).
  vm_compute. reflexivity.
Defined.

(** ** What escapes a scan, and how the watcher stops *)

Section MoreScanning.

Variable W : World.






End MoreScanning.


Section InterruptedRun.

Context {I : Interrupts}.
Variable W : World.

Lemma console_log_cut_grows self m l st :
  console st `prefix_of` console (log_cut W self m l st).
Proof. by eexists. Qed.

Lemma scan_and_process_ends self st r st' :
  scan_and_process W self st = (r, st') →
  console st `prefix_of` console st'
  ∧ ∀ e, r = Raise e → e = KeyboardInterrupt.
Proof.
  apply (runs_scan_and_process W self
           (λ s s', console s `prefix_of` console s')
           (λ _, True) (λ _, True));
    [apply console_grows_trans|apply console_log_grows
    |apply console_log_cut_grows
    |by intros s s' evs -> _ _ _ _|done..].
Qed.



End InterruptedRun.


(** A negative poll interval ends the watcher after its first scan. *)
Example run_negative_interval :
  let st := Scenario.boot Scenario.disk ∅ in
  let out := run Scenario.calm Cases.hasty 3 st in
  out.1 = Raise (ValueError "sleep length must be non-negative")
  ∧ exit_status out.1 = 1%Z
  ∧ last (console out.2)
    = Some "[2026-01-01 12:00:00] [ERROR] Unexpected error: sleep length must be non-negative".
Proof. vm_compute. done. Qed.

(** With Ctrl+C at the first line written to the log file, [run] is left
    before its [try] is entered. *)
Example run_interrupted_in_banner :
  let st := Scenario.boot Scenario.disk ∅ in
  let out := run (I := ctrl_c_at_once) Cases.with_env Cases.misled 3 st in
  out.1 = Raise KeyboardInterrupt ∧ events_of st out.2 = [].
Proof. vm_compute. done. Qed.

(** ** The candidates of a scan *)

Lemma glob_ipa_spec (f : FS) (d p : Path) :
  p ∈ glob_ipa f d
  ↔ p ≠ [] ∧ parent p = d ∧ matches_ipa (name p) = true
    ∧ is_file f p = true.
Proof.
  unfold glob_ipa. rewrite list_elem_of_fmap. split.
  - intros ([q n] & -> & Hin). apply list_elem_of_filter in Hin as [Hp _].
    cbn [fst] in *.
    apply andb_prop in Hp as [Hp H4]. apply andb_prop in Hp as [Hp H3].
    apply andb_prop in Hp as [H1 H2].
    apply bool_decide_eq_true in H1, H2. done.
  - intros (H1 & H2 & H3 & H4).
    assert (∃ n, f !! p = Some n) as [n Hn].
    { unfold is_file in H4. destruct (f !! p); [by eexists|done]. }
    exists (p, n). split; [done|]. apply list_elem_of_filter. split.
    + cbn [fst]. rewrite H3, H4.
      by rewrite !bool_decide_eq_true_2 by done.
    + by apply elem_of_map_to_list.
Qed.

Lemma glob_ipa_NoDup (f : FS) (d : Path) : NoDup (glob_ipa f d).
Proof.
  unfold glob_ipa. apply (sublist_NoDup _ ((map_to_list f).*1)).
  - apply NoDup_fst_map_to_list.
  - apply (fmap_sublist fst), sublist_filter.
Qed.

Lemma routing_not_stat evs f res :
  Forall routing evs → EvStat f res ∉ evs.
Proof.
  intros Hall Hin. rewrite Forall_forall in Hall. exact (Hall _ Hin).
Qed.

Lemma events_of_trans st s1 st' a b :
  trace s1 = trace st ++ a → trace st' = trace s1 ++ b →
  events_of st st' = a ++ b.
Proof.
  intros H1 H2. apply events_of_app. by rewrite H2, H1, app_assoc.
Qed.

Section Candidates.

Context {I : Interrupts}.
Variable W : World.


(** The size of a file is read for the candidate the loop body is given,
    and only when that candidate is not claimed. *)
Lemma scan_candidate_stats self f st r st' :
  scan_candidate W self f st = (r, st') →
  (∀ q, q ≠ f → q ∈ processed_files st' ↔ q ∈ processed_files st)
  ∧ (f ∈ processed_files st → st' = st)
  ∧ ∃ evs, trace st' = trace st ++ evs
     ∧ (∀ f' res, EvStat f' res ∈ evs → f' = f ∧ f ∉ processed_files st)
     ∧ (f ∉ processed_files st → ∃ res, EvStat f res ∈ evs).
Proof.
  intros H. unfold scan_candidate in H. exec in H.
  destruct (decide (f ∈ processed_files st)) as [Hf|Hf].
  { rewrite bool_decide_eq_true_2 in H by done. injection H as _ <-.
    do 2 (split; [done|]). exists []. rewrite app_nil_r.
    split; [done|]. split; [|done]. intros f' res Hin.
    by apply elem_of_nil in Hin. }
  rewrite bool_decide_eq_false_2 in H by done.
  unfold stat_size, sleep in H. exec in H. cbn [fs set_fs record tick] in H.
  destruct (st_size (fs st) f) as [n1|e] eqn:H1; exec in H.
  2:{ rewrite (st_size_raises _ _ _ H1) in H. injection H as _ <-.
      do 2 (split; [done|]). exists [EvStat f (Raise e)].
      split; [done|]. split; [|intros _; exists (Raise e); set_solver].
      intros f' res Hin. pick_event Hin; by simplify_eq. }
  match type of H with
  | context [record (EvStat f ?r2) ?s] =>
      match r2 with
      | Ok _ => fail 1
      | _ => destruct r2 as [n2|e] eqn:H2
      end
  end; exec in H.
  2:{ rewrite (st_size_raises _ _ _ H2) in H. injection H as _ <-.
      do 2 (split; [done|]).
      exists [EvStat f (Ok n1); EvSleep 500; EvStat f (Raise e)].
      cbn [trace record set_fs tick]. rewrite <- !app_assoc. split; [done|].
      split; [|intros _; exists (Ok n1); set_solver].
      intros f' res Hin. pick_event Hin; by simplify_eq. }
  destruct (Nat.eqb n1 n2); exec in H.
  2:{ injection H as _ <-. do 2 (split; [done|]).
      exists [EvStat f (Ok n1); EvSleep 500; EvStat f (Ok n2)].
      cbn [trace record set_fs tick]. rewrite <- !app_assoc. split; [done|].
      split; [|intros _; exists (Ok n1); set_solver].
      intros f' res Hin. pick_event Hin; by simplify_eq. }
  match type of H with
  | context [sign_ipa W self f ?s] =>
      destruct (sign_ipa W self f s) as [rs ss] eqn:Hs;
      apply sign_ipa_inner in Hs as (Hc & evs & Ht & Hall);
      assert (st' = ss) as -> by (by destruct rs; injection H as _ <-);
      clear H
  end.
  split; [exact Hc|]. split; [done|].
  exists ([EvStat f (Ok n1); EvSleep 500; EvStat f (Ok n2)] ++ evs).
  cbn [trace record set_fs tick] in Ht. rewrite Ht, <- !app_assoc.
  split; [done|]. split.
  - intros f' res Hin. apply elem_of_app in Hin as [Hin|Hin];
      [|by apply inner_not_stat in Hin].
    pick_event Hin; by simplify_eq.
  - intros _. exists (Ok n1). set_solver.
Qed.

Lemma for_each_candidates_stats self l : ∀ st r st',
  for_each l (scan_candidate W self) st = (r, st') →
  ∃ evs, trace st' = trace st ++ evs
    ∧ (∀ f res, EvStat f res ∈ evs → f ∈ l ∧ f ∉ processed_files st)
    ∧ (r = Ok tt → ∀ f, f ∈ l → f ∉ processed_files st →
         ∃ res, EvStat f res ∈ evs).
Proof.
  induction l as [|f0 l IH]; intros st r st' H; cbn [for_each] in H.
  - exec in H. injection H as _ <-. exists []. rewrite app_nil_r.
    split; [done|]. split.
    + intros f res Hin. by apply elem_of_nil in Hin.
    + intros _ f Hin. by apply elem_of_nil in Hin.
  - unfold bind in H.
    destruct (scan_candidate W self f0 st) as [r1 s1] eqn:H1.
    apply scan_candidate_stats in H1 as (Hc1 & Hskip & a & Ta & Ha1 & Ha2).
    assert (∀ f, f ∉ processed_files s1 → f ∉ processed_files st) as Hback.
    { intros f Hf Hin. destruct (decide (f = f0)) as [->|Hne].
      - by rewrite (Hskip Hin) in Hf.
      - by apply Hf, Hc1. }
    destruct r1 as [[]|e].
    + apply IH in H as (b & Tb & Hb1 & Hb2). exists (a ++ b).
      rewrite Tb, Ta, app_assoc. split; [done|]. split.
      * intros f res Hin. apply elem_of_app in Hin as [Hin|Hin].
        -- apply Ha1 in Hin as [-> ?]. split; [by left|done].
        -- apply Hb1 in Hin as [Hl Hc]. split; [by right|by apply Hback].
      * intros Hr f Hin Hc. destruct (decide (f = f0)) as [->|Hne].
        -- destruct (Ha2 Hc) as [res Hres]. exists res.
           apply elem_of_app. by left.
        -- apply elem_of_cons in Hin as [?|Hin]; [done|].
           destruct (Hb2 Hr f Hin) as [res Hres]; [by rewrite Hc1|].
           exists res. apply elem_of_app. by right.
    + injection H as <- <-. exists a. split; [done|]. split; [|done].
      intros f res Hin. apply Ha1 in Hin as [-> ?]. split; [by left|done].
Qed.

(** X21: a scan reads the size of a file only for the candidates of the
    watch folder: what [Path.resolve()] answers for the entries directly
    in it that are regular files with a name matching [*.ipa] when the scan
    starts, if that path is not claimed then; and a scan that returns has
    read the size of every one of them. Directories named [*.ipa], files in
    subfolders and files of other names are never looked at; the target of
    a symbolic link in the watch folder is, wherever it lies. *)
Theorem scan_examines_the_candidates self st r st' :
  scan_and_process W self st = (r, st') →
  (∀ f res, EvStat f res ∈ events_of st st' →
     f ∉ processed_files st
     ∧ ∃ g, f = realpath W (fs st) g
            ∧ parent g = watch_folder self
            ∧ matches_ipa (name g) = true
            ∧ is_file (fs st) g = true)
  ∧ (r = Ok tt →
     exists_ (fs st) (watch_folder self) = true →
     ∀ g, g ≠ [] → parent g = watch_folder self →
          matches_ipa (name g) = true →
          is_file (fs st) g = true →
          realpath W (fs st) g ∉ processed_files st →
          ∃ res, EvStat (realpath W (fs st) g) res ∈ events_of st st').
Proof.
  intros H. unfold scan_and_process in H. exec in H. cbn [fs record] in H.
  destruct (exists_ (fs st) (watch_folder self)) eqn:Hw; exec in H.
  - apply for_each_candidates_stats in H as (evs & Ht & H1 & H2).
    cbn [trace record processed_files] in *. rewrite <- app_assoc in Ht.
    rewrite (events_of_app _ _ _ Ht). split.
    + intros f res Hin. apply elem_of_cons in Hin as [?|Hin]; [done|].
      apply H1 in Hin as [Hin Hc]. split; [done|].
      apply list_elem_of_fmap in Hin as (g & -> & Hg).
      apply glob_ipa_spec in Hg. exists g. naive_solver.
    + intros Hr _ g Hne Hp Hm Hf Hc.
      destruct (H2 Hr (realpath W (fs st) g)) as [res Hres]; [|done|].
      { apply list_elem_of_fmap. exists g. split; [done|].
        by apply glob_ipa_spec. }
      exists res. by right.
  - assert (trace st' = trace st ++ [EvScan]) as Ht.
    { split_log H; injection H as _ <-; by frames_cut. }
    rewrite (events_of_app _ _ _ Ht). split; [|intros _ ?; congruence].
    intros f res Hin. by apply list_elem_of_singleton in Hin.
Qed.

End Candidates.

Lemma scan_examines_the_candidates_witness :
  let st := Scenario.boot Cases.linked_disk ∅ in
  let st' := (scan_and_process Cases.linked Scenario.signer st).2 in
  (∀ f res, EvStat f res ∈ events_of st st' →
     f ∉ processed_files st
     ∧ ∃ g, f = realpath Cases.linked (fs st) g
            ∧ parent g = watch_folder Scenario.signer
            ∧ matches_ipa (name g) = true
            ∧ is_file (fs st) g = true)
  ∧ (Ok tt = Ok tt →
     exists_ (fs st) (watch_folder Scenario.signer) = true →
     ∀ g, g ≠ [] → parent g = watch_folder Scenario.signer →
          matches_ipa (name g) = true →
          is_file (fs st) g = true →
          realpath Cases.linked (fs st) g ∉ processed_files st →
          ∃ res, EvStat (realpath Cases.linked (fs st) g) res
                 ∈ events_of st st').
Proof.
  intros st st'.
  apply (scan_examines_the_candidates Cases.linked Scenario.signer st
           (Ok tt) st').
  vm_compute. reflexivity.
Defined.

(** The file behind a symbolic link is read, signed and moved where it
    lies, outside the watch folder; the link stays. *)
Example scan_follows_symlink :
  let st := Scenario.boot Cases.linked_disk ∅ in
  let st' := (scan_and_process Cases.linked Scenario.signer st).2 in
  EvStat Cases.vault (Ok 7) ∈ events_of st st'
  ∧ (∀ res, EvStat Scenario.app res ∉ events_of st st')
  ∧ fs st' !! Cases.vault = None
  ∧ is_file (fs st') Scenario.app = true.
Proof.
  intros st st'. split; [|split; [|split]].
  - apply list_elem_of_In. vm_compute. auto.
  - intros res Hin. apply list_elem_of_In in Hin. vm_compute in Hin.
    naive_solver.
  - vm_compute. reflexivity.
  - vm_compute. reflexivity.
Qed.

(** ** The claims a scan leaves behind *)

Section Leaks.

Variable W : World.

Lemma scan_candidate_leak self f st st' p :
  scan_candidate W self f st = (Ok tt, st') →
  p ∈ processed_files st' → p ∉ processed_files st →
  ∃ d e, EvMkdir d (Raise e) ∈ events_of st st'.
Proof.
  intros H Hin Hout.
  destruct (decide (f ∈ processed_files st)) as [Hf|Hf].
  { rewrite scan_candidate_claimed in H by done. by injection H as <-. }
  pose proof (scan_candidate_frame _ _ _ _ _ _ H) as [_ Hframe].
  assert (p = f) as ->.
  { destruct (decide (p = f)) as [|Hne]; [done|]. by apply Hframe in Hin. }
  apply scan_candidate_cases in H as [(e & -> & _) | H]; [done| |done].
  destruct H as (n1 & r2 & s2 & Hc2 & _ & Ht2 & H).
  assert (st' = s2 → False) as Hskip by (intros ->; by rewrite Hc2 in Hin).
  destruct r2 as [n2|e2]; [destruct (Nat.eqb n1 n2)|];
    try (by destruct H as [? _]).
  destruct H as (rs & Hs & Hr). destruct rs as [b|e]; [|done].
  apply sign_ipa_frame in Hs as Hfr; [|by rewrite Hc2].
  apply sign_ipa_claim_left in Hs as Hleft; [|by rewrite Hc2].
  apply Hleft in Hin as (d & e & Hev). exists d, e.
  destruct Hfr as ((found & sp & evs & Ht & _) & _).
  rewrite (events_of_app _ _ _ Ht) in Hev.
  rewrite (events_of_trans _ _ _ _ _ Ht2 Ht).
  apply elem_of_app. by right.
Qed.

Lemma for_each_candidates_leak self l p : ∀ st st',
  for_each l (scan_candidate W self) st = (Ok tt, st') →
  p ∈ processed_files st' → p ∉ processed_files st →
  ∃ d e, EvMkdir d (Raise e) ∈ events_of st st'.
Proof.
  induction l as [|f l IH]; intros st st' H Hin Hout; cbn [for_each] in H.
  - exec in H. by injection H as <-.
  - unfold bind in H.
    destruct (scan_candidate W self f st) as [r1 s1] eqn:H1.
    destruct r1 as [[]|e]; [|done].
    pose proof (scan_candidate_frame _ _ _ _ _ _ H1) as [[evs1 Ht1] _].
    pose proof (for_each_candidates_frame _ _ _ _ _ _ H) as [[evs Ht] _].
    rewrite (events_of_trans _ _ _ _ _ Ht1 Ht).
    destruct (decide (p ∈ processed_files s1)) as [Hp1|Hp1].
    + destruct (scan_candidate_leak _ _ _ _ _ H1 Hp1 Hout) as (d & e & Hev).
      rewrite (events_of_app _ _ _ Ht1) in Hev.
      exists d, e. apply elem_of_app. by left.
    + destruct (IH _ _ H Hin Hp1) as (d & e & Hev).
      rewrite (events_of_app _ _ _ Ht) in Hev.
      exists d, e. apply elem_of_app. by right.
Qed.

(** X26: a scan that returns has released every claim it took, with one
    exception: a path is claimed after the scan and was not before only if
    a destination folder could not be created during the scan. Apart from
    that way out, the claim set is the same after a scan as before. *)
Theorem scan_leaves_claims_only_after_mkdir_failure self st st' p :
  scan_and_process W self st = (Ok tt, st') →
  p ∈ processed_files st' →
  p ∉ processed_files st →
  ∃ d e, EvMkdir d (Raise e) ∈ events_of st st'.
Proof.
  unfold scan_and_process. exec. cbn [fs record].
  destruct (exists_ (fs st) (watch_folder self)); exec.
  - intros H Hin Hout.
    pose proof (for_each_candidates_frame _ _ _ _ _ _ H) as [[evs Ht] _].
    apply (for_each_candidates_leak _ _ p) in H as (d & e & Hev);
      [|done|done].
    rewrite (events_of_app _ _ _ Ht) in Hev. cbn [trace record] in Ht.
    rewrite <- app_assoc in Ht. rewrite (events_of_app _ _ _ Ht).
    exists d, e. apply elem_of_app. by right.
  - intros [= <-]. by frames.
Qed.

End Leaks.

Lemma scan_leaves_claims_only_after_mkdir_failure_witness :
  let st := Scenario.boot Scenario.fresh ∅ in
  let st' := (scan_and_process Scenario.readonly Scenario.signer st).2 in
  ∃ d e, EvMkdir d (Raise e) ∈ events_of st st'.
Proof.
  intros st st'.
  apply (scan_leaves_claims_only_after_mkdir_failure Scenario.readonly
           Scenario.signer st st' Scenario.app).
  - vm_compute. reflexivity.
  - vm_compute. set_solver.
  - vm_compute. set_solver.
Defined.

(** ** What the constructor leaves on the disk *)

Lemma prefixes_prefix (p q : Path) : q ∈ prefixes p → q `prefix_of` p.
Proof.
  revert q. induction p as [|c p IH]; intros q Hq; cbn in Hq.
  - apply list_elem_of_singleton in Hq as ->. done.
  - apply elem_of_cons in Hq as [->|Hq]; [apply prefix_nil|].
    apply list_elem_of_fmap in Hq as (q' & -> & Hq').
    apply prefix_cons. by apply IH.
Qed.

Lemma foldl_ensure_dir_adds l : ∀ (f : FS) q n,
  foldl ensure_dir f l !! q = Some n →
  f !! q = Some n ∨ (f !! q = None ∧ n = Dir ∧ q ∈ l).
Proof.
  induction l as [|x l IH]; intros f q n H; cbn in H; [by left|].
  apply IH in H as [H | (H & -> & Hq)].
  - unfold ensure_dir in H. destruct (f !! x) eqn:Hx; [by left|].
    destruct (decide (x = q)) as [->|Hne].
    + rewrite lookup_insert_eq in H. injection H as <-.
      right. split; [done|]. split; [done|by left].
    + rewrite lookup_insert_ne in H by done. by left.
  - right. split; [|split; [done|by right]].
    unfold ensure_dir in H. destruct (f !! x) eqn:Hx; [done|].
    destruct (decide (x = q)) as [->|Hne]; [by rewrite lookup_insert_eq in H|].
    by rewrite lookup_insert_ne in H.
Qed.

Lemma grown_by_refl ds f : grown_by ds f f.
Proof. split; [done|]. intros q n H1 H2. congruence. Qed.

Lemma grown_by_trans ds f1 f2 f3 :
  grown_by ds f1 f2 → grown_by ds f2 f3 → grown_by ds f1 f3.
Proof.
  intros [K1 A1] [K2 A2]. split; [by eauto|].
  intros q n H3 H1. destruct (f2 !! q) as [m|] eqn:H2.
  - apply K2 in H2 as H3'. assert (m = n) as -> by congruence. by eauto.
  - by eauto.
Qed.

Lemma grown_by_mkdir W ds d st r st1 :
  d ∈ ds → mkdir W d st = (r, st1) → grown_by ds (fs st) (fs st1).
Proof.
  intros Hd H. apply mkdir_cases in H as (_ & _ & H).
  destruct r as [[]|e]; [|rewrite H; apply grown_by_refl].
  destruct H as [-> _]. split.
  - intros q n. apply make_dirs_keeps.
  - intros q n H1 H2. apply foldl_ensure_dir_adds in H1 as [?|(_ & -> & Hq)];
      [congruence|].
    split; [done|]. exists d. split; [done|by apply prefixes_prefix].
Qed.

(** X22: whatever the constructor returns or raises, it has removed and
    overwritten nothing: every entry of the disk is still there unchanged,
    and what is new are directories, each one a configured folder or an
    ancestor of one. No file of the watch folder is touched before the
    first scan. *)
Theorem init_only_adds_folders W cfg st :
  let st' := (init W cfg st).2 in
  (∀ q n, fs st !! q = Some n → fs st' !! q = Some n)
  ∧ (∀ q n, fs st' !! q = Some n → fs st !! q = None →
       n = Dir ∧ ∃ d, d ∈ folders cfg ∧ q `prefix_of` d).
Proof.
  intros st'. subst st'. change (grown_by (folders cfg) (fs st) (fs (init W cfg st).2)).
  unfold init. exec.
  set (s0 := set_claims ∅ st). change (fs st) with (fs s0). clearbody s0.
  assert (watch_folder cfg ∈ folders cfg) as Hw by (unfold folders; set_solver).
  assert (output_folder cfg ∈ folders cfg) as Ho
    by (unfold folders; set_solver).
  destruct (mkdir W (watch_folder cfg) s0) as [r1 s1] eqn:H1.
  apply (grown_by_mkdir _ _ _ _ _ _ Hw) in H1.
  destruct r1 as [[]|e1]; [|done].
  destruct (mkdir W (output_folder cfg) s1) as [r2 s2] eqn:H2.
  apply (grown_by_mkdir _ _ _ _ _ _ Ho) in H2.
  pose proof (grown_by_trans _ _ _ _ H1 H2) as H12.
  destruct r2 as [[]|e2]; [|done].
  assert (∃ r3 s3,
            (match processed_folder cfg with
             | Some d => mkdir W d
             | None => λ st : State, (Ok tt, st)
             end) s2 = (r3, s3)
            ∧ grown_by (folders cfg) (fs s0) (fs s3))
    as (r3 & s3 & -> & H3).
  { destruct (processed_folder cfg) as [d|] eqn:Hp; [|by eauto].
    destruct (mkdir W d s2) as [r3 s3] eqn:H3. exists r3, s3.
    split; [done|]. eapply grown_by_trans; [done|].
    eapply grown_by_mkdir; [|done]. unfold folders. rewrite Hp. set_solver. }
  destruct r3 as [[]|e3]; [|done].
  destruct (failed_folder cfg) as [d|] eqn:Hf; [|done].
  destruct (mkdir W d s3) as [r4 s4] eqn:H4.
  assert (grown_by (folders cfg) (fs s0) (fs s4)).
  { eapply grown_by_trans; [done|].
    eapply grown_by_mkdir; [|done]. unfold folders. rewrite Hf.
    destruct (processed_folder cfg); set_solver. }
  by destruct r4 as [[]|e4].
Qed.

(** ** The log file next to the console *)

Section LogFile.

Variable W : World.

Lemma quiet_init cfg st r st' :
  init W cfg st = (r, st') →
  console st' = console st ∧ logfile st' = logfile st
  ∧ ∀ self, r = Ok self → self = cfg.
Proof.
  unfold init. exec.
  set (s0 := set_claims ∅ st).
  change (console st) with (console s0). change (logfile st) with (logfile s0).
  clearbody s0.
  destruct (mkdir W (watch_folder cfg) s0) as [r1 s1] eqn:H1.
  apply quiet_mkdir in H1 as [<- <-].
  destruct r1 as [[]|e1]; [|by intros [= <- <-]; repeat split].
  destruct (mkdir W (output_folder cfg) s1) as [r2 s2] eqn:H2.
  apply quiet_mkdir in H2 as [<- <-].
  destruct r2 as [[]|e2]; [|by intros [= <- <-]; repeat split].
  assert (∃ r3 s3,
            (match processed_folder cfg with
             | Some d => mkdir W d
             | None => λ st : State, (Ok tt, st)
             end) s2 = (r3, s3)
            ∧ console s3 = console s2 ∧ logfile s3 = logfile s2)
    as (r3 & s3 & -> & <- & <-).
  { destruct (processed_folder cfg) as [d|]; [|by eauto].
    destruct (mkdir W d s2) as [r3 s3] eqn:H3. exists r3, s3.
    by apply quiet_mkdir in H3. }
  destruct r3 as [[]|e3]; [|by intros [= <- <-]; repeat split].
  destruct (failed_folder cfg) as [d|];
    [|intros [= <- <-]; do 2 (split; [done|]); by intros self [= <-]].
  destruct (mkdir W d s3) as [r4 s4] eqn:H4.
  apply quiet_mkdir in H4 as [<- <-].
  destruct r4 as [[]|e4]; intros [= <- <-]; do 2 (split; [done|]);
    by intros self [= <-].
Qed.

Lemma mirrored_trans s1 s2 s3 :
  mirrored s1 s2 → mirrored s2 s3 → mirrored s1 s3.
Proof.
  intros (l1 & Hc1 & Hf1) (l2 & Hc2 & Hf2). exists (l1 ++ l2).
  rewrite Hc2, Hc1, Hf2, Hf1, map_app, <- !app_assoc. done.
Qed.

Lemma mirrored_quiet st st' :
  console st' = console st → logfile st' = logfile st → mirrored st st'.
Proof. intros Hc Hf. exists []. cbn. by rewrite Hc, Hf, !app_nil_r. Qed.

Lemma mirrored_log self f m l st :
  log_file self = Some f → (∀ t, logfile_fault W t = None) →
  mirrored st (log_state W self m l st).
Proof.
  intros Hf Hok. unfold log_state, log, bind, datetime_now.
  rewrite Hf, Hok. cbn. eexists [_]. done.
Qed.

(** X23: with a log file that can be written, the log file is a copy of
    the console: from the constructor to the end of [run], every line the
    program prints goes through [log], and the log file receives the same
    lines in the same order, each followed by a line feed, and nothing
    else. *)
Theorem log_file_mirrors_console cfg cycles st f :
  log_file cfg = Some f →
  (∀ t, logfile_fault W t = None) →
  mirrored st (main W cfg cycles st).2.
Proof.
  intros Hf Hok. unfold main, bind.
  destruct (init W cfg st) as [ri s1] eqn:Hi.
  apply quiet_init in Hi as (Hc & Hl & Hcfg).
  pose proof (mirrored_quiet _ _ Hc Hl) as M1.
  destruct ri as [signer|e]; [|done]. rewrite (Hcfg signer eq_refl).
  destruct (run W cfg cycles s1) as [r st'] eqn:Hrun. cbn [snd].
  apply (mirrored_trans _ _ _ M1).
  revert Hrun. apply (out_run W cfg mirrored);
    [apply mirrored_trans|intros; by eapply mirrored_log
    |apply mirrored_quiet].
Qed.

(** X24: without a log file nothing is ever written to one, whatever is
    printed. *)
Theorem no_log_file_no_write cfg cycles st :
  log_file cfg = None →
  logfile (main W cfg cycles st).2 = logfile st.
Proof.
  intros Hf. unfold main, bind.
  destruct (init W cfg st) as [ri s1] eqn:Hi.
  apply quiet_init in Hi as (_ & Hl & Hcfg).
  destruct ri as [signer|e]; [|done]. rewrite (Hcfg signer eq_refl).
  destruct (run W cfg cycles s1) as [r st'] eqn:Hrun. cbn [snd].
  rewrite <- Hl. revert Hrun.
  apply (out_run W cfg (λ s s', logfile s' = logfile s)).
  - intros a b c H1 H2. by rewrite H2.
  - intros m l s. unfold log_state, log, bind, datetime_now.
    by rewrite Hf.
  - by intros s s' _ ->.
Qed.

End LogFile.

Lemma log_file_mirrors_console_witness :
  mirrored (Scenario.boot Scenario.disk ∅)
    (main Scenario.calm Cases.misled 1 (Scenario.boot Scenario.disk ∅)).2.
Proof.
  apply (log_file_mirrors_console Scenario.calm Cases.misled 1
           (Scenario.boot Scenario.disk ∅) ["var"; "log"; "watch.log"]).
  - reflexivity.
  - intros t. reflexivity.
Defined.

Lemma no_log_file_no_write_witness :
  logfile (main Scenario.calm Scenario.signer 1
             (Scenario.boot Scenario.disk ∅)).2
  = logfile (Scenario.boot Scenario.disk ∅).
Proof.
  apply (no_log_file_no_write Scenario.calm Scenario.signer 1
           (Scenario.boot Scenario.disk ∅)).
  reflexivity.
Defined.

(** ** The names of the candidates *)

Lemma append_nil_l (t : string) : "" +:+ t = t.
Proof. reflexivity. Qed.

Lemma append_cons c (s t : string) : String c s +:+ t = String c (s +:+ t).
Proof. reflexivity. Qed.

Lemma append_assoc (s t u : string) : (s +:+ t) +:+ u = s +:+ t +:+ u.
Proof.
  induction s as [|c s IH]; [done|]. rewrite !append_cons. by rewrite IH.
Qed.

Lemma length_append (s t : string) :
  String.length (s +:+ t) = (String.length s + String.length t)%nat.
Proof.
  induction s as [|c s IH]; [done|]. rewrite append_cons. cbn.
  by rewrite IH.
Qed.

Lemma substring_all (s : string) : substring 0 (String.length s) s = s.
Proof. induction s as [|c s IH]; cbn; [done|]. by rewrite IH. Qed.

Lemma substring_append_l (s t : string) :
  substring 0 (String.length s) (s +:+ t) = s.
Proof.
  induction s as [|c s IH]; [by destruct t|]. rewrite append_cons. cbn.
  by rewrite IH.
Qed.

Lemma substring_append_r (s t : string) :
  substring (String.length s) (String.length t) (s +:+ t) = t.
Proof.
  induction s as [|c s IH]; [apply substring_all|]. by rewrite append_cons.
Qed.

Lemma substring_split (s : string) : ∀ k,
  (k ≤ String.length s)%nat →
  s = substring 0 k s +:+ substring k (String.length s - k) s.
Proof.
  induction s as [|c s IH]; intros k Hk; cbn in Hk.
  - by destruct k.
  - destruct k as [|k]; cbn.
    + by rewrite substring_all.
    + rewrite append_cons. f_equal. apply IH. lia.
Qed.

Lemma rfind_dot_append_ipa (s : string) :
  rfind_dot (s +:+ ".ipa") = Some (String.length s).
Proof.
  induction s as [|c s IH]; [done|]. rewrite append_cons. cbn.
  by rewrite IH.
Qed.

Lemma matches_ipa_inv (nm : string) :
  matches_ipa nm = true → ∃ s, nm = s +:+ ".ipa".
Proof.
  unfold matches_ipa. intros H. apply andb_prop in H as [Hn Hs].
  apply Nat.leb_le in Hn. apply String.eqb_eq in Hs.
  exists (substring 0 (String.length nm - 4) nm).
  pose proof (substring_split nm (String.length nm - 4)) as Hsp.
  replace (String.length nm - (String.length nm - 4))%nat with 4%nat
    in Hsp by lia.
  rewrite Hs in Hsp. apply Hsp. lia.
Qed.

Lemma matches_ipa_append (s : string) : matches_ipa (s +:+ ".ipa") = true.
Proof.
  unfold matches_ipa. rewrite length_append. cbn [String.length].
  apply andb_true_intro. split; [apply Nat.leb_le; lia|].
  apply String.eqb_eq.
  replace (String.length s + 4 - 4)%nat with (String.length s) by lia.
  apply (substring_append_r s ".ipa").
Qed.

Lemma name_joinpath (d : Path) (x : string) : name (d // x) = x.
Proof. unfold name, joinpath. apply last_last. Qed.

Lemma parent_joinpath (d : Path) (x : string) : parent (d // x) = d.
Proof. unfold parent, joinpath. apply removelast_last. Qed.

(** X25: the names the scan takes up are the names the routing keeps: a
    name matching [*.ipa], other than [.ipa] itself, is its stem followed by
    the suffix [.ipa]; so the place [move_file] picks for such a file is
    directly in the destination folder and has a name matching [*.ipa]
    again, the file's own name when that is free there and the stem, an
    underscore, the time stamp and [.ipa] when it is taken. *)
Theorem pick_dest_path_keeps_ipa W d p st dst st' :
  matches_ipa (name p) = true →
  name p ≠ ".ipa" →
  pick_dest_path W d p st = (Ok dst, st') →
  stem p +:+ suffix p = name p
  ∧ suffix p = ".ipa"
  ∧ parent dst = d
  ∧ matches_ipa (name dst) = true
  ∧ (if exists_ (fs st) (d // name p)
     then name dst
          = stem p +:+ "_" +:+ strftime_compact (now W (ticks st)) +:+ ".ipa"
     else dst = d // name p).
Proof.
  intros Hm Hne H. pose proof Hm as Hm'.
  apply matches_ipa_inv in Hm' as [s Hs].
  assert (s ≠ "") as Hs0 by (intros ->; by rewrite Hs in Hne).
  assert (0 < String.length s)%nat as Hlen by (destruct s; [done|cbn; lia]).
  assert (suffix p = ".ipa" ∧ stem p = s) as [Hsuf Hstem].
  { unfold suffix, stem, suffix_of, stem_of.
    rewrite Hs, rfind_dot_append_ipa, length_append. cbn [String.length].
    assert (Nat.ltb 0 (String.length s)
            && Nat.ltb (String.length s) (String.length s + 4 - 1) = true)
      as ->.
    { apply andb_true_intro. split; apply Nat.ltb_lt; lia. }
    replace (String.length s + 4 - String.length s)%nat with 4%nat by lia.
    split; [apply (substring_append_r s ".ipa")|apply substring_append_l]. }
  split; [by rewrite Hsuf, Hstem|]. split; [done|].
  unfold pick_dest_path, datetime_now in H. exec in H.
  destruct (exists_ (fs st) (d // name p)); injection H as <- <-.
  - rewrite parent_joinpath, name_joinpath, Hsuf.
    split; [done|]. split; [|done].
    rewrite <- !append_assoc. apply matches_ipa_append.
  - by rewrite parent_joinpath, name_joinpath.
Qed.

Lemma pick_dest_path_keeps_ipa_witness :
  let st := Scenario.boot Scenario.disk ∅ in
  let dst := Scenario.done // "app_20260101_120000.ipa" in
  stem Scenario.app +:+ suffix Scenario.app = name Scenario.app
  ∧ suffix Scenario.app = ".ipa"
  ∧ parent dst = Scenario.done
  ∧ matches_ipa (name dst) = true
  ∧ (if exists_ (fs st) (Scenario.done // name Scenario.app)
     then name dst
          = stem Scenario.app +:+ "_"
            +:+ strftime_compact (now Scenario.calm (ticks st)) +:+ ".ipa"
     else dst = Scenario.done // name Scenario.app).
Proof.
  intros st dst.
  apply (pick_dest_path_keeps_ipa Scenario.calm Scenario.done Scenario.app
           st dst
           (pick_dest_path Scenario.calm Scenario.done Scenario.app st).2).
  - reflexivity.
  - discriminate.
  - vm_compute. reflexivity.
Defined.
